(** * Word-level adaptive Huffman codec (encoder.py): model and properties

    The Python module keeps a pointer-linked tree of [_Node] objects.  The
    model stores the nodes in a heap (a list indexed by allocation order, so
    that an index plays the role of Python's object identity) and threads the
    codec instance through a small state-and-exception monad.  Every Python
    [while] loop that walks pointers takes a fuel argument; running out of
    fuel is the distinguished outcome [OutOfFuel], and a run that is out of
    fuel for every amount of fuel is a run that never returns.  The public
    [encode] and [decode] take the instance lock around the internal
    functions; calls are sequential here and the lock is left out. *)

From stdpp Require Import gmap list strings.
From Stdlib Require Import ZArith Lia.

Local Open Scope Z_scope.

(** Python [str] values are sequences of code points, [bytes] are sequences
    of integers in [0, 256). *)
Abbreviation str := (list Z) (only parsing).
Abbreviation bytes := (list Z) (only parsing).

(** ** Exceptions and outcomes *)

Inductive exn :=
| NotEnoughBits        (* ValueError("Not enough bits left in stream") *)
| TruncatedUint16      (* ValueError("Unexpected end of stream while reading uint16") *)
| TruncatedBytes       (* ValueError("Unexpected end of stream while reading bytes") *)
| WordTooLong          (* ValueError("Word too long to encode (>65535 bytes)") *)
| UnicodeDecodeError   (* raised by bytes.decode(), a subclass of ValueError *)
| UnicodeEncodeError   (* raised by str.encode(), a subclass of ValueError *)
| NoParent             (* RuntimeError("Node has no parent – corrupted tree") *)
| ChildNotFound        (* RuntimeError("Child not found when swapping nodes") *)
| IndexError           (* data[byte_pos] out of range *)
| AttributeError.      (* attribute access on None *)

Definition is_ValueError (e : exn) : bool :=
  match e with
  | NotEnoughBits | TruncatedUint16 | TruncatedBytes | WordTooLong
  | UnicodeDecodeError | UnicodeEncodeError => true
  | _ => false
  end.

Inductive outcome (A : Type) : Type :=
| Done (a : A)
| Raised (e : exn)
| OutOfFuel.
Arguments Done {A} a.
Arguments Raised {A} e.
Arguments OutOfFuel {A}.

Definition obind {A B} (o : outcome A) (k : A -> outcome B) : outcome B :=
  match o with
  | Done a => k a
  | Raised e => Raised e
  | OutOfFuel => OutOfFuel
  end.

(** ** Text helpers: str.split(" "), " ".join, UTF-8 *)

Definition SPACE : Z := 32.

Fixpoint split_space (s : str) : list str :=
  match s with
  | [] => [[]]
  | c :: s' =>
      if c =? SPACE then [] :: split_space s'
      else match split_space s' with
           | w :: ws => (c :: w) :: ws
           | [] => [[c]]
           end
  end.

Fixpoint join_space (ws : list str) : str :=
  match ws with
  | [] => []
  | [w] => w
  | w :: ws' => w ++ SPACE :: join_space ws'
  end.

(** [c.encode()] for one code point; lone surrogates are not encodable. *)
Definition utf8_encode_char (c : Z) : outcome bytes :=
  if c <? 0 then Raised UnicodeEncodeError
  else if c <? 128 then Done [c]
  else if c <? 2048 then
    Done [Z.lor 192 (Z.shiftr c 6); Z.lor 128 (Z.land c 63)]
  else if (55296 <=? c) && (c <=? 57343) then Raised UnicodeEncodeError
  else if c <? 65536 then
    Done [Z.lor 224 (Z.shiftr c 12);
          Z.lor 128 (Z.land (Z.shiftr c 6) 63);
          Z.lor 128 (Z.land c 63)]
  else if c <? 1114112 then
    Done [Z.lor 240 (Z.shiftr c 18);
          Z.lor 128 (Z.land (Z.shiftr c 12) 63);
          Z.lor 128 (Z.land (Z.shiftr c 6) 63);
          Z.lor 128 (Z.land c 63)]
  else Raised UnicodeEncodeError.

Fixpoint utf8_encode (s : str) : outcome bytes :=
  match s with
  | [] => Done []
  | c :: s' =>
      obind (utf8_encode_char c) (fun bs =>
      obind (utf8_encode s') (fun rest => Done (bs ++ rest)))
  end.

Definition cont_byte (b : Z) : bool := (128 <=? b) && (b <=? 191).

(** [raw.decode()]: strict UTF-8 (no overlong forms, no surrogates, nothing
    above U+10FFFF). *)
Fixpoint utf8_decode (bs : bytes) : outcome str :=
  match bs with
  | [] => Done []
  | b0 :: r0 =>
      if (0 <=? b0) && (b0 <? 128) then
        obind (utf8_decode r0) (fun s => Done (b0 :: s))
      else if (194 <=? b0) && (b0 <=? 223) then
        match r0 with
        | b1 :: r1 =>
            if cont_byte b1 then
              obind (utf8_decode r1) (fun s =>
                Done (Z.lor (Z.shiftl (Z.land b0 31) 6) (Z.land b1 63) :: s))
            else Raised UnicodeDecodeError
        | _ => Raised UnicodeDecodeError
        end
      else if (224 <=? b0) && (b0 <=? 239) then
        match r0 with
        | b1 :: b2 :: r2 =>
            if cont_byte b1 && cont_byte b2
               && negb ((b0 =? 224) && (b1 <? 160))
               && negb ((b0 =? 237) && (159 <? b1)) then
              obind (utf8_decode r2) (fun s =>
                Done (Z.lor (Z.shiftl (Z.land b0 15) 12)
                        (Z.lor (Z.shiftl (Z.land b1 63) 6) (Z.land b2 63)) :: s))
            else Raised UnicodeDecodeError
        | _ => Raised UnicodeDecodeError
        end
      else if (240 <=? b0) && (b0 <=? 244) then
        match r0 with
        | b1 :: b2 :: b3 :: r3 =>
            if cont_byte b1 && cont_byte b2 && cont_byte b3
               && negb ((b0 =? 240) && (b1 <? 144))
               && negb ((b0 =? 244) && (143 <? b1)) then
              obind (utf8_decode r3) (fun s =>
                Done (Z.lor (Z.shiftl (Z.land b0 7) 18)
                        (Z.lor (Z.shiftl (Z.land b1 63) 12)
                           (Z.lor (Z.shiftl (Z.land b2 63) 6) (Z.land b3 63))) :: s))
            else Raised UnicodeDecodeError
        | _ => Raised UnicodeDecodeError
        end
      else Raised UnicodeDecodeError
  end.

(** Code points of an ASCII literal. *)
Fixpoint py (s : string) : str :=
  match s with
  | EmptyString => []
  | String a s' => Z.of_nat (Ascii.nat_of_ascii a) :: py s'
  end.

(** ** Bit writer *)

Record BitWriter := mkWriter {
  w_buffer : bytes;
  w_current : Z;
  w_filled : Z;
}.

Definition new_writer : BitWriter := mkWriter [] 0 0.

Definition add_bit (w : BitWriter) (bit : bool) : BitWriter :=
  let cur := Z.lor (Z.shiftl (w_current w) 1) (Z.b2z bit) in
  let filled := w_filled w + 1 in
  if filled =? 8 then mkWriter (w_buffer w ++ [cur]) 0 0
  else mkWriter (w_buffer w) cur filled.

Definition add_bits (w : BitWriter) (bits : list bool) : BitWriter :=
  fold_left add_bit bits w.

Definition flush_to_byte (w : BitWriter) : BitWriter :=
  if w_filled w =? 0 then w
  else mkWriter (w_buffer w ++ [Z.shiftl (w_current w) (8 - w_filled w)]) 0 0.

(** [value.to_bytes(2, "big")]; the only caller passes a value below 2^16. *)
Definition to_bytes2 (value : Z) : bytes :=
  [Z.land (Z.shiftr value 8) 255; Z.land value 255].

Definition add_uint16 (w : BitWriter) (value : Z) : BitWriter :=
  let w := flush_to_byte w in
  mkWriter (w_buffer w ++ to_bytes2 value) (w_current w) (w_filled w).

Definition add_bytes (w : BitWriter) (d : bytes) : BitWriter :=
  let w := flush_to_byte w in
  mkWriter (w_buffer w ++ d) (w_current w) (w_filled w).

Definition get_data (w : BitWriter) : bytes := w_buffer (flush_to_byte w).

(** ** Bit reader *)

Record BitReader := mkReader {
  r_data : bytes;
  r_byte_pos : nat;
  r_bit_pos : nat;
}.

Definition new_reader (d : bytes) : BitReader := mkReader d 0 0.

Definition remaining_bits (r : BitReader) : Z :=
  (Z.of_nat (length (r_data r)) - Z.of_nat (r_byte_pos r)) * 8
  - Z.of_nat (r_bit_pos r).

Definition has_bits (r : BitReader) : bool := 0 <? remaining_bits r.

Definition read_bit (r : BitReader) : outcome (bool * BitReader) :=
  if remaining_bits r <? 1 then Raised NotEnoughBits
  else match r_data r !! r_byte_pos r with
       | None => Raised IndexError
       | Some b =>
           let bit := Z.land (Z.shiftr b (7 - Z.of_nat (r_bit_pos r))) 1 in
           let bp := S (r_bit_pos r) in
           let r' := if Nat.eqb bp 8
                     then mkReader (r_data r) (S (r_byte_pos r)) 0
                     else mkReader (r_data r) (r_byte_pos r) bp in
           Done (negb (bit =? 0), r')
       end.

Definition align_to_byte (r : BitReader) : BitReader :=
  if Nat.eqb (r_bit_pos r) 0 then r
  else mkReader (r_data r) (S (r_byte_pos r)) 0.

(** [int.from_bytes(bs, "big")] *)
Definition from_bytes (bs : bytes) : Z :=
  fold_left (fun acc b => acc * 256 + b) bs 0.

Definition read_uint16 (r : BitReader) : outcome (Z * BitReader) :=
  let r := align_to_byte r in
  if (length (r_data r) <? r_byte_pos r + 2)%nat then Raised TruncatedUint16
  else Done (from_bytes (take 2 (drop (r_byte_pos r) (r_data r))),
             mkReader (r_data r) (r_byte_pos r + 2) (r_bit_pos r)).

Definition read_bytes (r : BitReader) (len : Z) : outcome (bytes * BitReader) :=
  let r := align_to_byte r in
  if Z.of_nat (length (r_data r)) <? Z.of_nat (r_byte_pos r) + len
  then Raised TruncatedBytes
  else Done (take (Z.to_nat len) (drop (r_byte_pos r) (r_data r)),
             mkReader (r_data r) (r_byte_pos r + Z.to_nat len) (r_bit_pos r)).

(** ** Tree nodes

    A [_Node] object is a heap cell; [left], [right] and [parent] hold the
    heap index of the node they point to. *)

Module Node.
Record t := mk {
  symbol : option str;
  weight : Z;
  key : Z;
  left : option nat;
  right : option nat;
  parent : option nat;
  is_nyt : bool;
  is_ncw : bool;
}.

(** [_Node(symbol=.., weight=.., key=.., is_nyt=.., is_ncw=..)] *)
Definition new (sym : option str) (w k : Z) (nyt ncw : bool) : t :=
  mk sym w k None None None nyt ncw.

Definition is_leaf (n : t) : bool :=
  match left n, right n with
  | None, None => true
  | _, _ => false
  end.

Definition set_weight (w : Z) (n : t) : t :=
  mk (symbol n) w (key n) (left n) (right n) (parent n) (is_nyt n) (is_ncw n).
Definition set_left (c : option nat) (n : t) : t :=
  mk (symbol n) (weight n) (key n) c (right n) (parent n) (is_nyt n) (is_ncw n).
Definition set_right (c : option nat) (n : t) : t :=
  mk (symbol n) (weight n) (key n) (left n) c (parent n) (is_nyt n) (is_ncw n).
Definition set_parent (p : option nat) (n : t) : t :=
  mk (symbol n) (weight n) (key n) (left n) (right n) p (is_nyt n) (is_ncw n).
Definition set_is_nyt (b : bool) (n : t) : t :=
  mk (symbol n) (weight n) (key n) (left n) (right n) (parent n) b (is_ncw n).
End Node.

(** ** The codec instance *)

Record AdaptiveHuffman := mkCodec {
  heap : list Node.t;
  leaves : gmap (list Z) nat;   (* self._leaves *)
  next_key : Z;                 (* self._next_key *)
  nyt : nat;                    (* self._nyt *)
  ncw : nat;                    (* self._ncw *)
  root : nat;                   (* self._root *)
}.

(** [AdaptiveHuffman.__init__]: the nodes are created in the order NYT, NCW,
    root, hence live at heap indices 0, 1 and 2. *)
Definition init : AdaptiveHuffman :=
  let nyt_node := Node.set_parent (Some 2%nat) (Node.new None 0 1 true false) in
  let ncw_node := Node.set_parent (Some 2%nat) (Node.new None 0 2 false true) in
  let root_node :=
    Node.set_right (Some 1%nat)
      (Node.set_left (Some 0%nat) (Node.new None 0 3 false false)) in
  mkCodec [nyt_node; ncw_node; root_node] ∅ 3 0%nat 1%nat 2%nat.

(** Attribute access through a reference.  References held by the codec
    always point into the heap; the default is never observed on them. *)
Definition node_at (h : AdaptiveHuffman) (i : nat) : Node.t :=
  default (Node.new None 0 0 false false) (heap h !! i).

Definition set_heap (hp : list Node.t) (h : AdaptiveHuffman) : AdaptiveHuffman :=
  mkCodec hp (leaves h) (next_key h) (nyt h) (ncw h) (root h).

Definition modify_node (i : nat) (f : Node.t -> Node.t) (h : AdaptiveHuffman)
  : AdaptiveHuffman :=
  set_heap (alter f i (heap h)) h.

(** ** State-and-exception monad over the instance *)

Definition M (A : Type) : Type := AdaptiveHuffman -> outcome A * AdaptiveHuffman.

Definition ret {A} (a : A) : M A := fun h => (Done a, h).
Definition raise {A} (e : exn) : M A := fun h => (Raised e, h).
Definition bind {A B} (m : M A) (k : A -> M B) : M B :=
  fun h =>
    match m h with
    | (Done a, h') => k a h'
    | (Raised e, h') => (Raised e, h')
    | (OutOfFuel, h') => (OutOfFuel, h')
    end.
Definition lift {A} (f : AdaptiveHuffman -> outcome A) : M A := fun h => (f h, h).
Definition update (f : AdaptiveHuffman -> AdaptiveHuffman) : M unit :=
  fun h => (Done tt, f h).

Declare Scope codec_scope.
Delimit Scope codec_scope with codec.
Notation "x <- m ;; k" := (bind m (fun x => k))
  (at level 20, m at level 99, k at level 200, only parsing) : codec_scope.
Notation "' p <- m ;; k" := (bind m (fun x => let 'p := x in k))
  (at level 20, p pattern, m at level 99, k at level 200, only parsing)
  : codec_scope.
Notation "m ;; k" := (bind m (fun _ => k))
  (at level 100, k at level 200, right associativity, only parsing)
  : codec_scope.
Local Open Scope codec_scope.

(** ** Tree operations *)

(** [_is_ancestor(anc, descendant)] *)
Fixpoint is_ancestor_loop (fuel : nat) (h : AdaptiveHuffman) (anc : nat)
    (current : option nat) {struct fuel} : outcome bool :=
  match current with
  | None => Done false
  | Some c =>
      match fuel with
      | O => OutOfFuel
      | S f =>
          if Nat.eqb c anc then Done true
          else is_ancestor_loop f h anc (Node.parent (node_at h c))
      end
  end.

Definition is_ancestor (fuel : nat) (h : AdaptiveHuffman) (anc descendant : nat)
  : outcome bool :=
  is_ancestor_loop fuel h anc (Node.parent (node_at h descendant)).

(** [_find_highest_node_in_block(node)].  The Python stack is a list whose
    top is its last element; here the top is the head. *)
Fixpoint find_highest_loop (fuel : nat) (h : AdaptiveHuffman) (target_weight : Z)
    (node : nat) (stack : list nat) (highest : nat) {struct fuel} : outcome nat :=
  match stack with
  | [] => Done highest
  | cur :: stack =>
      match fuel with
      | O => OutOfFuel
      | S f =>
          let c := node_at h cur in
          obind
            (if (Node.weight c =? target_weight)
                && (Node.key (node_at h highest) <? Node.key c)
             then obind (is_ancestor f h cur node) (fun b => Done (negb b))
             else Done false)
            (fun better =>
               let highest := if better then cur else highest in
               let stack := match Node.left c with
                            | Some l => l :: stack
                            | None => stack
                            end in
               let stack := match Node.right c with
                            | Some r => r :: stack
                            | None => stack
                            end in
               find_highest_loop f h target_weight node stack highest)
      end
  end.

Definition find_highest_node_in_block (fuel : nat) (h : AdaptiveHuffman)
    (node : nat) : outcome nat :=
  find_highest_loop fuel h (Node.weight (node_at h node)) node [root h] node.

(** The local helper [_replace_child] of [_swap_nodes]. *)
Definition replace_child (p old new : nat) : M unit :=
  fun h =>
    if bool_decide (Node.left (node_at h p) = Some old) then
      (Done tt, modify_node p (Node.set_left (Some new)) h)
    else if bool_decide (Node.right (node_at h p) = Some old) then
      (Done tt, modify_node p (Node.set_right (Some new)) h)
    else (Raised ChildNotFound, h).

(** [_swap_nodes(a, b)] *)
Definition swap_nodes (a b : nat) : M unit :=
  fun h =>
    if Nat.eqb a b then (Done tt, h)
    else
      match Node.parent (node_at h a), Node.parent (node_at h b) with
      | Some a_parent, Some b_parent =>
          (replace_child a_parent a b ;;
           replace_child b_parent b a ;;
           update (modify_node a (Node.set_parent (Some b_parent))) ;;
           update (modify_node b (Node.set_parent (Some a_parent)))) h
      | _, _ => (Done tt, h)
      end.

(** One iteration of the [while node is not None] loop of
    [_increment_weight]; the result is the next value of [node]. *)
Definition increment_step (fuel : nat) (v : nat) : M (option nat) :=
  highest <- lift (fun h => find_highest_node_in_block fuel h v) ;;
  do_swap <- lift (fun h =>
    Done (negb (Nat.eqb highest v)
          && negb (bool_decide (Node.parent (node_at h v) = Some highest))
          && negb (bool_decide (Node.parent (node_at h highest) = Some v)))) ;;
  (if do_swap : bool then swap_nodes v highest else ret tt) ;;
  update (fun h =>
    modify_node v (Node.set_weight (Node.weight (node_at h v) + 1)) h) ;;
  lift (fun h => Done (Node.parent (node_at h v))).

(** [_increment_weight(node)] *)
Fixpoint increment_weight (fuel : nat) (node : option nat) {struct fuel} : M unit :=
  match node with
  | None => ret tt
  | Some v =>
      match fuel with
      | O => fun h => (OutOfFuel, h)
      | S f =>
          next <- increment_step f v ;;
          increment_weight f next
      end
  end.

(** Object creation: the new node gets the next free heap index. *)
Definition alloc (n : Node.t) : M nat :=
  fun h => (Done (length (heap h)), set_heap (heap h ++ [n]) h).

Definition fresh_key : M Z :=
  fun h => (Done (next_key h),
            mkCodec (heap h) (leaves h) (next_key h + 1) (nyt h) (ncw h) (root h)).

(** [_insert_new_word(word)] *)
Definition insert_new_word (fuel : nat) (word : str) : M unit :=
  k1 <- fresh_key ;;
  new_word_leaf <- alloc (Node.new (Some word) 0 k1 false false) ;;
  k2 <- fresh_key ;;
  new_nyt <- alloc (Node.new None 0 k2 true false) ;;
  internal <- lift (fun h => Done (nyt h)) ;;
  update (modify_node internal (Node.set_is_nyt false)) ;;
  update (modify_node internal (Node.set_left (Some new_nyt))) ;;
  update (modify_node internal (Node.set_right (Some new_word_leaf))) ;;
  update (modify_node new_nyt (Node.set_parent (Some internal))) ;;
  update (modify_node new_word_leaf (Node.set_parent (Some internal))) ;;
  update (fun h => mkCodec (heap h) (<[word := new_word_leaf]> (leaves h))
                     (next_key h) (nyt h) (ncw h) (root h)) ;;
  update (fun h => mkCodec (heap h) (leaves h) (next_key h) new_nyt (ncw h) (root h)) ;;
  increment_weight fuel (Some new_word_leaf).

(** [_path_to_node(node)] *)
Fixpoint path_loop (fuel : nat) (h : AdaptiveHuffman) (current : nat)
    (path : list bool) {struct fuel} : outcome (list bool) :=
  if Nat.eqb current (root h) then Done (rev path)
  else
    match fuel with
    | O => OutOfFuel
    | S f =>
        match Node.parent (node_at h current) with
        | None => Raised NoParent
        | Some p =>
            path_loop f h p
              (path ++ [bool_decide (Node.right (node_at h p) = Some current)])
        end
    end.

Definition path_to_node (fuel : nat) (h : AdaptiveHuffman) (node : nat)
  : outcome (list bool) :=
  path_loop fuel h node [].

(** ** Encoding *)

(** [_encode_word(word, writer)]; the writer is returned. *)
Definition encode_word (fuel : nat) (word : str) (writer : BitWriter) : M BitWriter :=
  new_word <- lift (fun h => Done (bool_decide (leaves h !! word = None))) ;;
  target_node <- lift (fun h => Done (default (ncw h) (leaves h !! word))) ;;
  path <- lift (fun h => path_to_node fuel h target_node) ;;
  let writer := add_bits writer path in
  if new_word : bool then
    let writer := flush_to_byte writer in
    raw <- lift (fun _ => utf8_encode word) ;;
    if 2 ^ 16 <=? Z.of_nat (length raw) then raise WordTooLong
    else
      let writer := add_uint16 writer (Z.of_nat (length raw)) in
      let writer := add_bytes writer raw in
      insert_new_word fuel word ;;
      ret writer
  else
    leaf <- lift (fun h => Done (default (ncw h) (leaves h !! word))) ;;
    increment_weight fuel (Some leaf) ;;
    ret writer.

(** The [for idx, word in enumerate(words)] loop of [_encode_internal]. *)
Fixpoint encode_words (fuel : nat) (first : bool) (words : list str)
    (writer : BitWriter) : M BitWriter :=
  match words with
  | [] => ret writer
  | word :: rest =>
      writer <- (if first then ret writer else encode_word fuel [SPACE] writer) ;;
      writer <- encode_word fuel word writer ;;
      encode_words fuel false rest writer
  end.

(** [_encode_internal(text)], which is [encode(text)] under the lock. *)
Definition encode (fuel : nat) (text : str) : M bytes :=
  let words := match text with [] => [] | _ => split_space text end in
  writer <- encode_words fuel true words new_writer ;;
  ret (get_data writer).

(** ** Decoding *)

(** The root-to-leaf walk at the head of [_decode_next_word]. *)
Fixpoint walk (fuel : nat) (h : AdaptiveHuffman) (node : nat) (reader : BitReader)
    {struct fuel} : outcome (nat * BitReader) :=
  if Node.is_leaf (node_at h node) then Done (node, reader)
  else
    match fuel with
    | O => OutOfFuel
    | S f =>
        obind (read_bit reader) (fun '(bit, reader) =>
          match (if bit : bool then Node.right (node_at h node)
                 else Node.left (node_at h node)) with
          | None => Raised AttributeError
          | Some c => walk f h c reader
          end)
    end.

(** [_decode_next_word(reader)]; the advanced reader is returned. *)
Definition decode_next_word (fuel : nat) (reader : BitReader) : M (str * BitReader) :=
  '(node, reader) <- lift (fun h => walk fuel h (root h) reader) ;;
  is_ncw <- lift (fun h => Done (Node.is_ncw (node_at h node))) ;;
  is_nyt <- lift (fun h => Done (Node.is_nyt (node_at h node))) ;;
  if is_ncw : bool then
    increment_weight fuel (Some node) ;;
    let reader := align_to_byte reader in
    '(len, reader) <- lift (fun _ => read_uint16 reader) ;;
    '(raw, reader) <- lift (fun _ => read_bytes reader len) ;;
    word <- lift (fun _ => utf8_decode raw) ;;
    insert_new_word fuel word ;;
    ret (word, reader)
  else if is_nyt : bool then
    ret ([], reader)
  else
    increment_weight fuel (Some node) ;;
    sym <- lift (fun h => Done (Node.symbol (node_at h node))) ;;
    ret (default [] sym, reader).

(** The [while reader.has_bits()] loop of [_decode_internal]. *)
Fixpoint decode_loop (fuel : nat) (reader : BitReader) (words : list str)
    {struct fuel} : M (list str) :=
  if has_bits reader then
    match fuel with
    | O => fun h => (OutOfFuel, h)
    | S f =>
        '(word, reader) <- decode_next_word f reader ;;
        if bool_decide (word = [SPACE]) then decode_loop f reader words
        else decode_loop f reader (words ++ [word])
    end
  else ret words.

(** [_decode_internal(data)], which is [decode(data)] under the lock. *)
Definition decode (fuel : nat) (data : bytes) : M str :=
  words <- decode_loop fuel (new_reader data) [] ;;
  ret (join_space words).

(** * Fuel

    More fuel never changes a run that finished: an outcome obtained with
    some fuel is either [OutOfFuel] or the outcome for every larger fuel. *)

Definition refines {A} (o1 o2 : outcome A) : Prop :=
  o1 = OutOfFuel \/ o1 = o2.

Definition mrefines {A} (m1 m2 : M A) : Prop :=
  forall h, fst (m1 h) = OutOfFuel \/ m1 h = m2 h.

(** * A new word on the encoder side

    For a word that is not in the index, [_encode_word] emits the path to the
    NCW leaf, the length and the raw bytes, and changes the tree through
    [_insert_new_word] alone. *)

Definition new_word_payload (writer : BitWriter) (path : list bool) (raw : bytes)
  : BitWriter :=
  add_bytes (add_uint16 (flush_to_byte (add_bits writer path))
               (Z.of_nat (length raw))) raw.

(** The state in which [_insert_new_word] starts its increment walk: the two
    new nodes are allocated, linked below the former NYT node and
    registered. *)
Definition insert_prepare (word : str) (h : AdaptiveHuffman) : AdaptiveHuffman :=
  let new_word_leaf := length (heap h) in
  let new_nyt := S (length (heap h)) in
  let internal := nyt h in
  let h1 :=
    mkCodec (heap h ++ [Node.new (Some word) 0 (next_key h) false false]
                    ++ [Node.new None 0 (next_key h + 1) true false])
      (leaves h) (next_key h + 1 + 1) (nyt h) (ncw h) (root h) in
  let h2 :=
    modify_node new_word_leaf (Node.set_parent (Some internal))
      (modify_node new_nyt (Node.set_parent (Some internal))
         (modify_node internal (Node.set_right (Some new_word_leaf))
            (modify_node internal (Node.set_left (Some new_nyt))
               (modify_node internal (Node.set_is_nyt false) h1)))) in
  mkCodec (heap h2) (<[word := new_word_leaf]> (leaves h2)) (next_key h2)
    new_nyt (ncw h2) (root h2).

(** * The second new word on a fresh encoder

    [_find_highest_node_in_block] filters out the ancestors of [node] but not
    its descendants.  During the second insertion the walk reaches the first
    internal node (the former NYT, key 1) while the new leaf two levels below
    it has the same weight and the greatest key; the two are swapped, the
    internal node becomes a child of its own child, and [_is_ancestor] then
    follows parent pointers around that cycle for ever. *)

(** The encoder after its first new word. *)
Definition after_first_word (sym : option str) (lv : gmap (list Z) nat)
  : AdaptiveHuffman :=
  mkCodec [ Node.mk None 1 1 (Some 3%nat) (Some 4%nat) (Some 2%nat) false false;
            Node.mk None 0 2 None None (Some 2%nat) false true;
            Node.mk None 1 3 (Some 0%nat) (Some 1%nat) None false false;
            Node.mk sym 1 3 None None (Some 0%nat) false false;
            Node.mk None 0 4 None None (Some 0%nat) true false ]
          lv 5 4%nat 1%nat 2%nat.

(** The second new leaf (index 5) and the new NYT (index 6) hang below the
    former NYT (index 4); the increment walk is about to start. *)
Definition second_insert (sym sym' : option str) (lv : gmap (list Z) nat)
  : AdaptiveHuffman :=
  mkCodec [ Node.mk None 1 1 (Some 3%nat) (Some 4%nat) (Some 2%nat) false false;
            Node.mk None 0 2 None None (Some 2%nat) false true;
            Node.mk None 1 3 (Some 0%nat) (Some 1%nat) None false false;
            Node.mk sym 1 3 None None (Some 0%nat) false false;
            Node.mk None 0 4 (Some 6%nat) (Some 5%nat) (Some 0%nat) false false;
            Node.mk sym' 0 5 None None (Some 4%nat) false false;
            Node.mk None 0 6 None None (Some 4%nat) true false ]
          lv 7 6%nat 1%nat 2%nat.

(** After node 0 was swapped with its grandchild 5: nodes 0 and 4 are each
    other's parent, and neither is reachable from the root (index 2). *)
Definition cyclic (sym sym' : option str) (lv : gmap (list Z) nat)
  : AdaptiveHuffman :=
  mkCodec [ Node.mk None 2 1 (Some 3%nat) (Some 4%nat) (Some 4%nat) false false;
            Node.mk None 0 2 None None (Some 2%nat) false true;
            Node.mk None 1 3 (Some 5%nat) (Some 1%nat) None false false;
            Node.mk sym 1 3 None None (Some 0%nat) false false;
            Node.mk None 1 4 (Some 0%nat) (Some 6%nat) (Some 0%nat) false false;
            Node.mk sym' 1 5 None None (Some 2%nat) false false;
            Node.mk None 0 6 None None (Some 4%nat) true false ]
          lv 7 6%nat 1%nat 2%nat.

(** The first new leaf (index 3) and the new NYT (index 4) hang below the
    former NYT (index 0); the increment walk is about to start. *)
Definition first_insert (sym : option str) (lv : gmap (list Z) nat)
  : AdaptiveHuffman :=
  mkCodec [ Node.mk None 0 1 (Some 4%nat) (Some 3%nat) (Some 2%nat) false false;
            Node.mk None 0 2 None None (Some 2%nat) false true;
            Node.mk None 0 3 (Some 0%nat) (Some 1%nat) None false false;
            Node.mk sym 0 3 None None (Some 0%nat) false false;
            Node.mk None 0 4 None None (Some 0%nat) true false ]
          lv 5 4%nat 1%nat 2%nat.

(** ** Tree membership *)

(** [reach h s u]: node [u] is [s] or lies below it along child pointers. *)
Inductive reach (h : AdaptiveHuffman) : nat -> nat -> Prop :=
| reach_refl s : reach h s s
| reach_left s c u :
    Node.left (node_at h s) = Some c -> reach h c u -> reach h s u
| reach_right s c u :
    Node.right (node_at h s) = Some c -> reach h c u -> reach h s u.

Definition in_tree (h : AdaptiveHuffman) (u : nat) : Prop := reach h (root h) u.

(** [ancestor_of h a d]: following parent pointers from [d] leads to [a]. *)
Inductive ancestor_of (h : AdaptiveHuffman) (a : nat) : nat -> Prop :=
| ancestor_parent d :
    Node.parent (node_at h d) = Some a -> ancestor_of h a d
| ancestor_step d p :
    Node.parent (node_at h d) = Some p -> ancestor_of h a p -> ancestor_of h a d.

(** ** Round trip through two fresh instances *)

Definition round_trip (fuel : nat) (s : str) : outcome str :=
  match encode fuel s init with
  | (Done data, _) => fst (decode fuel data init)
  | (Raised e, _) => Raised e
  | (OutOfFuel, _) => OutOfFuel
  end.

(** * The swap candidate *)

(** The candidate as the specification words it: a node of greatest key
    among all nodes of the tree that have the weight of [v]. *)
Definition greatest_key_in_block (h : AdaptiveHuffman) (v hd : nat) : Prop :=
  in_tree h hd /\
  Node.weight (node_at h hd) = Node.weight (node_at h v) /\
  forall u, in_tree h u ->
            Node.weight (node_at h u) = Node.weight (node_at h v) ->
            Node.key (node_at h u) <= Node.key (node_at h hd).

(** What the code selects from: the nodes of the tree that have the weight of
    [v] and are not ancestors of [v]. *)
Definition candidate (h : AdaptiveHuffman) (v u : nat) : Prop :=
  in_tree h u /\
  Node.weight (node_at h u) = Node.weight (node_at h v) /\
  ~ ancestor_of h u v.

Definition greatest_key_candidate (h : AdaptiveHuffman) (v hd : nat) : Prop :=
  (hd = v \/ candidate h v hd) /\
  Node.key (node_at h v) <= Node.key (node_at h hd) /\
  forall u, candidate h v u -> Node.key (node_at h u) <= Node.key (node_at h hd).

(** * The NCW leaf on the two sides *)

(** The decoder's steps at the NCW leaf in the order the specification
    lists them: increment the leaf itself, align, read the length, read the
    raw bytes, decode them, insert the word. *)
Definition decode_new_word_steps (fuel : nat) (ncw_leaf : nat) (reader : BitReader)
  : M (str * BitReader) :=
  increment_weight fuel (Some ncw_leaf) ;;
  '(len, reader) <- lift (fun _ => read_uint16 (align_to_byte reader)) ;;
  '(raw, reader) <- lift (fun _ => read_bytes reader len) ;;
  word <- lift (fun _ => utf8_decode raw) ;;
  insert_new_word fuel word ;;
  ret (word, reader).

(** * Local well-formedness of the heap *)

Abbreviation size h := (length (heap h)).

Record wf (h : AdaptiveHuffman) : Prop := mk_wf {
  wf_root : (root h < size h)%nat;
  wf_ncw : (ncw h < size h)%nat;
  wf_nyt : (nyt h < size h)%nat;
  wf_left : forall i c, Node.left (node_at h i) = Some c ->
              (c < size h)%nat /\ Node.parent (node_at h c) = Some i;
  wf_right : forall i c, Node.right (node_at h i) = Some c ->
              (c < size h)%nat /\ Node.parent (node_at h c) = Some i;
  wf_parent : forall i p, Node.parent (node_at h i) = Some p ->
              (p < size h)%nat /\
              (Node.left (node_at h p) = Some i \/ Node.right (node_at h p) = Some i);
  wf_both : forall i, Node.left (node_at h i) = None <-> Node.right (node_at h i) = None;
  wf_distinct : forall i c, Node.left (node_at h i) = Some c ->
              Node.right (node_at h i) <> Some c;
  wf_noself : forall i, Node.parent (node_at h i) <> Some i;
  wf_nyt_leaf : Node.left (node_at h (nyt h)) = None;
  wf_nyt_weight : Node.weight (node_at h (nyt h)) = 0;
  wf_nyt_flag : Node.is_nyt (node_at h (nyt h)) = true;
  wf_nyt_not_ncw : Node.is_ncw (node_at h (nyt h)) = false;
  wf_leaves : forall w i, leaves h !! w = Some i ->
              (i < size h)%nat /\ Node.is_nyt (node_at h i) = false /\
              Node.left (node_at h i) = None;
}.

Definition additive (h : AdaptiveHuffman) : Prop :=
  forall i l r,
    Node.left (node_at h i) = Some l -> Node.right (node_at h i) = Some r ->
    Node.weight (node_at h i)
    = Node.weight (node_at h l) + Node.weight (node_at h r).

(** Additivity while the increment walk stands at [v]: the weight of [v]
    is still to be incremented. *)
Definition additive_pending (h : AdaptiveHuffman) (v : nat) : Prop :=
  forall i l r,
    Node.left (node_at h i) = Some l -> Node.right (node_at h i) = Some r ->
    Node.weight (node_at h i) + (if decide (i = v) then 1 else 0)
    = Node.weight (node_at h l) + Node.weight (node_at h r).

Definition transp (a b j : nat) : nat :=
  if decide (j = a) then b else if decide (j = b) then a else j.

(** [h'] is [h] with the child slots renamed by [t] *)
Record renamed (t : nat -> nat) (h h' : AdaptiveHuffman) : Prop := mk_renamed {
  rn_size : size h' = size h;
  rn_leaves : leaves h' = leaves h;
  rn_nyt : nyt h' = nyt h;
  rn_ncw : ncw h' = ncw h;
  rn_root : root h' = root h;
  rn_next_key : next_key h' = next_key h;
  rn_left : forall j, Node.left (node_at h' j) = t <$> Node.left (node_at h j);
  rn_right : forall j, Node.right (node_at h' j) = t <$> Node.right (node_at h j);
  rn_parent : forall j, Node.parent (node_at h' j) = Node.parent (node_at h (t j));
  rn_weight : forall j, Node.weight (node_at h' j) = Node.weight (node_at h j);
  rn_is_nyt : forall j, Node.is_nyt (node_at h' j) = Node.is_nyt (node_at h j);
  rn_is_ncw : forall j, Node.is_ncw (node_at h' j) = Node.is_ncw (node_at h j);
}.

Definition pending_at (h : AdaptiveHuffman) (node : option nat) : Prop :=
  wf h /\
  match node with
  | Some v => (v < size h)%nat /\ v <> nyt h /\ additive_pending h v
  | None => additive h
  end.

(** * The invariant of the instance *)

Definition Inv (h : AdaptiveHuffman) : Prop := wf h /\ additive h.

(** ** Decoding preserves the invariant and fails in four ways only *)

Definition decode_error (e : exn) : Prop :=
  e = NotEnoughBits \/ e = TruncatedUint16 \/ e = TruncatedBytes
  \/ e = UnicodeDecodeError.

(** ** Reachable states *)

Inductive reachable : AdaptiveHuffman -> Prop :=
| reachable_init : reachable init
| reachable_encode h fuel text :
    reachable h -> fst (encode fuel text h) <> OutOfFuel ->
    reachable (snd (encode fuel text h))
| reachable_decode h fuel data :
    reachable h -> fst (decode fuel data h) <> OutOfFuel ->
    reachable (snd (decode fuel data h)).

(** ** The ways in which one token can fail *)

Inductive token_failure (fuel : nat) (h : AdaptiveHuffman) (reader : BitReader)
  : exn -> Prop :=
| fail_mid_path :
    (* the bits run out between the root and a leaf *)
    walk fuel h (root h) reader = Raised NotEnoughBits ->
    token_failure fuel h reader NotEnoughBits
| fail_header node r1 h1 :
    (* at the NCW leaf, fewer than two bytes are left for the length *)
    walk fuel h (root h) reader = Done (node, r1) ->
    Node.is_ncw (node_at h node) = true ->
    increment_weight fuel (Some node) h = (Done tt, h1) ->
    read_uint16 (align_to_byte r1) = Raised TruncatedUint16 ->
    token_failure fuel h reader TruncatedUint16
| fail_payload node r1 h1 len r2 :
    (* fewer than [len] bytes are left for the raw word *)
    walk fuel h (root h) reader = Done (node, r1) ->
    Node.is_ncw (node_at h node) = true ->
    increment_weight fuel (Some node) h = (Done tt, h1) ->
    read_uint16 (align_to_byte r1) = Done (len, r2) ->
    read_bytes r2 len = Raised TruncatedBytes ->
    token_failure fuel h reader TruncatedBytes
| fail_text node r1 h1 len r2 raw r3 :
    (* the raw word is not valid UTF-8 *)
    walk fuel h (root h) reader = Done (node, r1) ->
    Node.is_ncw (node_at h node) = true ->
    increment_weight fuel (Some node) h = (Done tt, h1) ->
    read_uint16 (align_to_byte r1) = Done (len, r2) ->
    read_bytes r2 len = Done (raw, r3) ->
    utf8_decode raw = Raised UnicodeDecodeError ->
    token_failure fuel h reader UnicodeDecodeError.

(** * Auxiliary notions

    Bit strings, the labels of the nodes and paths in the tree, as the
    properties of the reader, the writer and the tree below need them. *)

(** ** Bit streams *)

(** The bits of a byte, most significant first, and of a byte string. *)
Definition bits_of_byte (b : Z) : list bool :=
  map (fun i => Z.testbit b (Z.of_nat i)) [7; 6; 5; 4; 3; 2; 1; 0]%nat.

Fixpoint bits_of (d : bytes) : list bool :=
  match d with
  | [] => []
  | b :: d' => bits_of_byte b ++ bits_of d'
  end.

(** [n] successive calls of [read_bit]. *)
Fixpoint read_bits (n : nat) (r : BitReader) : outcome (list bool * BitReader) :=
  match n with
  | O => Done ([], r)
  | S n' =>
      obind (read_bit r) (fun '(b, r') =>
      obind (read_bits n' r') (fun '(bs, r'') => Done (b :: bs, r'')))
  end.

(** The position of the cursor in bits, and the bits ahead of it. *)
Definition bit_index (r : BitReader) : nat := (8 * r_byte_pos r + r_bit_pos r)%nat.

Definition upcoming (r : BitReader) : list bool :=
  drop (bit_index r) (bits_of (r_data r)).

(** ** The state of a writer *)

(** The bits a writer has taken so far: those of its buffer, then the
    [_filled] low bits of [_current], the byte being filled. *)
Definition pending_bits (w : BitWriter) : list bool :=
  map (fun i => Z.testbit (w_current w) (Z.of_nat i))
      (rev (seq 0 (Z.to_nat (w_filled w)))).

Definition written_bits (w : BitWriter) : list bool :=
  bits_of (w_buffer w) ++ pending_bits w.

(** Between two calls a writer has fewer than eight bits in the byte being
    filled, [_current] fits in that many bits, and the buffer holds bytes. *)
Definition writer_ok (w : BitWriter) : Prop :=
  0 <= w_filled w < 8 /\ 0 <= w_current w < 2 ^ w_filled w /\
  Forall (fun b => 0 <= b < 256) (w_buffer w).

(** The number of zero bits with which [flush_to_byte] pads the byte being
    filled. *)
Definition padding (w : BitWriter) : nat :=
  if w_filled w =? 0 then 0%nat else Z.to_nat (8 - w_filled w).

(** ** What the weight updates leave alone *)

(** [n'] is [n] up to its position in the tree and a weight that did not
    decrease: same key, symbol and flags, a leaf iff [n] is one, a parent
    iff [n] has one. *)
Definition same_node (n n' : Node.t) : Prop :=
  Node.key n' = Node.key n /\
  Node.symbol n' = Node.symbol n /\
  Node.is_nyt n' = Node.is_nyt n /\
  Node.is_ncw n' = Node.is_ncw n /\
  Node.is_leaf n' = Node.is_leaf n /\
  (Node.parent n' = None <-> Node.parent n = None) /\
  Node.weight n <= Node.weight n'.

(** [h'] has the nodes of [h], each up to position and weight, and the
    same word index, key counter and special references. *)
Record same_labels (h h' : AdaptiveHuffman) : Prop := mk_same_labels {
  sl_size : size h' = size h;
  sl_leaves : leaves h' = leaves h;
  sl_next_key : next_key h' = next_key h;
  sl_nyt : nyt h' = nyt h;
  sl_ncw : ncw h' = ncw h;
  sl_root : root h' = root h;
  sl_node : forall j, same_node (node_at h j) (node_at h' j);
}.

(** [m] relates the state it starts in to the state it leaves behind,
    whatever its outcome. *)
Definition keeps {A} (R : AdaptiveHuffman -> AdaptiveHuffman -> Prop) (m : M A)
  : Prop :=
  forall h, R h (snd (m h)).

(** ** Labels of the nodes *)

(** The root and the NCW leaf are the nodes created by [__init__] (heap
    indices 2 and 1); the NYT reference is the first node or one created
    later.  From index 3 on the key of a node is its index, and the key
    counter is the number of nodes.  The flags mark the NCW and the NYT leaf
    and no other node.  An entry of the word index leads to a node with that
    symbol, and a node with a symbol is a leaf created by an insertion.  The
    root is internal and the only node without a parent.  No weight is
    negative. *)
Record labelled (h : AdaptiveHuffman) : Prop := mk_labelled {
  lb_root : root h = 2%nat;
  lb_ncw : ncw h = 1%nat;
  lb_nyt : nyt h = 0%nat \/ (3 <= nyt h)%nat;
  lb_nyt_lt : (nyt h < size h)%nat;
  lb_size : (3 <= size h)%nat;
  lb_next_key : next_key h = Z.of_nat (size h);
  lb_key : forall j, (j < size h)%nat ->
      Node.key (node_at h j) = if decide (j < 3)%nat then Z.of_nat j + 1 else Z.of_nat j;
  lb_is_ncw : forall j, Node.is_ncw (node_at h j) = bool_decide (j = 1%nat);
  lb_is_nyt : forall j, Node.is_nyt (node_at h j) = bool_decide (j = nyt h);
  lb_leaves : forall w i, leaves h !! w = Some i -> Node.symbol (node_at h i) = Some w;
  lb_symbol : forall j w, Node.symbol (node_at h j) = Some w ->
      (3 <= j < size h)%nat /\ j <> nyt h /\ Node.is_leaf (node_at h j) = true;
  lb_nyt_leaf : Node.is_leaf (node_at h (nyt h)) = true;
  lb_ncw_leaf : Node.is_leaf (node_at h 1) = true;
  lb_root_internal : Node.is_leaf (node_at h 2) = false;
  lb_root_parent : Node.parent (node_at h 2) = None;
  lb_parent : forall j, (j < size h)%nat -> j <> 2%nat ->
      Node.parent (node_at h j) <> None;
  lb_weight : forall j, 0 <= Node.weight (node_at h j);
}.

Definition keeps_labelled (h h' : AdaptiveHuffman) : Prop := labelled h -> labelled h'.

(** ** Paths *)

(** Follow child pointers from [node] along [bits] ([true] is right). *)
Fixpoint follow (h : AdaptiveHuffman) (node : nat) (bits : list bool) : option nat :=
  match bits with
  | [] => Some node
  | b :: bits =>
      match (if b : bool then Node.right (node_at h node)
             else Node.left (node_at h node)) with
      | None => None
      | Some c => follow h c bits
      end
  end.

(** The values that a [bytearray] accepts. *)
Abbreviation byte_range := (fun b : Z => 0 <= b < 256).

(** ** An instance that knows one word *)

(** The leaf of the word (index 3) has weight [k] and the NCW leaf has
    weight [c]; on the encoder side [c] stays 0. *)
Definition one_word (k c : Z) (sym : option str) (lv : gmap (list Z) nat)
  : AdaptiveHuffman :=
  mkCodec [ Node.mk None k 1 (Some 3%nat) (Some 4%nat) (Some 2%nat) false false;
            Node.mk None c 2 None None (Some 2%nat) false true;
            Node.mk None (k + c) 3 (Some 0%nat) (Some 1%nat) None false false;
            Node.mk sym k 3 None None (Some 0%nat) false false;
            Node.mk None 0 4 None None (Some 0%nat) true false ]
          lv 5 4%nat 1%nat 2%nat.

(** ** A decoder at its third new word *)

(** Three new-word records as a fresh decoder reads them: "a" and " " after
    the escape bit 1, "b" after the escape bits 00. *)
Definition three_new_words : bytes := [128; 0; 1; 97; 128; 0; 1; 32; 0; 0; 1; 98].

(** The decoder in the middle of its third insertion: nodes 4 and 6 are each
    other's parent. *)
Definition third_insert_cycle (lv : gmap (list Z) nat) : AdaptiveHuffman :=
  mkCodec [ Node.mk None 4 1 (Some 1%nat) (Some 7%nat) (Some 2%nat) false false;
            Node.mk None 3 2 None None (Some 0%nat) false true;
            Node.mk None 5 3 (Some 0%nat) (Some 3%nat) None false false;
            Node.mk (Some [97]) 1 3 None None (Some 2%nat) false false;
            Node.mk None 2 4 (Some 5%nat) (Some 6%nat) (Some 6%nat) false false;
            Node.mk (Some [32]) 1 5 None None (Some 4%nat) false false;
            Node.mk None 1 6 (Some 4%nat) (Some 8%nat) (Some 4%nat) false false;
            Node.mk (Some [98]) 1 7 None None (Some 0%nat) false false;
            Node.mk None 0 8 None None (Some 6%nat) true false ]
          lv 9 8%nat 1%nat 2%nat.

(** * Properties *)

(** ** More fuel never changes a finished run *)

Lemma refines_refl {A} (o : outcome A) : refines o o.
Proof. by right. Qed.

Lemma mrefines_refl {A} (m : M A) : mrefines m m.
Proof. intros h. by right. Qed.

Lemma obind_refines {A B} (o1 o2 : outcome A) (k1 k2 : A -> outcome B) :
  refines o1 o2 -> (forall a, refines (k1 a) (k2 a)) ->
  refines (obind o1 k1) (obind o2 k2).
Proof.
  intros [-> | ->] Hk; [by left|].
  destruct o2; simpl; [apply Hk | by right | by left].
Qed.

Lemma bind_mrefines {A B} (m1 m2 : M A) (k1 k2 : A -> M B) :
  mrefines m1 m2 -> (forall a, mrefines (k1 a) (k2 a)) ->
  mrefines (bind m1 k1) (bind m2 k2).
Proof.
  intros Hm Hk h. unfold bind.
  destruct (Hm h) as [Ho | ->].
  - left. destruct (m1 h) as [[| |] ?]; simpl in *; congruence.
  - destruct (m2 h) as [[a| |] h']; [apply Hk | by right | by left].
Qed.

Lemma lift_mrefines {A} (f g : AdaptiveHuffman -> outcome A) :
  (forall h, refines (f h) (g h)) -> mrefines (lift f) (lift g).
Proof. intros H h. unfold lift. destruct (H h) as [-> | ->]; [by left | by right]. Qed.

Lemma is_ancestor_loop_mono n m h anc cur :
  (n <= m)%nat ->
  refines (is_ancestor_loop n h anc cur) (is_ancestor_loop m h anc cur).
Proof.
  revert m cur. induction n as [|n IH]; intros m cur Hle.
  - destruct cur; simpl; [by left | destruct m; by right].
  - destruct m as [|m]; [lia|]. destruct cur as [c|]; simpl; [| by right].
    destruct (Nat.eqb c anc); [by right | apply IH; lia].
Qed.

Lemma is_ancestor_mono n m h anc d :
  (n <= m)%nat -> refines (is_ancestor n h anc d) (is_ancestor m h anc d).
Proof. apply is_ancestor_loop_mono. Qed.

Lemma find_highest_loop_mono n m h tw node stack highest :
  (n <= m)%nat ->
  refines (find_highest_loop n h tw node stack highest)
          (find_highest_loop m h tw node stack highest).
Proof.
  revert m stack highest. induction n as [|n IH]; intros m stack highest Hle.
  - destruct stack; simpl; [destruct m; by right | by left].
  - destruct m as [|m]; [lia|]. destruct stack as [|cur stack]; simpl; [by right|].
    apply obind_refines.
    + destruct (_ && _); [| by right].
      apply obind_refines; [apply is_ancestor_mono; lia | intros; by right].
    + intros a. apply IH. lia.
Qed.

Lemma find_highest_mono n m h node :
  (n <= m)%nat ->
  refines (find_highest_node_in_block n h node) (find_highest_node_in_block m h node).
Proof. apply find_highest_loop_mono. Qed.

Lemma increment_step_mono n m v :
  (n <= m)%nat -> mrefines (increment_step n v) (increment_step m v).
Proof.
  intros Hle. unfold increment_step.
  apply bind_mrefines; [| intros; apply mrefines_refl].
  apply lift_mrefines. intros h. by apply find_highest_mono.
Qed.

Lemma increment_weight_mono n m node :
  (n <= m)%nat -> mrefines (increment_weight n node) (increment_weight m node).
Proof.
  revert m node. induction n as [|n IH]; intros m node Hle.
  - destruct node; simpl; [intros h; by left | destruct m; apply mrefines_refl].
  - destruct m as [|m]; [lia|]. destruct node as [v|]; simpl; [| apply mrefines_refl].
    apply bind_mrefines; [apply increment_step_mono; lia | intros; apply IH; lia].
Qed.

Lemma insert_new_word_mono n m word :
  (n <= m)%nat -> mrefines (insert_new_word n word) (insert_new_word m word).
Proof.
  intros Hle. unfold insert_new_word.
  repeat (apply bind_mrefines; [apply mrefines_refl | intros ?]).
  by apply increment_weight_mono.
Qed.

Lemma path_loop_mono n m h cur path :
  (n <= m)%nat -> refines (path_loop n h cur path) (path_loop m h cur path).
Proof.
  revert m cur path. induction n as [|n IH]; intros m cur path Hle.
  - simpl. destruct m; simpl; destruct (Nat.eqb cur (root h)); first [by left | by right].
  - destruct m as [|m]; [lia|]. simpl.
    destruct (Nat.eqb cur (root h)); [by right|].
    destruct (Node.parent (node_at h cur)); [apply IH; lia | by right].
Qed.

Lemma path_to_node_mono n m h node :
  (n <= m)%nat -> refines (path_to_node n h node) (path_to_node m h node).
Proof. apply path_loop_mono. Qed.

Lemma encode_word_mono n m word writer :
  (n <= m)%nat -> mrefines (encode_word n word writer) (encode_word m word writer).
Proof.
  intros Hle. unfold encode_word.
  apply bind_mrefines; [apply mrefines_refl | intros new_word].
  apply bind_mrefines; [apply mrefines_refl | intros target].
  apply bind_mrefines.
  { apply lift_mrefines. intros h. by apply path_to_node_mono. }
  intros path. destruct new_word.
  - apply bind_mrefines; [apply mrefines_refl | intros raw].
    destruct (_ <=? _); [apply mrefines_refl|].
    apply bind_mrefines; [by apply insert_new_word_mono | intros; apply mrefines_refl].
  - apply bind_mrefines; [apply mrefines_refl | intros leaf].
    apply bind_mrefines; [by apply increment_weight_mono | intros; apply mrefines_refl].
Qed.

Lemma encode_words_mono n m first words writer :
  (n <= m)%nat ->
  mrefines (encode_words n first words writer) (encode_words m first words writer).
Proof.
  intros Hle. revert first writer.
  induction words as [|w ws IH]; intros first writer; simpl; [apply mrefines_refl|].
  apply bind_mrefines.
  { destruct first; [apply mrefines_refl | by apply encode_word_mono]. }
  intros w1. apply bind_mrefines; [by apply encode_word_mono | intros; apply IH].
Qed.

Lemma encode_mono n m text :
  (n <= m)%nat -> mrefines (encode n text) (encode m text).
Proof.
  intros Hle. unfold encode.
  apply bind_mrefines; [by apply encode_words_mono | intros; apply mrefines_refl].
Qed.

Lemma walk_mono n m h node reader :
  (n <= m)%nat -> refines (walk n h node reader) (walk m h node reader).
Proof.
  revert m node reader. induction n as [|n IH]; intros m node reader Hle.
  - simpl. destruct m; simpl; destruct (Node.is_leaf _); first [by left | by right].
  - destruct m as [|m]; [lia|]. simpl.
    destruct (Node.is_leaf _); [by right|].
    apply obind_refines; [by right|]. intros [bit r].
    destruct (if bit then _ else _); [apply IH; lia | by right].
Qed.

Lemma decode_next_word_mono n m reader :
  (n <= m)%nat -> mrefines (decode_next_word n reader) (decode_next_word m reader).
Proof.
  intros Hle. unfold decode_next_word.
  apply bind_mrefines.
  { apply lift_mrefines. intros h. by apply walk_mono. }
  intros [node r].
  apply bind_mrefines; [apply mrefines_refl | intros is_ncw].
  apply bind_mrefines; [apply mrefines_refl | intros is_nyt].
  destruct is_ncw; [| destruct is_nyt; [apply mrefines_refl|]].
  - apply bind_mrefines; [by apply increment_weight_mono | intros _].
    apply bind_mrefines; [apply mrefines_refl | intros [len r1]].
    apply bind_mrefines; [apply mrefines_refl | intros [raw r2]].
    apply bind_mrefines; [apply mrefines_refl | intros word].
    apply bind_mrefines; [by apply insert_new_word_mono | intros; apply mrefines_refl].
  - apply bind_mrefines; [by apply increment_weight_mono | intros; apply mrefines_refl].
Qed.

Lemma decode_loop_mono n m reader words :
  (n <= m)%nat -> mrefines (decode_loop n reader words) (decode_loop m reader words).
Proof.
  revert m reader words. induction n as [|n IH]; intros m reader words Hle.
  - destruct m; simpl; destruct (has_bits reader);
      first [apply mrefines_refl | intros h; by left].
  - destruct m as [|m]; [lia|]. simpl.
    destruct (has_bits reader); [| apply mrefines_refl].
    apply bind_mrefines; [apply decode_next_word_mono; lia|].
    intros [word r]. destruct (bool_decide _); apply IH; lia.
Qed.

Lemma decode_mono n m data :
  (n <= m)%nat -> mrefines (decode n data) (decode m data).
Proof.
  intros Hle. unfold decode.
  apply bind_mrefines; [by apply decode_loop_mono | intros; apply mrefines_refl].
Qed.

Lemma fuel_cases {A} (f : nat -> M A) (n : nat) (h : AdaptiveHuffman) :
  (forall n m, (n <= m)%nat -> mrefines (f n) (f m)) ->
  fst (f n h) <> OutOfFuel ->
  forall m, fst (f m h) = OutOfFuel \/ f m h = f n h.
Proof.
  intros Hmono Hn m. destruct (Nat.le_gt_cases m n) as [Hle | Hgt].
  - apply Hmono, Hle.
  - destruct (Hmono n m ltac:(lia) h) as [? | ->]; [done | by right].
Qed.

Lemma fuel_cases_pure {A} (f : nat -> outcome A) (n : nat) :
  (forall n m, (n <= m)%nat -> refines (f n) (f m)) ->
  f n <> OutOfFuel ->
  forall m, f m = OutOfFuel \/ f m = f n.
Proof.
  intros Hmono Hn m. destruct (Nat.le_gt_cases m n) as [Hle | Hgt].
  - apply Hmono, Hle.
  - destruct (Hmono n m ltac:(lia)) as [? | ->]; [done | by right].
Qed.

(** If the first part of a sequence ends in [(a, h')] whenever it ends, and
    the rest never ends from there, the sequence never ends. *)
Lemma bind_diverges {A B} (f : nat -> M A) (k : A -> M B) n h a h' :
  (forall n m, (n <= m)%nat -> mrefines (f n) (f m)) ->
  f n h = (Done a, h') ->
  fst (k a h') = OutOfFuel ->
  forall m, fst (bind (f m) k h) = OutOfFuel.
Proof.
  intros Hmono Hn Hk m. unfold bind.
  destruct (fuel_cases f n h Hmono ltac:(by rewrite Hn) m) as [Ho | ->].
  - destruct (f m h) as [[| |] ?]; simpl in *; congruence.
  - by rewrite Hn.
Qed.

(** ** The two branches of [_encode_word] *)

Lemma encode_word_new fuel word writer h raw :
  leaves h !! word = None ->
  utf8_encode word = Done raw ->
  Z.of_nat (length raw) < 2 ^ 16 ->
  encode_word fuel word writer h =
    match path_to_node fuel h (ncw h) with
    | Done path =>
        (_ <- insert_new_word fuel word ;;
         ret (new_word_payload writer path raw)) h
    | Raised e => (Raised e, h)
    | OutOfFuel => (OutOfFuel, h)
    end.
Proof.
  intros Hnew Hraw Hlen. unfold encode_word, bind at 1 2 3, lift at 1 2 3.
  rewrite Hnew. simpl (default _ None).
  destruct (path_to_node fuel h (ncw h)) as [path| |]; [| done..].
  rewrite bool_decide_eq_true_2 by done.
  unfold bind at 1, lift at 1. rewrite Hraw.
  destruct (Z.leb_spec (2 ^ 16) (Z.of_nat (length raw))); [lia | done].
Qed.

Lemma encode_word_known fuel word writer h leaf :
  leaves h !! word = Some leaf ->
  encode_word fuel word writer h =
    match path_to_node fuel h leaf with
    | Done path =>
        (_ <- increment_weight fuel (Some leaf) ;;
         ret (add_bits writer path)) h
    | Raised e => (Raised e, h)
    | OutOfFuel => (OutOfFuel, h)
    end.
Proof.
  intros Hknown. unfold encode_word, bind at 1 2 3, lift at 1 2 3.
  rewrite Hknown. simpl (default _ (Some _)).
  destruct (path_to_node fuel h leaf) as [path| |]; [| done..].
  rewrite bool_decide_eq_false_2 by done.
  unfold bind at 1, lift at 1. by rewrite Hknown.
Qed.

Lemma insert_new_word_eq fuel word h :
  insert_new_word fuel word h =
  increment_weight fuel (Some (length (heap h))) (insert_prepare word h).
Proof.
  unfold insert_new_word, insert_prepare, bind, fresh_key, alloc, update, lift.
  cbn [heap leaves next_key nyt ncw root modify_node set_heap].
  rewrite length_app, Nat.add_1_r, <- app_assoc. reflexivity.
Qed.

(** ** The second new word on a fresh encoder never finishes *)

Lemma is_ancestor_loop_cycle h a b anc :
  Node.parent (node_at h a) = Some b ->
  Node.parent (node_at h b) = Some a ->
  anc <> a -> anc <> b ->
  forall fuel,
    is_ancestor_loop fuel h anc (Some a) = OutOfFuel /\
    is_ancestor_loop fuel h anc (Some b) = OutOfFuel.
Proof.
  intros Ha Hb Hna Hnb fuel. induction fuel as [|f [IHa IHb]]; [done|].
  simpl. rewrite Ha, Hb.
  destruct (Nat.eqb_spec a anc); [congruence|].
  destruct (Nat.eqb_spec b anc); [congruence|]. done.
Qed.

Lemma find_highest_cyclic sym sym' lv fuel :
  find_highest_node_in_block fuel (cyclic sym sym' lv) 4 = OutOfFuel.
Proof.
  destruct fuel as [|[|[|g]]]; try reflexivity.
  unfold find_highest_node_in_block. simpl. unfold is_ancestor.
  change (Node.parent (node_at (cyclic sym sym' lv) 4)) with (Some 0%nat).
  by rewrite (proj1 (is_ancestor_loop_cycle (cyclic sym sym' lv) 0 4 5
                       eq_refl eq_refl ltac:(lia) ltac:(lia) g)).
Qed.

Lemma increment_weight_second_insert sym sym' lv fuel :
  fst (increment_weight fuel (Some 5%nat) (second_insert sym sym' lv)) = OutOfFuel.
Proof.
  destruct fuel as [|f]; [done|]. simpl.
  eapply (bind_diverges (fun n => increment_step n 5) _ 20);
    [intros; by apply increment_step_mono | vm_compute; reflexivity |].
  destruct f as [|f]; [done|]. simpl.
  eapply (bind_diverges (fun n => increment_step n 4) _ 20);
    [intros; by apply increment_step_mono | vm_compute; reflexivity |].
  destruct f as [|f]; [done|]. simpl.
  apply (bind_diverges (fun n => increment_step n 0) _ 20 _
           (Some 4%nat) (cyclic sym sym' lv));
    [intros; by apply increment_step_mono | vm_compute; reflexivity |].
  destruct f as [|f]; [done|]. simpl.
  unfold bind at 1, increment_step, bind at 1, lift at 1.
  by rewrite (find_highest_cyclic sym sym' lv f).
Qed.

Lemma insert_after_first_word sym lv word fuel :
  fst (insert_new_word fuel word (after_first_word sym lv)) = OutOfFuel.
Proof.
  rewrite insert_new_word_eq.
  apply (increment_weight_second_insert sym (Some word) (<[word := 5%nat]> lv)).
Qed.

Lemma path_to_ncw_after_first_word sym lv fuel :
  path_to_node fuel (after_first_word sym lv) 1 = OutOfFuel \/
  path_to_node fuel (after_first_word sym lv) 1 = Done [true].
Proof.
  apply (fuel_cases_pure (fun n => path_to_node n (after_first_word sym lv) 1) 5);
    [intros; by apply path_to_node_mono | done].
Qed.

Lemma encode_word_after_first_word sym lv word raw writer fuel :
  lv !! word = None ->
  utf8_encode word = Done raw ->
  Z.of_nat (length raw) < 2 ^ 16 ->
  fst (encode_word fuel word writer (after_first_word sym lv)) = OutOfFuel.
Proof.
  intros Hnew Hraw Hlen.
  rewrite (encode_word_new fuel word writer _ raw) by done.
  change (ncw (after_first_word sym lv)) with 1%nat.
  destruct (path_to_ncw_after_first_word sym lv fuel) as [-> | ->]; [done|].
  unfold bind.
  pose proof (insert_after_first_word sym lv word fuel) as Hins.
  destruct (insert_new_word fuel word _) as [[| |] ?]; simpl in *; congruence.
Qed.

Lemma insert_prepare_init word :
  insert_prepare word init = first_insert (Some word) (<[word := 3%nat]> ∅).
Proof. reflexivity. Qed.

Lemma increment_weight_first_insert sym lv :
  increment_weight 20 (Some 3%nat) (first_insert sym lv)
  = (Done tt, after_first_word sym lv).
Proof. vm_compute. reflexivity. Qed.

Lemma encode_first_word word raw writer :
  utf8_encode word = Done raw ->
  Z.of_nat (length raw) < 2 ^ 16 ->
  encode_word 20 word writer init =
  (Done (new_word_payload writer [true] raw),
   after_first_word (Some word) (<[word := 3%nat]> ∅)).
Proof.
  intros Hraw Hlen.
  rewrite (encode_word_new 20 word writer init raw) by done.
  change (path_to_node 20 init (ncw init)) with (Done (A := list bool) [true]).
  unfold bind. rewrite insert_new_word_eq, insert_prepare_init.
  change (length (heap init)) with 3%nat.
  by rewrite increment_weight_first_insert.
Qed.

(** Any text with at least two tokens whose first word can be written makes a
    fresh encoder run for ever: the separator is the second new word. *)
Lemma encode_words_fresh_diverges w1 w2 rest raw writer fuel :
  w1 <> [SPACE] ->
  utf8_encode w1 = Done raw ->
  Z.of_nat (length raw) < 2 ^ 16 ->
  fst (encode_words fuel true (w1 :: w2 :: rest) writer init) = OutOfFuel.
Proof.
  intros Hw1 Hraw Hlen.
  cbn [encode_words]. unfold bind at 1, ret at 1.
  apply (bind_diverges (fun n => encode_word n w1 writer) _ 20 _ _ _
           ltac:(intros; by apply encode_word_mono)
           (encode_first_word w1 raw writer Hraw Hlen)).
  unfold bind at 1.
  pose proof (encode_word_after_first_word (Some w1) (<[w1 := 3%nat]> ∅)
                [SPACE] [SPACE] (new_word_payload writer [true] raw) fuel) as Hsp.
  destruct (encode_word fuel [SPACE] _ _) as [[| |] ?]; simpl in *; try done.
  - discriminate Hsp; [| done..].
    rewrite lookup_insert_ne by done. apply lookup_empty.
  - discriminate Hsp; [| done..].
    rewrite lookup_insert_ne by done. apply lookup_empty.
Qed.

Lemma split_space_nonempty s : split_space s <> [].
Proof. destruct s as [|c s]; simpl; [done|]. by destruct (c =? SPACE), (split_space s). Qed.

Lemma split_space_no_space s w : In w (split_space s) -> ~ In SPACE w.
Proof.
  revert w. induction s as [|c s IH]; intros w; simpl.
  - intros [<- | []]. by intros [].
  - destruct (Z.eqb_spec c SPACE) as [-> | Hc].
    + intros [<- | Hin]; [by intros [] | by apply IH].
    + pose proof (split_space_nonempty s) as Hne.
      destruct (split_space s) as [|w0 ws]; [done|].
      intros [<- | Hin]; [| apply IH; by right].
      intros [? | Hin]; [done|]. apply (IH w0); [by left | done].
Qed.

Lemma encode_fresh_diverges text w1 w2 rest raw fuel :
  split_space text = w1 :: w2 :: rest ->
  utf8_encode w1 = Done raw ->
  Z.of_nat (length raw) < 2 ^ 16 ->
  fst (encode fuel text init) = OutOfFuel.
Proof.
  intros Hsplit Hraw Hlen. unfold encode.
  destruct text as [|c text]; [done|]. rewrite Hsplit. unfold bind.
  assert (w1 <> [SPACE]) as Hw1.
  { intros ->. apply (split_space_no_space (c :: text) [SPACE]).
    - rewrite Hsplit. by left.
    - by left. }
  pose proof (encode_words_fresh_diverges w1 w2 rest raw new_writer fuel
                Hw1 Hraw Hlen) as Hdiv.
  destruct (encode_words fuel true _ _ _) as [[| |] ?]; simpl in *; congruence.
Qed.

(** ** Fresh instances *)

Example round_trip_empty : round_trip 20 (py "") = Done (py "").
Proof. reflexivity. Qed.

Example round_trip_hi : round_trip 20 (py "hi") = Done (py "hi").
Proof. vm_compute. reflexivity. Qed.

Example encode_hi : fst (encode 20 (py "hi") init) = Done [128; 0; 2; 104; 105].
Proof. vm_compute. reflexivity. Qed.

(** C1.  The round trip on the docstring's own example, "hello world hello",
    through a fresh encoder and a fresh decoder yields no result: [encode]
    runs out of every amount of fuel, that is, it never returns. *)
Theorem round_trip_hello_world_never_returns :
  forall fuel, round_trip fuel (py "hello world hello") = OutOfFuel.
Proof.
  intros fuel. unfold round_trip.
  pose proof (encode_fresh_diverges (py "hello world hello")
                (py "hello") (py "world") [py "hello"] (py "hello") fuel
                eq_refl eq_refl eq_refl) as Hdiv.
  destruct (encode fuel _ init) as [[| |] ?]; simpl in *; congruence.
Qed.

Lemma encode_a :
  encode 20 (py "a") init =
  (Done [128; 0; 1; 97], after_first_word (Some (py "a")) (<[py "a" := 3%nat]> ∅)).
Proof. vm_compute. reflexivity. Qed.

(** C2.  A fresh instance has the three nodes NYT (key 1), NCW (key 2) and
    root (key 3, weight 0, left = NYT, right = NCW), but its key counter
    starts at 3, not 4: the first node created afterwards (the leaf of the
    first word, heap index 3) receives key 3, the key of the root. *)
Theorem fresh_instance_counter_starts_at_root_key :
  length (heap init) = 3%nat /\
  Node.key (node_at init (root init)) = 3 /\
  Node.weight (node_at init (root init)) = 0 /\
  Node.left (node_at init (root init)) = Some (nyt init) /\
  Node.right (node_at init (root init)) = Some (ncw init) /\
  Node.key (node_at init (nyt init)) = 1 /\
  Node.is_nyt (node_at init (nyt init)) = true /\
  Node.key (node_at init (ncw init)) = 2 /\
  Node.is_ncw (node_at init (ncw init)) = true /\
  next_key init = 3 /\
  fst (encode 20 (py "a") init) = Done [128; 0; 1; 97] /\
  Node.symbol (node_at (snd (encode 20 (py "a") init)) 3) = Some (py "a") /\
  Node.key (node_at (snd (encode 20 (py "a") init)) 3) = 3.
Proof. vm_compute. repeat split; reflexivity. Qed.

(** C3.  After a fresh instance encodes "a" the root (index 2) and the leaf
    of "a" (index 3) are two different nodes of the tree with the same
    key 3. *)
Theorem keys_collide_after_first_word :
  let h := snd (encode 20 (py "a") init) in
  fst (encode 20 (py "a") init) = Done [128; 0; 1; 97] /\
  in_tree h 2 /\ in_tree h 3 /\ 2%nat <> 3%nat /\
  Node.key (node_at h 2) = Node.key (node_at h 3).
Proof.
  rewrite encode_a. cbn [fst snd].
  split; [done|]. split; [apply reach_refl|].
  split; [| split; [lia | done]].
  apply (reach_left _ _ 0); [done|].
  apply (reach_left _ _ 3); [done | apply reach_refl].
Qed.

(** C7.  Every word of "a b" is one byte long, yet a fresh encoder neither
    returns nor raises on it: it runs out of every amount of fuel. *)
Theorem encode_short_words_never_returns :
  Forall (fun w => exists raw, utf8_encode w = Done raw
                               /\ Z.of_nat (length raw) < 2 ^ 16)
         (split_space (py "a b")) /\
  forall fuel, fst (encode fuel (py "a b") init) = OutOfFuel.
Proof.
  split.
  - repeat constructor; eexists; (split; [reflexivity | done]).
  - intros fuel.
    by apply (encode_fresh_diverges (py "a b") (py "a") (py "b") [] (py "a") fuel).
Qed.

(** C9.  A fresh encoder turns "alpha" into the byte 0x80 (the bit 1, which
    is the path to the NCW leaf, the root's right child, padded with seven
    zero bits) followed by 00 05 61 6c 70 68 61, for every amount of fuel
    from 20 on. *)
Theorem encode_alpha :
  path_to_node 20 init (ncw init) = Done [true] /\
  get_data (add_bits new_writer [true]) = [128] /\
  forall k,
    fst (encode (20 + k) (py "alpha") init)
    = Done ([128] ++ [0; 5; 97; 108; 112; 104; 97]).
Proof.
  split; [done|]. split; [done|]. intros k.
  destruct (encode_mono 20 (20 + k) (py "alpha") ltac:(lia) init) as [Ho | <-].
  - by vm_compute in Ho.
  - by vm_compute.
Qed.

(** C10.  The text "a  b" has the empty string between its two spaces as a
    token, but a fresh encoder never gets to it: it runs for ever on the
    separator that precedes it and emits nothing. *)
Theorem encode_double_space_never_returns :
  split_space (py "a  b") = [py "a"; []; py "b"] /\
  forall fuel, fst (encode fuel (py "a  b") init) = OutOfFuel.
Proof.
  split; [done|]. intros fuel.
  by apply (encode_fresh_diverges (py "a  b") (py "a") [] [py "b"] (py "a") fuel).
Qed.

(** What the two sides do with the empty word once they get to it: the
    encoder writes the escape bit and a zero length, the decoder keeps the
    empty tokens (two of them are joined by one space). *)
Example encode_word_empty :
  match fst (encode_word 20 [] new_writer init) with
  | Done w => get_data w = [128; 0; 0]
  | _ => False
  end.
Proof. by vm_compute. Qed.

Example decode_empty_words :
  fst (decode 20 [128; 0; 0; 128; 0; 0] init) = Done [SPACE].
Proof. by vm_compute. Qed.

(** ** What [_find_highest_node_in_block] returns *)

Lemma is_ancestor_loop_true fuel h anc cur :
  is_ancestor_loop fuel h anc cur = Done true ->
  exists c, cur = Some c /\ (c = anc \/ ancestor_of h anc c).
Proof.
  revert cur. induction fuel as [|f IH]; intros [c|]; simpl; try done.
  destruct (Nat.eqb_spec c anc) as [-> | Hne]; [by eauto|].
  intros Hloop. exists c. split; [done|]. right.
  destruct (IH _ Hloop) as (p & Hp & [-> | Hanc]).
  - by apply ancestor_parent.
  - by apply (ancestor_step _ _ _ p).
Qed.

Lemma is_ancestor_loop_false fuel h anc cur c :
  is_ancestor_loop fuel h anc cur = Done false ->
  cur = Some c -> c <> anc /\ ~ ancestor_of h anc c.
Proof.
  revert cur c. induction fuel as [|f IH]; intros [c'|] c; simpl; try done.
  destruct (Nat.eqb_spec c' anc) as [-> | Hne]; [done|].
  intros Hloop [= ->]. split; [done|]. intros Hanc.
  destruct (Node.parent (node_at h c)) as [p|] eqn:Hp.
  - destruct (IH _ p Hloop eq_refl) as [Hpne Hpanc].
    inversion Hanc; simplify_eq; done.
  - inversion Hanc; simplify_eq.
Qed.

Lemma is_ancestor_true fuel h a d :
  is_ancestor fuel h a d = Done true -> ancestor_of h a d.
Proof.
  intros H. destruct (is_ancestor_loop_true _ _ _ _ H) as (c & Hc & [-> | Hanc]).
  - by apply ancestor_parent.
  - by apply (ancestor_step _ _ _ c).
Qed.

Lemma is_ancestor_false fuel h a d :
  is_ancestor fuel h a d = Done false -> ~ ancestor_of h a d.
Proof.
  intros H Hanc. unfold is_ancestor in H.
  destruct (Node.parent (node_at h d)) as [p|] eqn:Hp.
  - destruct (is_ancestor_loop_false _ _ _ _ p H eq_refl) as [Hne Hn].
    inversion Hanc; simplify_eq; done.
  - inversion Hanc; simplify_eq.
Qed.

(** The traversal visits everything below the nodes on its stack. *)
Lemma find_highest_loop_spec fuel h tw v stack highest hd :
  find_highest_loop fuel h tw v stack highest = Done hd ->
  Node.key (node_at h highest) <= Node.key (node_at h hd) /\
  (hd = highest \/
   (exists s, In s stack /\ reach h s hd) /\
   Node.weight (node_at h hd) = tw /\ ~ ancestor_of h hd v) /\
  (forall s u, In s stack -> reach h s u ->
               Node.weight (node_at h u) = tw -> ~ ancestor_of h u v ->
               Node.key (node_at h u) <= Node.key (node_at h hd)).
Proof.
  revert stack highest.
  induction fuel as [|f IH]; intros [|cur stack] highest; simpl; try done.
  { intros [= ->]. split; [lia|]. split; [by left|]. by intros ? ? []. }
  { intros [= ->]. split; [lia|]. split; [by left|]. by intros ? ? []. }
  set (c := node_at h cur).
  set (stack' := match Node.right c with
                 | Some r => r :: match Node.left c with
                                  | Some l => l :: stack
                                  | None => stack
                                  end
                 | None => match Node.left c with
                           | Some l => l :: stack
                           | None => stack
                           end
                 end).
  assert (forall s, In s stack' ->
            In s stack \/ Node.left c = Some s \/ Node.right c = Some s) as Hin'.
  { subst stack'. intros s.
    destruct (Node.right c), (Node.left c); simpl; intuition congruence. }
  assert (forall s, In s stack -> In s stack') as Hsub.
  { subst stack'. intros s.
    destruct (Node.right c), (Node.left c); simpl; intuition. }
  assert (forall s, Node.left c = Some s -> In s stack') as Hl.
  { subst stack'. intros s ->. destruct (Node.right c); simpl; intuition. }
  assert (forall s, Node.right c = Some s -> In s stack') as Hr.
  { subst stack'. intros s ->. simpl; intuition. }
  destruct ((Node.weight c =? tw) && (Node.key (node_at h highest) <? Node.key c))
    eqn:Hcond.
  - apply andb_true_iff in Hcond as [Hw%Z.eqb_eq Hk%Z.ltb_lt].
    destruct (is_ancestor f h cur v) as [b| |] eqn:Hanc; simpl; try done.
    destruct b; simpl.
    + (* an ancestor of [v]: skipped *)
      intros Hloop. destruct (IH _ _ Hloop) as (Hkey & Hsel & Hmax).
      split; [done|]. split.
      * destruct Hsel as [-> | ((s & Hs & Hreach) & ? & ?)]; [by left|].
        right. split; [| done].
        destruct (Hin' s Hs) as [? | [? | ?]].
        -- exists s. by split; [right|].
        -- exists cur. split; [by left | by eapply reach_left].
        -- exists cur. split; [by left | by eapply reach_right].
      * intros s u [<- | Hs] Hreach Hwu Hnanc; [| by eapply Hmax; eauto].
        inversion Hreach; subst.
        -- by apply is_ancestor_true in Hanc.
        -- eapply Hmax; eauto.
        -- eapply Hmax; eauto.
    + (* the new highest *)
      intros Hloop. destruct (IH _ _ Hloop) as (Hkey & Hsel & Hmax).
      apply is_ancestor_false in Hanc.
      split; [fold c in Hkey; lia|]. split.
      * right. destruct Hsel as [-> | ((s & Hs & Hreach) & ? & ?)].
        -- split; [| done]. exists cur. split; [by left | apply reach_refl].
        -- split; [| done].
           destruct (Hin' s Hs) as [? | [? | ?]].
           ++ exists s. by split; [right|].
           ++ exists cur. split; [by left | by eapply reach_left].
           ++ exists cur. split; [by left | by eapply reach_right].
      * intros s u [<- | Hs] Hreach Hwu Hnanc; [| by eapply Hmax; eauto].
        inversion Hreach; subst; [done | |]; eapply Hmax; eauto.
  - simpl. intros Hloop. destruct (IH _ _ Hloop) as (Hkey & Hsel & Hmax).
    split; [done|]. split.
    + destruct Hsel as [-> | ((s & Hs & Hreach) & ? & ?)]; [by left|].
      right. split; [| done].
      destruct (Hin' s Hs) as [? | [? | ?]].
      * exists s. by split; [right|].
      * exists cur. split; [by left | by eapply reach_left].
      * exists cur. split; [by left | by eapply reach_right].
    + intros s u [<- | Hs] Hreach Hwu Hnanc; [| by eapply Hmax; eauto].
      inversion Hreach; subst; [| by eapply Hmax; eauto..].
      apply andb_false_iff in Hcond as [Hw%Z.eqb_neq | Hk%Z.ltb_ge]; [done|].
      fold c. lia.
Qed.

(** What the code selects: whenever [_find_highest_node_in_block] returns
    for a node [v], the selected node is [v] or a node of the tree with the
    weight of [v] that is not an ancestor of [v], and it has the greatest key
    among these.  The filter is [_is_ancestor(cur, node)]: it removes the
    ancestors of [v] and lets the nodes below [v] through, where the
    docstring of the function excludes the subtree of [v]. *)
Lemma find_highest_greatest_key_candidate fuel h v hd :
  find_highest_node_in_block fuel h v = Done hd ->
  greatest_key_candidate h v hd.
Proof.
  intros Hfind. unfold find_highest_node_in_block in Hfind.
  destruct (find_highest_loop_spec _ _ _ _ _ _ _ Hfind) as (Hkey & Hsel & Hmax).
  split; [| split; [done|]].
  - destruct Hsel as [-> | ((s & [<- | []] & Hreach) & Hw & Hn)]; [by left|].
    right. by split.
  - intros u (Hin & Hw & Hn). eapply Hmax; eauto. by left.
Qed.

Lemma find_highest_init_ncw fuel :
  (3 <= fuel)%nat -> find_highest_node_in_block fuel init (ncw init) = Done (ncw init).
Proof.
  intros Hfuel.
  destruct (find_highest_mono 3 fuel init (ncw init) Hfuel) as [Ho | <-]; [done|].
  reflexivity.
Qed.

Lemma key_init_le_root u :
  Node.key (node_at init u) <= Node.key (node_at init (root init)).
Proof. destruct u as [|[|[|u]]]; by vm_compute. Qed.

(** C5.  The node that [_find_highest_node_in_block] selects is not the
    node of greatest key in the block, neither as the specification has it
    nor as the docstring of the function has it ("highest-key node (not in
    node's subtree) with same weight").  On a fresh decoder whose stream
    starts with the bit 1 the increment walk starts at the NCW leaf (key 2,
    weight 0).  For every amount of fuel from 3 on the call returns that
    leaf itself, although the root is a node of the tree with weight 0, has
    the greatest key of the tree (3) and is not in the subtree of the NCW
    leaf: the guard [_is_ancestor(cur, node)] has dropped it because it is
    an ancestor of the NCW leaf. *)
Theorem find_highest_passes_over_the_root :
  walk 10 init (root init) (new_reader [128; 0; 1; 97])
  = Done (ncw init, mkReader [128; 0; 1; 97] 0 1) /\
  (forall fuel, (3 <= fuel)%nat ->
     find_highest_node_in_block fuel init (ncw init) = Done (ncw init)) /\
  greatest_key_in_block init (ncw init) (root init) /\
  Node.key (node_at init (ncw init)) < Node.key (node_at init (root init)) /\
  ~ greatest_key_in_block init (ncw init) (ncw init) /\
  ~ reach init (ncw init) (root init) /\
  ancestor_of init (root init) (ncw init).
Proof.
  split; [reflexivity|]. split; [apply find_highest_init_ncw|].
  split.
  { split; [apply reach_refl|]. split; [reflexivity|].
    intros u _ _. apply key_init_le_root. }
  split; [by vm_compute|]. split.
  { intros (_ & _ & Hmax).
    specialize (Hmax (root init) (reach_refl _ _) eq_refl). vm_compute in Hmax.
    by apply Hmax. }
  split.
  - intros Hreach. inversion Hreach; simplify_eq.
  - by apply ancestor_parent.
Qed.

(** ** The branches of [_decode_next_word] *)

Lemma decode_next_word_at_ncw fuel reader h node r1 :
  walk fuel h (root h) reader = Done (node, r1) ->
  Node.is_ncw (node_at h node) = true ->
  decode_next_word fuel reader h = decode_new_word_steps fuel node r1 h.
Proof.
  intros Hwalk Hncw.
  unfold decode_next_word, bind at 1, lift at 1. rewrite Hwalk.
  unfold bind at 1, lift at 1. rewrite Hncw.
  unfold bind at 1, lift at 1. reflexivity.
Qed.

Lemma decode_next_word_at_nyt fuel reader h node r1 :
  walk fuel h (root h) reader = Done (node, r1) ->
  Node.is_ncw (node_at h node) = false ->
  Node.is_nyt (node_at h node) = true ->
  decode_next_word fuel reader h = (Done ([], r1), h).
Proof.
  intros Hwalk Hncw Hnyt.
  unfold decode_next_word, bind at 1, lift at 1. rewrite Hwalk.
  unfold bind at 1, lift at 1. rewrite Hncw.
  unfold bind at 1, lift at 1. rewrite Hnyt. reflexivity.
Qed.

Lemma decode_next_word_at_word fuel reader h node r1 :
  walk fuel h (root h) reader = Done (node, r1) ->
  Node.is_ncw (node_at h node) = false ->
  Node.is_nyt (node_at h node) = false ->
  decode_next_word fuel reader h =
    (increment_weight fuel (Some node) ;;
     sym <- lift (fun h => Done (Node.symbol (node_at h node))) ;;
     ret (default [] sym, r1)) h.
Proof.
  intros Hwalk Hncw Hnyt.
  unfold decode_next_word, bind at 1, lift at 1. rewrite Hwalk.
  unfold bind at 1, lift at 1. rewrite Hncw.
  unfold bind at 1, lift at 1. rewrite Hnyt. reflexivity.
Qed.

Lemma decode_next_word_walk_fails fuel reader h :
  (forall nr, walk fuel h (root h) reader <> Done nr) ->
  decode_next_word fuel reader h = (obind (walk fuel h (root h) reader)
                                      (fun _ => OutOfFuel), h).
Proof.
  intros Hwalk. unfold decode_next_word, bind at 1, lift at 1.
  destruct (walk fuel h (root h) reader) as [nr| |]; [by destruct (Hwalk nr) | done..].
Qed.

(** C6.  For a word that is not in the index the encoder changes the
    instance through [_insert_new_word] alone (no increment of the NCW leaf
    of its own), whereas the decoder, having walked to the NCW leaf, first
    increments that leaf and only then aligns, reads the length, reads the
    raw bytes and inserts the word. *)
Theorem ncw_incremented_by_decoder_only :
  (forall fuel word writer h raw path,
      leaves h !! word = None ->
      utf8_encode word = Done raw ->
      Z.of_nat (length raw) < 2 ^ 16 ->
      path_to_node fuel h (ncw h) = Done path ->
      encode_word fuel word writer h =
        (insert_new_word fuel word ;; ret (new_word_payload writer path raw)) h) /\
  (forall fuel reader h node r1,
      walk fuel h (root h) reader = Done (node, r1) ->
      Node.is_ncw (node_at h node) = true ->
      decode_next_word fuel reader h = decode_new_word_steps fuel node r1 h).
Proof.
  split.
  - intros fuel word writer h raw path Hnew Hraw Hlen Hpath.
    rewrite (encode_word_new fuel word writer h raw) by done. by rewrite Hpath.
  - apply decode_next_word_at_ncw.
Qed.

(** On fresh instances: after the encoder wrote "a" its NCW leaf still has
    weight 0; after the decoder read that payload its NCW leaf has weight 1;
    and a stream cut after the escape bit leaves the decoder with the NCW
    leaf incremented and nothing inserted. *)
Lemma ncw_incremented_by_decoder_only_witness :
  encode_word 20 (py "a") new_writer init =
    (insert_new_word 20 (py "a") ;;
     ret (new_word_payload new_writer [true] (py "a"))) init /\
  decode_next_word 20 (new_reader [128; 0; 1; 97]) init =
    decode_new_word_steps 20 (ncw init) (mkReader [128; 0; 1; 97] 0 1) init /\
  Node.weight (node_at (snd (encode 20 (py "a") init)) (ncw init)) = 0 /\
  Node.weight (node_at (snd (decode 20 [128; 0; 1; 97] init)) (ncw init)) = 1 /\
  fst (decode 20 [128] init) = Raised TruncatedUint16 /\
  Node.weight (node_at (snd (decode 20 [128] init)) (ncw init)) = 1 /\
  length (heap (snd (decode 20 [128] init))) = 3%nat.
Proof.
  split.
  { apply (proj1 ncw_incremented_by_decoder_only 20%nat (py "a") new_writer init
             (py "a") [true]); reflexivity. }
  split.
  { apply (proj2 ncw_incremented_by_decoder_only 20%nat
             (new_reader [128; 0; 1; 97]) init (ncw init)
             (mkReader [128; 0; 1; 97] 0 1)); reflexivity. }
  vm_compute. repeat split; reflexivity.
Defined.

(** ** Heap updates *)

Lemma node_at_modify_eq h i f :
  (i < size h)%nat -> node_at (modify_node i f h) i = f (node_at h i).
Proof.
  intros Hi. unfold node_at, modify_node, set_heap. simpl.
  rewrite list_lookup_alter_eq.
  destruct (lookup_lt_is_Some_2 (heap h) i Hi) as [n ->]. done.
Qed.

Lemma node_at_modify_ne h i f j :
  j <> i -> node_at (modify_node i f h) j = node_at h j.
Proof.
  intros Hne. unfold node_at, modify_node, set_heap. simpl.
  by rewrite list_lookup_alter_ne.
Qed.

Lemma node_at_modify_proj {B} (g : Node.t -> B) h i f j :
  (forall n, g (f n) = g n) ->
  g (node_at (modify_node i f h) j) = g (node_at h j).
Proof.
  intros Hg. destruct (decide (j = i)) as [-> | Hne]; [| by rewrite node_at_modify_ne].
  unfold node_at, modify_node, set_heap. simpl. rewrite list_lookup_alter_eq.
  destruct (heap h !! i); simpl; [apply Hg | done].
Qed.

Lemma size_modify h i f : size (modify_node i f h) = size h.
Proof. unfold modify_node, set_heap. simpl. apply length_alter. Qed.

(** ** Swapping two nodes renames the child slots *)

Lemma transp_invol a b j : transp a b (transp a b j) = j.
Proof. unfold transp. repeat case_decide; congruence. Qed.

Lemma wf_renamed t h h' :
  wf h -> renamed t h h' ->
  (forall j, t (t j) = j) ->
  (forall j, (j < size h)%nat -> (t j < size h)%nat) ->
  (forall i, Node.parent (node_at h (t i)) <> Some i) ->
  wf h'.
Proof.
  intros Hwf Hrn Hinv Hval Hself.
  destruct Hwf, Hrn.
  assert (forall x y, t x = t y -> x = y) as Hinj.
  { intros x y Hxy. rewrite <- (Hinv x), <- (Hinv y). by f_equal. }
  constructor; rewrite ?rn_size0, ?rn_leaves0, ?rn_nyt0, ?rn_ncw0, ?rn_root0; try done.
  - intros i c. rewrite rn_left0, rn_parent0.
    destruct (Node.left (node_at h i)) as [c0|] eqn:Hl; [|done].
    intros [= <-]. destruct (wf_left0 _ _ Hl). rewrite Hinv. split; [by apply Hval | done].
  - intros i c. rewrite rn_right0, rn_parent0.
    destruct (Node.right (node_at h i)) as [c0|] eqn:Hr; [|done].
    intros [= <-]. destruct (wf_right0 _ _ Hr). rewrite Hinv. split; [by apply Hval | done].
  - intros i p. rewrite rn_parent0, rn_left0, rn_right0. intros Hp.
    destruct (wf_parent0 _ _ Hp) as [? [-> | ->]]; simpl; rewrite Hinv; auto.
  - intros i. rewrite rn_left0, rn_right0. specialize (wf_both0 i).
    destruct (Node.left (node_at h i)), (Node.right (node_at h i)); simpl;
      intuition congruence.
  - intros i c. rewrite rn_left0, rn_right0.
    destruct (Node.left (node_at h i)) as [c0|] eqn:Hl; [|done].
    intros [= <-].
    destruct (Node.right (node_at h i)) as [c1|] eqn:Hr; [|done].
    intros [= Heq%Hinj]. subst. by eapply wf_distinct0.
  - intros i. rewrite rn_parent0. apply Hself.
  - by rewrite rn_left0, wf_nyt_leaf0.
  - by rewrite rn_weight0.
  - by rewrite rn_is_nyt0.
  - by rewrite rn_is_ncw0.
  - intros w i Hw. destruct (wf_leaves0 _ _ Hw) as (? & ? & Hl).
    by rewrite rn_is_nyt0, rn_left0, Hl.
Qed.

Lemma left_set_left h i x j :
  (i < size h)%nat ->
  Node.left (node_at (modify_node i (Node.set_left x) h) j)
  = if decide (j = i) then x else Node.left (node_at h j).
Proof.
  intros Hi. case_decide as Hj; [subst; by rewrite node_at_modify_eq |
                                 by rewrite node_at_modify_ne].
Qed.

Lemma right_set_right h i x j :
  (i < size h)%nat ->
  Node.right (node_at (modify_node i (Node.set_right x) h) j)
  = if decide (j = i) then x else Node.right (node_at h j).
Proof.
  intros Hi. case_decide as Hj; [subst; by rewrite node_at_modify_eq |
                                 by rewrite node_at_modify_ne].
Qed.

Lemma parent_set_parent h i x j :
  (i < size h)%nat ->
  Node.parent (node_at (modify_node i (Node.set_parent x) h) j)
  = if decide (j = i) then x else Node.parent (node_at h j).
Proof.
  intros Hi. case_decide as Hj; [subst; by rewrite node_at_modify_eq |
                                 by rewrite node_at_modify_ne].
Qed.

Lemma weight_set_weight h i x j :
  (i < size h)%nat ->
  Node.weight (node_at (modify_node i (Node.set_weight x) h) j)
  = if decide (j = i) then x else Node.weight (node_at h j).
Proof.
  intros Hi. case_decide as Hj; [subst; by rewrite node_at_modify_eq |
                                 by rewrite node_at_modify_ne].
Qed.

Ltac heap_simpl :=
  repeat first
    [ rewrite size_modify
    | rewrite left_set_left by (rewrite ?size_modify; assumption)
    | rewrite right_set_right by (rewrite ?size_modify; assumption)
    | rewrite parent_set_parent by (rewrite ?size_modify; assumption)
    | rewrite weight_set_weight by (rewrite ?size_modify; assumption)
    | rewrite (node_at_modify_proj Node.left) by done
    | rewrite (node_at_modify_proj Node.right) by done
    | rewrite (node_at_modify_proj Node.parent) by done
    | rewrite (node_at_modify_proj Node.weight) by done
    | rewrite (node_at_modify_proj Node.is_nyt) by done
    | rewrite (node_at_modify_proj Node.is_ncw) by done ].

Lemma renamed_refl h : renamed id h h.
Proof.
  constructor; try done; intros j.
  - by destruct (Node.left _).
  - by destruct (Node.right _).
Qed.

Lemma transp_fmap_fix a b (o : option nat) :
  (forall c, o = Some c -> c <> a /\ c <> b) -> transp a b <$> o = o.
Proof.
  intros H. destruct o as [c|]; [|done]. simpl. f_equal.
  destruct (H c eq_refl). unfold transp. repeat case_decide; congruence.
Qed.

Lemma transp_l a b : transp a b a = b.
Proof. unfold transp. by rewrite decide_True. Qed.

Lemma transp_r a b : transp a b b = a.
Proof. unfold transp. case_decide; [done|]. by rewrite decide_True. Qed.

Lemma swap_nodes_spec h a b :
  wf h -> (a < size h)%nat -> (b < size h)%nat -> a <> b ->
  Node.parent (node_at h a) <> Some b ->
  Node.parent (node_at h b) <> Some a ->
  exists h', swap_nodes a b h = (Done tt, h') /\
             (renamed id h h' \/ renamed (transp a b) h h').
Proof.
  intros Hwf Ha Hb Hab Hpa Hpb. unfold swap_nodes.
  destruct (Nat.eqb_spec a b) as [|_]; [done|].
  destruct (Node.parent (node_at h a)) as [pa|] eqn:Epa;
    [| eexists; split; [done | left; apply renamed_refl]].
  destruct (Node.parent (node_at h b)) as [pb|] eqn:Epb;
    [| eexists; split; [done | left; apply renamed_refl]].
  destruct (wf_parent h Hwf _ _ Epa) as [Hpa_lt Hpa_child].
  destruct (wf_parent h Hwf _ _ Epb) as [Hpb_lt Hpb_child].
  assert (pa <> b) as Hpab by congruence.
  assert (pb <> a) as Hpba by congruence.
  pose proof (wf_distinct h Hwf) as WD.
  assert (forall j, Node.left (node_at h j) = Some a -> j = pa) as La.
  { intros j Hj. destruct (wf_left h Hwf _ _ Hj). congruence. }
  assert (forall j, Node.left (node_at h j) = Some b -> j = pb) as Lb.
  { intros j Hj. destruct (wf_left h Hwf _ _ Hj). congruence. }
  assert (forall j, Node.right (node_at h j) = Some a -> j = pa) as Ra.
  { intros j Hj. destruct (wf_right h Hwf _ _ Hj). congruence. }
  assert (forall j, Node.right (node_at h j) = Some b -> j = pb) as Rb.
  { intros j Hj. destruct (wf_right h Hwf _ _ Hj). congruence. }
  assert (forall j, Node.parent (node_at h (transp a b j))
                    = if decide (j = b) then Some pa
                      else if decide (j = a) then Some pb
                      else Node.parent (node_at h j)) as Hpar.
  { intros j. unfold transp. repeat case_decide; subst; congruence. }
  unfold bind, replace_child, update.
  destruct (decide (Node.left (node_at h pa) = Some a)) as [Hla | Hla].
  - rewrite (bool_decide_eq_true_2 _ Hla). heap_simpl.
    destruct (decide (pb = pa)) as [-> | Hne].
    + rewrite bool_decide_eq_true_2 by done.
      eexists. split; [done|]. left.
      constructor; heap_simpl; try done; intros j; heap_simpl; try done.
      * destruct (decide (j = pa)) as [-> | ?]; [by rewrite Hla|].
        by rewrite option_fmap_id.
      * by rewrite option_fmap_id.
      * unfold id. repeat case_decide; subst; congruence.
    + destruct (decide (Node.left (node_at h pb) = Some b)) as [Hlb | Hlb].
      * rewrite (bool_decide_eq_true_2 _ Hlb).
        eexists. split; [done|]. right.
        constructor; heap_simpl; try done; intros j; heap_simpl; try done.
        all: destruct (decide (j = pb)) as [? | ?];
          destruct (decide (j = pa)) as [? | ?]; simplify_eq; try done;
          rewrite ?Hla, ?Hlb; simpl; rewrite ?transp_l, ?transp_r; try done;
          symmetry; apply transp_fmap_fix; intros c Hc; split; intros ->;
          first [ by apply La in Hc | by apply Lb in Hc | by apply Ra in Hc
                | by apply Rb in Hc | by (eapply WD; [| apply Hc]) | done | congruence ].
      * rewrite (bool_decide_eq_false_2 _ Hlb).
        destruct Hpb_child as [? | Hrb]; [done|].
        heap_simpl. rewrite (bool_decide_eq_true_2 _ Hrb).
        eexists. split; [done|]. right.
        constructor; heap_simpl; try done; intros j; heap_simpl; try done.
        all: destruct (decide (j = pb)) as [? | ?];
          destruct (decide (j = pa)) as [? | ?]; simplify_eq; try done;
          rewrite ?Hla, ?Hrb; simpl; rewrite ?transp_l, ?transp_r; try done;
          symmetry; apply transp_fmap_fix; intros c Hc; split; intros ->;
          first [ by apply La in Hc | by apply Lb in Hc | by apply Ra in Hc
                | by apply Rb in Hc | by (eapply WD; [| apply Hc]) | done | congruence ].
  - rewrite (bool_decide_eq_false_2 _ Hla).
    destruct Hpa_child as [? | Hra]; [done|].
    rewrite (bool_decide_eq_true_2 _ Hra). heap_simpl.
    destruct (decide (Node.left (node_at h pb) = Some b)) as [Hlb | Hlb].
    + rewrite (bool_decide_eq_true_2 _ Hlb).
      eexists. split; [done|]. right.
      constructor; heap_simpl; try done; intros j; heap_simpl; try done.
        all: destruct (decide (j = pb)) as [? | ?];
          destruct (decide (j = pa)) as [? | ?]; simplify_eq; try done;
        rewrite ?Hra, ?Hlb; simpl; rewrite ?transp_l, ?transp_r; try done;
        symmetry; apply transp_fmap_fix; intros c Hc; split; intros ->;
        first [ by apply La in Hc | by apply Lb in Hc | by apply Ra in Hc
              | by apply Rb in Hc | by (eapply WD; [| apply Hc]) | done | congruence ].
    + rewrite (bool_decide_eq_false_2 _ Hlb).
      destruct Hpb_child as [? | Hrb]; [done|].
      assert (pb <> pa) as Hne by congruence.
      rewrite decide_False by done. rewrite (bool_decide_eq_true_2 _ Hrb).
      eexists. split; [done|]. right.
      constructor; heap_simpl; try done; intros j; heap_simpl; try done.
        all: destruct (decide (j = pb)) as [? | ?];
          destruct (decide (j = pa)) as [? | ?]; simplify_eq; try done;
        rewrite ?Hra, ?Hrb; simpl; rewrite ?transp_l, ?transp_r; try done;
        symmetry; apply transp_fmap_fix; intros c Hc; split; intros ->;
        first [ by apply La in Hc | by apply Lb in Hc | by apply Ra in Hc
              | by apply Rb in Hc | by (eapply WD; [| apply Hc]) | done | congruence ].
Qed.

(** ** The increment walk restores additivity *)

Lemma wf_set_weight h v x :
  wf h -> (v < size h)%nat -> v <> nyt h ->
  wf (modify_node v (Node.set_weight x) h).
Proof.
  intros Hwf Hv Hne. destruct Hwf.
  constructor; heap_simpl; try done.
  all: try (intros ? ?; heap_simpl; eauto; fail).
  all: try (intros ?; heap_simpl; eauto; fail).
  change (nyt (modify_node v (Node.set_weight x) h)) with (nyt h).
  by rewrite decide_False.
Qed.

Lemma increment_tail h h1 t v :
  wf h -> renamed t h h1 ->
  (forall j, t (t j) = j) ->
  (forall j, (j < size h)%nat -> (t j < size h)%nat) ->
  (forall i, Node.parent (node_at h (t i)) <> Some i) ->
  (forall j, Node.weight (node_at h (t j)) = Node.weight (node_at h j)) ->
  (v < size h)%nat -> v <> nyt h -> additive_pending h v ->
  let h2 := modify_node v (Node.set_weight (Node.weight (node_at h1 v) + 1)) h1 in
  wf h2 /\
  match Node.parent (node_at h2 v) with
  | Some p => (p < size h2)%nat /\ p <> nyt h2 /\ additive_pending h2 p
  | None => additive h2
  end.
Proof.
  intros Hwf Hrn Hinv Hval Hself Hw Hv Hnyt Hadd h2.
  assert (wf h1) as Hwf1 by (by eapply wf_renamed).
  assert (v < size h1)%nat as Hv1 by (by rewrite (rn_size _ _ _ Hrn)).
  assert (wf h2) as Hwf2.
  { apply wf_set_weight; [done.. |]. by rewrite (rn_nyt _ _ _ Hrn). }
  split; [done|].
  assert (forall j, Node.weight (node_at h2 j)
                    = Node.weight (node_at h j) + if decide (j = v) then 1 else 0)
    as Hw2.
  { intros j. subst h2. heap_simpl. rewrite !(rn_weight _ _ _ Hrn).
    case_decide; subst; lia. }
  assert (forall i l' r',
             Node.left (node_at h2 i) = Some l' ->
             Node.right (node_at h2 i) = Some r' ->
             Node.weight (node_at h2 i)
             + (if decide (l' = v) then 1 else 0)
             + (if decide (r' = v) then 1 else 0)
             = Node.weight (node_at h2 l') + Node.weight (node_at h2 r')) as Hsum.
  { intros i l' r'. unfold h2 at 1 2. heap_simpl.
    rewrite (rn_left _ _ _ Hrn), (rn_right _ _ _ Hrn).
    destruct (Node.left (node_at h i)) as [l|] eqn:El; [|done].
    destruct (Node.right (node_at h i)) as [r|] eqn:Er; [|done].
    simpl. intros [= <-] [= <-]. rewrite !Hw2, !Hw.
    pose proof (Hadd i l r El Er). lia. }
  assert (forall i l' r',
             Node.left (node_at h2 i) = Some l' ->
             Node.right (node_at h2 i) = Some r' ->
             (if decide (l' = v) then 1 else 0)
             + (if decide (r' = v) then 1 else 0)
             = if decide (Node.parent (node_at h2 v) = Some i) then 1 else 0)
    as Hcount.
  { intros i l' r' El Er.
    pose proof (wf_distinct _ Hwf2 i l' El) as Hd.
    destruct (decide (l' = v)) as [-> | Hl].
    - destruct (wf_left _ Hwf2 _ _ El) as [_ Hp].
      rewrite decide_False by congruence. by rewrite decide_True.
    - destruct (decide (r' = v)) as [-> | Hr].
      + destruct (wf_right _ Hwf2 _ _ Er) as [_ Hp]. by rewrite decide_True.
      + rewrite decide_False; [done|]. intros Hp.
        destruct (wf_parent _ Hwf2 _ _ Hp) as [_ [? | ?]]; congruence. }
  destruct (Node.parent (node_at h2 v)) as [p|] eqn:Ep.
  - destruct (wf_parent _ Hwf2 _ _ Ep) as [Hp Hchild].
    split; [done|]. split.
    + intros ->. pose proof (wf_nyt_leaf _ Hwf2) as Hl.
      destruct Hchild as [? | Hr]; [congruence|].
      apply (wf_both _ Hwf2) in Hl. congruence.
    + intros i l' r' El Er.
      pose proof (Hsum i l' r' El Er) as Hs. pose proof (Hcount i l' r' El Er) as Hc.
      destruct (decide (i = p)) as [-> | ?].
      * destruct (decide (Some p = Some p)); [|done].
        destruct (decide (l' = v)), (decide (r' = v)); lia.
      * destruct (decide (Some p = Some i)); [congruence|].
        destruct (decide (l' = v)), (decide (r' = v)); lia.
  - intros i l' r' El Er.
    pose proof (Hsum i l' r' El Er) as Hs. pose proof (Hcount i l' r' El Er) as Hc.
    destruct (decide (None = Some i)); [done|].
    destruct (decide (l' = v)), (decide (r' = v)); lia.
Qed.

Lemma is_ancestor_loop_not_raised fuel h anc cur e :
  is_ancestor_loop fuel h anc cur <> Raised e.
Proof.
  revert cur. induction fuel as [|f IH]; intros [c|]; simpl; try done.
  destruct (Nat.eqb c anc); [done | apply IH].
Qed.

Lemma find_highest_loop_not_raised fuel h tw v stack highest e :
  find_highest_loop fuel h tw v stack highest <> Raised e.
Proof.
  revert stack highest.
  induction fuel as [|f IH]; intros [|cur stack] highest; simpl; try done.
  destruct (_ && _); simpl; [| apply IH].
  unfold is_ancestor.
  pose proof (is_ancestor_loop_not_raised f h cur (Node.parent (node_at h v))) as Hn.
  destruct (is_ancestor_loop f h cur _) as [b| |]; simpl; [apply IH | | done].
  by destruct (Hn e0).
Qed.

Lemma reach_valid h s u :
  wf h -> (s < size h)%nat -> reach h s u -> (u < size h)%nat.
Proof.
  intros Hwf Hs Hreach. induction Hreach as [s | s c u Hl _ IH | s c u Hr _ IH]; [done | |].
  - apply IH. by destruct (wf_left _ Hwf _ _ Hl).
  - apply IH. by destruct (wf_right _ Hwf _ _ Hr).
Qed.

Lemma find_highest_valid fuel h v hd :
  wf h -> (v < size h)%nat ->
  find_highest_node_in_block fuel h v = Done hd ->
  (hd < size h)%nat /\
  Node.weight (node_at h hd) = Node.weight (node_at h v).
Proof.
  intros Hwf Hv Hfind.
  destruct (find_highest_loop_spec _ _ _ _ _ _ _ Hfind)
    as (_ & [-> | ((s & [<- | []] & Hreach) & Hw & _)] & _); [done|].
  split; [| done]. apply (reach_valid h (root h) hd Hwf (wf_root _ Hwf) Hreach).
Qed.

Lemma increment_step_spec fuel v h :
  pending_at h (Some v) ->
  match increment_step fuel v h with
  | (Done next, h') => pending_at h' next
  | (Raised _, _) => False
  | (OutOfFuel, _) => True
  end.
Proof.
  intros (Hwf & Hv & Hnyt & Hadd). unfold increment_step, bind at 1, lift at 1.
  destruct (find_highest_node_in_block fuel h v) as [hd| |] eqn:Hfind; [| | done].
  2: { by apply find_highest_loop_not_raised in Hfind. }
  destruct (find_highest_valid _ _ _ _ Hwf Hv Hfind) as [Hhd Hw].
  unfold bind at 1, lift at 1.
  assert (exists h1 t,
    (if negb (Nat.eqb hd v)
        && negb (bool_decide (Node.parent (node_at h v) = Some hd))
        && negb (bool_decide (Node.parent (node_at h hd) = Some v))
     then swap_nodes v hd else ret tt) h = (Done tt, h1) /\
    renamed t h h1 /\
    (forall j, t (t j) = j) /\
    (forall j, (j < size h)%nat -> (t j < size h)%nat) /\
    (forall i, Node.parent (node_at h (t i)) <> Some i) /\
    (forall j, Node.weight (node_at h (t j)) = Node.weight (node_at h j)))
    as (h1 & t & Hswap & Hrn & Hinv & Hval & Hself & Hwt).
  { assert (exists h1 t, (ret tt : M unit) h = (Done tt, h1) /\ renamed t h h1 /\
              (forall j, t (t j) = j) /\
              (forall j, (j < size h)%nat -> (t j < size h)%nat) /\
              (forall i, Node.parent (node_at h (t i)) <> Some i) /\
              (forall j, Node.weight (node_at h (t j)) = Node.weight (node_at h j)))
      as Hid.
    { exists h, id. split; [done|]. split; [apply renamed_refl|].
      repeat split; try done. intros i. apply (wf_noself _ Hwf). }
    destruct (Nat.eqb_spec hd v) as [-> | Hne]; simpl; [done|].
    destruct (bool_decide_reflect (Node.parent (node_at h v) = Some hd)) as [|Hpv];
      simpl; [done|].
    destruct (bool_decide_reflect (Node.parent (node_at h hd) = Some v)) as [|Hph];
      simpl; [done|].
    destruct (swap_nodes_spec h v hd Hwf Hv Hhd ltac:(done) Hpv Hph)
      as (h1 & Hswap & [Hrn | Hrn]).
    - exists h1, id. split; [done|]. split; [done|].
      repeat split; try done. intros i. apply (wf_noself _ Hwf).
    - exists h1, (transp v hd). split; [done|]. split; [done|].
      split; [apply transp_invol|]. split; [| split].
      + intros j Hj. unfold transp. repeat case_decide; done.
      + intros i. unfold transp. repeat case_decide; subst; try done.
        apply (wf_noself _ Hwf).
      + intros j. unfold transp. repeat case_decide; subst; done. }
  unfold bind at 1. cbv beta. rewrite Hswap. unfold bind, update, lift. cbv beta iota.
  by apply (increment_tail h h1 t v).
Qed.

Lemma increment_weight_spec fuel node h :
  pending_at h node ->
  match increment_weight fuel node h with
  | (Done _, h') => wf h' /\ additive h'
  | (Raised _, _) => False
  | (OutOfFuel, _) => True
  end.
Proof.
  revert node h. induction fuel as [|f IH]; intros [v|] h Hp; simpl; try done.
  unfold bind. pose proof (increment_step_spec f v h Hp) as Hstep.
  destruct (increment_step f v h) as [[next| |] h1]; [| done..].
  by apply IH.
Qed.

(** ** Allocation of the two nodes of a new word *)

Lemma node_at_ge h j :
  (size h <= j)%nat -> node_at h j = Node.new None 0 0 false false.
Proof. intros Hj. unfold node_at. by rewrite lookup_ge_None_2. Qed.

Section insert_prepare.
Variables (word : list Z) (h : AdaptiveHuffman).
Hypothesis Hwf : wf h.

Let N := size h.
Let h0 :=
  mkCodec (heap h ++ [Node.new (Some word) 0 (next_key h) false false]
                  ++ [Node.new None 0 (next_key h + 1) true false])
    (leaves h) (next_key h + 1 + 1) (nyt h) (ncw h) (root h).
Let h2 :=
  modify_node N (Node.set_parent (Some (nyt h)))
    (modify_node (S N) (Node.set_parent (Some (nyt h)))
       (modify_node (nyt h) (Node.set_right (Some N))
          (modify_node (nyt h) (Node.set_left (Some (S N)))
             (modify_node (nyt h) (Node.set_is_nyt false) h0)))).

Local Lemma size_h0 : size h0 = S (S N).
Proof. subst h0 N. cbn [heap]. rewrite !length_app. simpl. lia. Qed.

Local Lemma node_at_h0 j :
  node_at h0 j =
  if decide (j = N) then Node.new (Some word) 0 (next_key h) false false
  else if decide (j = S N) then Node.new None 0 (next_key h + 1) true false
  else node_at h j.
Proof.
  unfold node_at at 1. subst h0. cbn [heap].
  destruct (decide (j < N)%nat) as [Hlt | Hge].
  - rewrite lookup_app_l by done.
    rewrite decide_False by (subst N; lia). rewrite decide_False by (subst N; lia).
    done.
  - rewrite lookup_app_r by (subst N; lia).
    case_decide as H1; [subst j; by rewrite Nat.sub_diag|].
    case_decide as H2.
    + subst j. subst N. by replace (S (size h) - size h)%nat with 1%nat by lia.
    + rewrite node_at_ge by (subst N; lia).
      destruct (j - length (heap h))%nat as [|[|k]] eqn:E; [subst N; lia.. | done].
Qed.

Local Lemma nyt_lt : (nyt h < N)%nat.
Proof. apply (wf_nyt _ Hwf). Qed.

Local Lemma h2_fields j :
  Node.left (node_at h2 j)
    = (if decide (j = nyt h) then Some (S N) else Node.left (node_at h j)) /\
  Node.right (node_at h2 j)
    = (if decide (j = nyt h) then Some N else Node.right (node_at h j)) /\
  Node.parent (node_at h2 j)
    = (if decide (j = N) then Some (nyt h)
       else if decide (j = S N) then Some (nyt h)
       else Node.parent (node_at h j)) /\
  Node.weight (node_at h2 j) = Node.weight (node_at h j) /\
  Node.is_ncw (node_at h2 j) = Node.is_ncw (node_at h j) /\
  Node.is_nyt (node_at h2 j)
    = (if decide (j = nyt h) then false
       else if decide (j = S N) then true
       else Node.is_nyt (node_at h j)).
Proof.
  pose proof nyt_lt as Hn. pose proof size_h0 as Hs.
  assert (nyt h < size h0)%nat as H1 by lia.
  assert (N < size h0)%nat as H2 by lia.
  assert (S N < size h0)%nat as H3 by lia.
  assert (node_at h N = Node.new None 0 0 false false) as HN
    by (apply node_at_ge; subst N; lia).
  assert (node_at h (S N) = Node.new None 0 0 false false) as HSN
    by (apply node_at_ge; subst N; lia).
  subst h2. heap_simpl.
  assert (forall x,
    Node.is_nyt (node_at (modify_node (nyt h) (Node.set_is_nyt false) h0) x)
    = if decide (x = nyt h) then false else Node.is_nyt (node_at h0 x)) as Hflag.
  { intros x. case_decide as Hx; [subst; by rewrite node_at_modify_eq |
                                  by rewrite node_at_modify_ne]. }
  rewrite Hflag, !node_at_h0.
  repeat split; repeat case_decide; subst; rewrite ?HN, ?HSN; try done; lia.
Qed.

Lemma insert_prepare_node j :
  node_at (insert_prepare word h) j = node_at h2 j.
Proof. reflexivity. Qed.

Lemma insert_prepare_pending :
  additive h -> pending_at (insert_prepare word h) (Some N).
Proof.
  intros Hadd. pose proof nyt_lt as Hn.
  assert (size (insert_prepare word h) = S (S N)) as Hsize.
  { change (size (insert_prepare word h)) with (size h2).
    subst h2. heap_simpl. apply size_h0. }
  assert (node_at h N = Node.new None 0 0 false false) as HN
    by (apply node_at_ge; subst N; lia).
  assert (node_at h (S N) = Node.new None 0 0 false false) as HSN
    by (apply node_at_ge; subst N; lia).
  pose proof (wf_nyt_leaf _ Hwf) as Hleaf.
  pose proof (proj1 (wf_both _ Hwf (nyt h)) Hleaf) as Hleaf'.
  split; [| split; [lia | split; [change (nyt (insert_prepare word h)) with (S N); lia|]]].
  - constructor; rewrite ?Hsize.
    + change (root (insert_prepare word h)) with (root h).
      pose proof (wf_root _ Hwf). subst N. lia.
    + change (ncw (insert_prepare word h)) with (ncw h).
      pose proof (wf_ncw _ Hwf). subst N. lia.
    + change (nyt (insert_prepare word h)) with (S N). lia.
    + intros i c. rewrite !insert_prepare_node.
      destruct (h2_fields i) as (-> & _). destruct (h2_fields c) as (_ & _ & -> & _).
      case_decide as Hi.
      * intros [= <-]. split; [lia|]. subst i.
        rewrite decide_False by lia. by rewrite decide_True.
      * intros Hl. destruct (wf_left _ Hwf _ _ Hl) as [Hc Hp]. fold N in Hc.
        split; [lia|]. rewrite decide_False by lia. by rewrite decide_False by lia.
    + intros i c. rewrite !insert_prepare_node.
      destruct (h2_fields i) as (_ & -> & _). destruct (h2_fields c) as (_ & _ & -> & _).
      case_decide as Hi.
      * intros [= <-]. split; [lia|]. subst i. by rewrite decide_True.
      * intros Hr. destruct (wf_right _ Hwf _ _ Hr) as [Hc Hp]. fold N in Hc.
        split; [lia|]. rewrite decide_False by lia. by rewrite decide_False by lia.
    + intros i p. rewrite !insert_prepare_node.
      destruct (h2_fields i) as (_ & _ & -> & _).
      destruct (h2_fields p) as (-> & -> & _).
      case_decide as Hi; [| case_decide as Hi'].
      * intros [= <-]. split; [lia|]. rewrite !decide_True by done. by right; subst.
      * intros [= <-]. split; [lia|]. rewrite !decide_True by done. by left; subst.
      * intros Hp. destruct (wf_parent _ Hwf _ _ Hp) as [Hlt Hchild]. fold N in Hlt.
        split; [lia|].
        assert (p <> nyt h) as Hne by (intros ->; destruct Hchild; congruence).
        by rewrite !decide_False by done.
    + intros i. rewrite !insert_prepare_node.
      destruct (h2_fields i) as (-> & -> & _).
      case_decide; [done | apply (wf_both _ Hwf)].
    + intros i c. rewrite !insert_prepare_node.
      destruct (h2_fields i) as (-> & -> & _).
      case_decide; [intros [= <-] [=]; lia | apply (wf_distinct _ Hwf)].
    + intros i. rewrite !insert_prepare_node.
      destruct (h2_fields i) as (_ & _ & -> & _).
      repeat case_decide; subst; [intros [=]; lia.. | apply (wf_noself _ Hwf)].
    + change (nyt (insert_prepare word h)) with (S N). rewrite insert_prepare_node.
      destruct (h2_fields (S N)) as (-> & _).
      rewrite decide_False by lia. by rewrite HSN.
    + change (nyt (insert_prepare word h)) with (S N). rewrite insert_prepare_node.
      destruct (h2_fields (S N)) as (_ & _ & _ & -> & _). by rewrite HSN.
    + change (nyt (insert_prepare word h)) with (S N). rewrite insert_prepare_node.
      destruct (h2_fields (S N)) as (_ & _ & _ & _ & _ & ->).
      rewrite decide_False by lia. by rewrite decide_True.
    + change (nyt (insert_prepare word h)) with (S N). rewrite insert_prepare_node.
      destruct (h2_fields (S N)) as (_ & _ & _ & _ & -> & _). by rewrite HSN.
    + intros w i. change (leaves (insert_prepare word h))
        with (<[word := N]> (leaves h)).
      rewrite !insert_prepare_node.
      destruct (h2_fields i) as (-> & _ & _ & _ & _ & ->).
      destruct (decide (word = w)) as [-> | Hw].
      * rewrite lookup_insert_eq. intros [= <-]. split; [lia|].
        rewrite !decide_False by lia. by rewrite HN.
      * rewrite lookup_insert_ne by done. intros Hl.
        destruct (wf_leaves _ Hwf _ _ Hl) as (Hi & Hflag & Hleft). fold N in Hi.
        split; [lia|].
        assert (i <> nyt h) as Hne.
        { intros ->. rewrite (wf_nyt_flag _ Hwf) in Hflag. done. }
        repeat case_decide; first [done | lia].
  - intros i l r. rewrite !insert_prepare_node.
    destruct (h2_fields i) as (-> & -> & _ & -> & _).
    destruct (h2_fields l) as (_ & _ & _ & -> & _).
    destruct (h2_fields r) as (_ & _ & _ & -> & _).
    case_decide as Hi.
    + intros [= <-] [= <-]. subst i. rewrite decide_False by lia.
      rewrite HN, HSN, (wf_nyt_weight _ Hwf). done.
    + intros Hl Hr. rewrite decide_False.
      * rewrite (Hadd _ _ _ Hl Hr). lia.
      * intros ->. by rewrite HN in Hl.
Qed.
End insert_prepare.

(** ** Every call preserves the invariant *)

Lemma Inv_init : Inv init.
Proof.
  split.
  - constructor; try done; try (cbn; lia).
    + intros [|[|[|i]]] c; try done. intros [= <-]. split; [cbn; lia | done].
    + intros [|[|[|i]]] c; try done. intros [= <-]. split; [cbn; lia | done].
    + intros [|[|[|i]]] p; try done; intros [= <-]; (split; [cbn; lia|]); auto.
    + intros [|[|[|i]]]; done.
    + intros [|[|[|i]]] c; try done. by intros [= <-] [=].
    + intros [|[|[|i]]]; done.
  - intros [|[|[|i]]] l r; try done. intros [= <-] [= <-]. reflexivity.
Qed.

Lemma leaf_pending h v :
  Inv h -> (v < size h)%nat -> v <> nyt h -> Node.left (node_at h v) = None ->
  pending_at h (Some v).
Proof.
  intros [Hwf Hadd] Hv Hnyt Hleaf. split; [done|]. split; [done|]. split; [done|].
  intros i l r Hl Hr. rewrite decide_False by congruence.
  rewrite (Hadd _ _ _ Hl Hr). lia.
Qed.

Lemma insert_new_word_spec fuel word h :
  Inv h ->
  match insert_new_word fuel word h with
  | (Done _, h') => Inv h'
  | (Raised _, _) => False
  | (OutOfFuel, _) => True
  end.
Proof.
  intros [Hwf Hadd]. rewrite insert_new_word_eq.
  apply increment_weight_spec. by apply insert_prepare_pending.
Qed.

Lemma encode_word_spec fuel word writer h :
  Inv h ->
  match encode_word fuel word writer h with
  | (Done _, h') => Inv h'
  | (Raised _, h') => Inv h'
  | (OutOfFuel, _) => True
  end.
Proof.
  intros HI. destruct (leaves h !! word) as [leaf|] eqn:Hlook.
  - rewrite (encode_word_known fuel word writer h leaf Hlook).
    destruct (path_to_node fuel h leaf) as [path| |]; [| done..].
    unfold bind, ret.
    destruct (wf_leaves _ (proj1 HI) _ _ Hlook) as (Hlt & Hflag & Hleaf).
    assert (leaf <> nyt h) as Hne.
    { intros ->. rewrite (wf_nyt_flag _ (proj1 HI)) in Hflag. done. }
    pose proof (increment_weight_spec fuel (Some leaf) h
                  (leaf_pending h leaf HI Hlt Hne Hleaf)) as Hinc.
    by destruct (increment_weight fuel (Some leaf) h) as [[| |] ?].
  - unfold encode_word, bind at 1 2 3, lift at 1 2 3. rewrite Hlook.
    cbn [default]. destruct (path_to_node fuel h (ncw h)) as [path| |]; [| done..].
    rewrite bool_decide_eq_true_2 by done.
    unfold bind at 1, lift at 1.
    destruct (utf8_encode word) as [raw| |]; [| done..].
    destruct (2 ^ 16 <=? Z.of_nat (length raw)); [done|].
    unfold bind, ret.
    pose proof (insert_new_word_spec fuel word h HI) as Hins.
    by destruct (insert_new_word fuel word h) as [[| |] ?].
Qed.

Lemma encode_words_spec fuel first words writer h :
  Inv h ->
  match encode_words fuel first words writer h with
  | (Done _, h') => Inv h'
  | (Raised _, h') => Inv h'
  | (OutOfFuel, _) => True
  end.
Proof.
  revert first writer h. induction words as [|w ws IH]; intros first writer h HI;
    cbn [encode_words]; [done|].
  unfold bind at 1.
  assert (match (if first then ret writer else encode_word fuel [SPACE] writer) h with
          | (Done _, h') => Inv h'
          | (Raised _, h') => Inv h'
          | (OutOfFuel, _) => True
          end) as H1.
  { destruct first; [done | by apply encode_word_spec]. }
  destruct ((if first then ret writer else encode_word fuel [SPACE] writer) h)
    as [[w1| |] h1]; [| done..].
  unfold bind at 1. pose proof (encode_word_spec fuel w w1 h1 H1) as H2.
  destruct (encode_word fuel w w1 h1) as [[w2| |] h2]; [| done..].
  by apply IH.
Qed.

Lemma encode_spec fuel text h :
  Inv h -> fst (encode fuel text h) <> OutOfFuel -> Inv (snd (encode fuel text h)).
Proof.
  intros HI. unfold encode, bind, ret.
  pose proof (encode_words_spec fuel true
                match text with [] => [] | _ :: _ => split_space text end
                new_writer h HI) as Hs.
  by destruct (encode_words fuel true _ new_writer h) as [[| |] ?].
Qed.

(** ** Reader failures *)

Lemma read_bit_raised r e :
  read_bit r = Raised e -> e = NotEnoughBits /\ remaining_bits r < 1.
Proof.
  unfold read_bit. destruct (Z.ltb_spec (remaining_bits r) 1) as [Hlt | Hge].
  - by intros [= <-].
  - destruct (r_data r !! r_byte_pos r) eqn:Hlook; [done|].
    apply lookup_ge_None_1 in Hlook. unfold remaining_bits in Hge. lia.
Qed.

Lemma read_bit_exhausted r :
  remaining_bits r < 1 <-> read_bit r = Raised NotEnoughBits.
Proof.
  split.
  - intros Hlt. unfold read_bit. by destruct (Z.ltb_spec (remaining_bits r) 1); [|lia].
  - intros H. by destruct (read_bit_raised _ _ H).
Qed.

Lemma read_uint16_raised r e :
  read_uint16 r = Raised e <->
  e = TruncatedUint16 /\
  (length (r_data r) < r_byte_pos (align_to_byte r) + 2)%nat.
Proof.
  unfold read_uint16.
  assert (r_data (align_to_byte r) = r_data r) as -> by
    (unfold align_to_byte; by destruct (Nat.eqb _ _)).
  destruct (Nat.ltb_spec (length (r_data r)) (r_byte_pos (align_to_byte r) + 2));
    split; try done.
  - by intros [= <-].
  - by intros [-> _].
  - intros [_ ?]. lia.
Qed.

Lemma read_bytes_raised r len e :
  read_bytes r len = Raised e <->
  e = TruncatedBytes /\
  Z.of_nat (length (r_data r)) < Z.of_nat (r_byte_pos (align_to_byte r)) + len.
Proof.
  unfold read_bytes.
  assert (r_data (align_to_byte r) = r_data r) as -> by
    (unfold align_to_byte; by destruct (Nat.eqb _ _)).
  destruct (Z.ltb_spec (Z.of_nat (length (r_data r)))
              (Z.of_nat (r_byte_pos (align_to_byte r)) + len)); split; try done.
  - by intros [= <-].
  - by intros [-> _].
  - intros [_ ?]. lia.
Qed.

Lemma utf8_decode_raised bs e : utf8_decode bs = Raised e -> e = UnicodeDecodeError.
Proof.
  remember (length bs) as n eqn:Hn. revert bs Hn.
  induction (lt_wf n) as [n _ IH]. intros bs -> .
  assert (forall r, (length r < length bs)%nat ->
                    forall (k : list Z -> outcome (list Z)),
                      (forall s, k s <> Raised e) ->
                      obind (utf8_decode r) k = Raised e -> e = UnicodeDecodeError)
    as Hrec.
  { intros r Hlen k Hk Hob. destruct (utf8_decode r) as [s| |] eqn:Hr; simpl in Hob.
    - by destruct (Hk s).
    - injection Hob as ->. by apply (IH _ Hlen r eq_refl).
    - done. }
  destruct bs as [|b0 r0]; [done|]. cbn [utf8_decode].
  repeat first
    [ match goal with
      | |- Raised _ = Raised _ -> _ => by intros [= <-]
      | |- obind _ _ = Raised _ -> _ =>
          apply Hrec; [simpl; lia | by intros]
      | |- (if ?c then _ else _) = _ -> _ => destruct c
      | |- match ?l with [] => _ | _ :: _ => _ end = _ -> _ => destruct l
      end ].
Qed.

(** ** The root-to-leaf walk *)

Lemma walk_spec fuel h node reader :
  wf h -> (node < size h)%nat ->
  match walk fuel h node reader with
  | Done (n, _) => (n < size h)%nat /\ Node.left (node_at h n) = None
  | Raised e => e = NotEnoughBits
  | OutOfFuel => True
  end.
Proof.
  intros Hwf. revert node reader.
  induction fuel as [|f IH]; intros node reader Hnode; simpl.
  - unfold Node.is_leaf.
    destruct (Node.left (node_at h node)) eqn:Hl; [done|].
    by destruct (Node.right (node_at h node)).
  - unfold Node.is_leaf.
    destruct (Node.left (node_at h node)) as [l|] eqn:Hl.
    + destruct (Node.right (node_at h node)) as [r|] eqn:Hr.
      2: { apply (wf_both _ Hwf) in Hr. congruence. }
      destruct (read_bit reader) as [[bit r']| |] eqn:Hbit; simpl; [| | done].
      * destruct bit.
        -- apply IH. by destruct (wf_right _ Hwf _ _ Hr).
        -- apply IH. by destruct (wf_left _ Hwf _ _ Hl).
      * by destruct (read_bit_raised _ _ Hbit).
    + destruct (Node.right (node_at h node)) as [r|] eqn:Hr; [| done].
      apply (wf_both _ Hwf) in Hl. congruence.
Qed.

Lemma decode_next_word_spec fuel reader h :
  Inv h ->
  match decode_next_word fuel reader h with
  | (Done _, h') => Inv h'
  | (Raised e, h') => Inv h' /\ decode_error e
  | (OutOfFuel, _) => True
  end.
Proof.
  intros HI. pose proof (walk_spec fuel h (root h) reader (proj1 HI)
                           (wf_root _ (proj1 HI))) as Hwalk.
  unfold decode_next_word, bind at 1, lift at 1.
  destruct (walk fuel h (root h) reader) as [[node r1]| |]; [| | done].
  2: { split; [done|]. by left. }
  destruct Hwalk as [Hnode Hleaf].
  unfold bind at 1, lift at 1. unfold bind at 1, lift at 1.
  destruct (Node.is_ncw (node_at h node)) eqn:Hncw.
  - assert (node <> nyt h) as Hne.
    { intros ->. rewrite (wf_nyt_not_ncw _ (proj1 HI)) in Hncw. done. }
    unfold bind at 1.
    pose proof (increment_weight_spec fuel (Some node) h
                  (leaf_pending h node HI Hnode Hne Hleaf)) as Hinc.
    destruct (increment_weight fuel (Some node) h) as [[| |] h1]; [| done..].
    unfold bind at 1, lift at 1.
    destruct (read_uint16 (align_to_byte r1)) as [[len r2]| |] eqn:H16; [| | done].
    2: { apply read_uint16_raised in H16 as [-> _]. split; [done|]. right. by left. }
    unfold bind at 1, lift at 1.
    destruct (read_bytes r2 len) as [[raw r3]| |] eqn:Hbytes; [| | done].
    2: { apply read_bytes_raised in Hbytes as [-> _].
         split; [done|]. right. right. by left. }
    unfold bind at 1, lift at 1.
    destruct (utf8_decode raw) as [word| |] eqn:Hutf; [| | done].
    2: { apply utf8_decode_raised in Hutf as ->.
         split; [done|]. right. right. by right. }
    unfold bind, ret.
    pose proof (insert_new_word_spec fuel word h1 Hinc) as Hins.
    by destruct (insert_new_word fuel word h1) as [[| |] h2].
  - destruct (Node.is_nyt (node_at h node)) eqn:Hnyt; [done|].
    assert (node <> nyt h) as Hne.
    { intros ->. rewrite (wf_nyt_flag _ (proj1 HI)) in Hnyt. done. }
    unfold bind, lift, ret.
    pose proof (increment_weight_spec fuel (Some node) h
                  (leaf_pending h node HI Hnode Hne Hleaf)) as Hinc.
    by destruct (increment_weight fuel (Some node) h) as [[| |] h1].
Qed.

Lemma decode_loop_spec fuel reader words h :
  Inv h ->
  match decode_loop fuel reader words h with
  | (Done _, h') => Inv h'
  | (Raised e, h') => Inv h' /\ decode_error e
  | (OutOfFuel, _) => True
  end.
Proof.
  revert reader words h. induction fuel as [|f IH]; intros reader words h HI; simpl.
  - by destruct (has_bits reader).
  - destruct (has_bits reader); [| done].
    unfold bind. pose proof (decode_next_word_spec f reader h HI) as Hn.
    destruct (decode_next_word f reader h) as [[[word r]| |] h1]; [| done..].
    destruct (bool_decide (word = [SPACE])); by apply IH.
Qed.

Lemma decode_spec fuel data h :
  Inv h ->
  match decode fuel data h with
  | (Done _, h') => Inv h'
  | (Raised e, h') => Inv h' /\ decode_error e
  | (OutOfFuel, _) => True
  end.
Proof.
  intros HI. unfold decode, bind, ret.
  pose proof (decode_loop_spec fuel (new_reader data) [] h HI) as Hl.
  by destruct (decode_loop fuel (new_reader data) [] h) as [[| |] ?].
Qed.

Lemma reachable_Inv h : reachable h -> Inv h.
Proof.
  induction 1 as [| h fuel text _ IH Hne | h fuel data _ IH Hne].
  - apply Inv_init.
  - by apply encode_spec.
  - pose proof (decode_spec fuel data h IH) as Hd.
    destruct (decode fuel data h) as [[| |] h']; simpl in *; [done | by destruct Hd | done].
Qed.

(** C4.  In every state that a sequence of [encode] and [decode] calls can
    leave behind (calls that raise included), every node that is not a leaf
    has two children and its weight is the sum of their weights.  This holds
    for every node of the heap, hence for every node of the tree. *)
Theorem internal_weight_is_sum_of_children h i :
  reachable h ->
  Node.is_leaf (node_at h i) = false ->
  exists l r,
    Node.left (node_at h i) = Some l /\ Node.right (node_at h i) = Some r /\
    Node.weight (node_at h i)
    = Node.weight (node_at h l) + Node.weight (node_at h r).
Proof.
  intros [Hwf Hadd]%reachable_Inv Hleaf. unfold Node.is_leaf in Hleaf.
  destruct (Node.left (node_at h i)) as [l|] eqn:Hl.
  - destruct (Node.right (node_at h i)) as [r|] eqn:Hr.
    + exists l, r. split; [done|]. split; [done|]. by apply Hadd.
    + apply (wf_both _ Hwf) in Hr. congruence.
  - destruct (Node.right (node_at h i)) as [r|] eqn:Hr; [| done].
    apply (wf_both _ Hwf) in Hl. congruence.
Qed.

Lemma internal_weight_is_sum_of_children_witness :
  reachable (snd (decode 20 [128; 0; 1; 97] init)) /\
  Node.is_leaf (node_at (snd (decode 20 [128; 0; 1; 97] init)) 2) = false /\
  exists l r,
    Node.left (node_at (snd (decode 20 [128; 0; 1; 97] init)) 2) = Some l /\
    Node.right (node_at (snd (decode 20 [128; 0; 1; 97] init)) 2) = Some r /\
    Node.weight (node_at (snd (decode 20 [128; 0; 1; 97] init)) 2)
    = Node.weight (node_at (snd (decode 20 [128; 0; 1; 97] init)) l)
      + Node.weight (node_at (snd (decode 20 [128; 0; 1; 97] init)) r).
Proof.
  assert (reachable (snd (decode 20 [128; 0; 1; 97] init))) as Hreach.
  { apply reachable_decode; [apply reachable_init | by vm_compute]. }
  split; [exact Hreach|]. split; [by vm_compute|].
  apply (internal_weight_is_sum_of_children _ 2 Hreach). by vm_compute.
Defined.

Lemma token_failure_decode_error fuel h reader e :
  token_failure fuel h reader e -> decode_error e /\ is_ValueError e = true.
Proof. unfold decode_error. destruct 1; auto 10. Qed.

Lemma decode_next_word_raised fuel reader h e :
  Inv h ->
  fst (decode_next_word fuel reader h) = Raised e <-> token_failure fuel h reader e.
Proof.
  intros HI. split.
  - pose proof (walk_spec fuel h (root h) reader (proj1 HI)
                  (wf_root _ (proj1 HI))) as Hwalk.
    destruct (walk fuel h (root h) reader) as [[node r1]| |] eqn:Ew.
    + destruct Hwalk as [Hnode Hleaf].
      destruct (Node.is_ncw (node_at h node)) eqn:Hncw.
      * rewrite (decode_next_word_at_ncw fuel reader h node r1 Ew Hncw).
        unfold decode_new_word_steps, bind at 1.
        assert (node <> nyt h) as Hne.
        { intros ->. rewrite (wf_nyt_not_ncw _ (proj1 HI)) in Hncw. done. }
        pose proof (increment_weight_spec fuel (Some node) h
                      (leaf_pending h node HI Hnode Hne Hleaf)) as Hinc.
        destruct (increment_weight fuel (Some node) h) as [[[]| |] h1] eqn:Ei;
          [| done..].
        unfold bind at 1, lift at 1.
        destruct (read_uint16 (align_to_byte r1)) as [[len r2]| |] eqn:H16; [| | done].
        2: { intros [= <-]. pose proof H16 as H16'.
             apply read_uint16_raised in H16' as [-> _]. by eapply fail_header. }
        unfold bind at 1, lift at 1.
        destruct (read_bytes r2 len) as [[raw r3]| |] eqn:Hbytes; [| | done].
        2: { intros [= <-]. pose proof Hbytes as Hb'.
             apply read_bytes_raised in Hb' as [-> _]. by eapply fail_payload. }
        unfold bind at 1, lift at 1.
        destruct (utf8_decode raw) as [word| |] eqn:Hutf; [| | done].
        2: { intros [= <-]. pose proof Hutf as Hu'.
             apply utf8_decode_raised in Hu' as ->. by eapply fail_text. }
        unfold bind, ret.
        pose proof (insert_new_word_spec fuel word h1 Hinc) as Hins.
        by destruct (insert_new_word fuel word h1) as [[| |] h2].
      * destruct (Node.is_nyt (node_at h node)) eqn:Hnyt.
        -- by rewrite (decode_next_word_at_nyt fuel reader h node r1 Ew Hncw Hnyt).
        -- rewrite (decode_next_word_at_word fuel reader h node r1 Ew Hncw Hnyt).
           assert (node <> nyt h) as Hne.
           { intros ->. rewrite (wf_nyt_flag _ (proj1 HI)) in Hnyt. done. }
           unfold bind, lift, ret.
           pose proof (increment_weight_spec fuel (Some node) h
                         (leaf_pending h node HI Hnode Hne Hleaf)) as Hinc.
           by destruct (increment_weight fuel (Some node) h) as [[| |] h1].
    + subst e0. unfold decode_next_word, bind at 1, lift at 1. rewrite Ew.
      intros [= <-]. by apply fail_mid_path.
    + unfold decode_next_word, bind at 1, lift at 1. by rewrite Ew.
  - intros Hfail. destruct Hfail as [Hw | node r1 h1 Hw Hncw Hinc H16
        | node r1 h1 len r2 Hw Hncw Hinc H16 Hb
        | node r1 h1 len r2 raw r3 Hw Hncw Hinc H16 Hb Hu].
    + unfold decode_next_word, bind at 1, lift at 1. by rewrite Hw.
    + rewrite (decode_next_word_at_ncw fuel reader h node r1 Hw Hncw).
      unfold decode_new_word_steps, bind at 1. rewrite Hinc.
      unfold bind at 1, lift at 1. by rewrite H16.
    + rewrite (decode_next_word_at_ncw fuel reader h node r1 Hw Hncw).
      unfold decode_new_word_steps, bind at 1. rewrite Hinc.
      unfold bind at 1, lift at 1. rewrite H16.
      unfold bind at 1, lift at 1. by rewrite Hb.
    + rewrite (decode_next_word_at_ncw fuel reader h node r1 Hw Hncw).
      unfold decode_new_word_steps, bind at 1. rewrite Hinc.
      unfold bind at 1, lift at 1. rewrite H16.
      unfold bind at 1, lift at 1. rewrite Hb.
      unfold bind at 1, lift at 1. by rewrite Hu.
Qed.

Lemma decode_loop_raised fuel reader words h e :
  Inv h ->
  fst (decode_loop fuel reader words h) = Raised e ->
  exists fuel' h' reader',
    Inv h' /\ fst (decode_next_word fuel' reader' h') = Raised e.
Proof.
  revert reader words h. induction fuel as [|f IH]; intros reader words h HI; simpl.
  - by destruct (has_bits reader).
  - destruct (has_bits reader); [| done].
    unfold bind. pose proof (decode_next_word_spec f reader h HI) as Hn.
    destruct (decode_next_word f reader h) as [[[word r]| |] h1] eqn:En; [| | done].
    + destruct (bool_decide (word = [SPACE])); by apply IH.
    + intros [= <-]. exists f, h, reader. split; [done|]. by rewrite En.
Qed.

(** When a call fails.  On every reachable state, decoding one token raises
    exactly when the walk, [read_uint16], [read_bytes] or the text decoding
    raises at that token, and every exception that [decode] raises is one of
    these four, each of which is a [ValueError].  Nothing is said here about
    a call that never returns. *)
Lemma decode_raises_decode_errors_only h :
  reachable h ->
  (forall fuel reader e,
      fst (decode_next_word fuel reader h) = Raised e
      <-> token_failure fuel h reader e) /\
  (forall fuel data e,
      fst (decode fuel data h) = Raised e ->
      decode_error e /\ is_ValueError e = true).
Proof.
  intros HI%reachable_Inv. split.
  - intros fuel reader e. by apply decode_next_word_raised.
  - intros fuel data e. unfold decode, bind, ret.
    destruct (decode_loop fuel (new_reader data) [] h) as [[ws| |] h1] eqn:El;
      [done | | done].
    cbn [fst]. intros [= ->].
    destruct (decode_loop_raised fuel (new_reader data) [] h e HI)
      as (f' & h' & r' & HI' & Hn); [by rewrite El|].
    apply (decode_next_word_raised f' r' h' e HI') in Hn.
    by apply token_failure_decode_error in Hn.
Qed.

Example decode_truncated_header :
  fst (decode 20 [128; 0] init) = Raised TruncatedUint16.
Proof. by vm_compute. Qed.

Example decode_truncated_payload :
  fst (decode 20 [128; 0; 5; 97] init) = Raised TruncatedBytes.
Proof. by vm_compute. Qed.

Example decode_invalid_text :
  fst (decode 20 [128; 0; 1; 255] init) = Raised UnicodeDecodeError.
Proof. by vm_compute. Qed.

Example decode_exhausted_mid_path :
  fst (decode 30 [128; 0; 1; 97; 128; 0; 1; 98; 73] init) = Raised NotEnoughBits.
Proof. by vm_compute. Qed.

(** * Bit streams, text, labels and paths *)

(** ** Bit streams *)

Lemma length_bits_of d : length (bits_of d) = (8 * length d)%nat.
Proof. induction d as [|b d IH]; [done|]. cbn [bits_of]. rewrite length_app, IH. simpl. lia. Qed.

Lemma bits_of_app d1 d2 : bits_of (d1 ++ d2) = bits_of d1 ++ bits_of d2.
Proof. induction d1 as [|b d IH]; [done|]. cbn [bits_of app]. by rewrite IH, app_assoc. Qed.

Lemma bits_of_lookup d p q :
  (q < 8)%nat ->
  bits_of d !! (8 * p + q)%nat
  = (fun b => Z.testbit b (Z.of_nat (7 - q))) <$> d !! p.
Proof.
  intros Hq. revert p. induction d as [|b d IH]; intros p.
  - by rewrite !lookup_nil.
  - cbn [bits_of]. destruct p as [|p].
    + rewrite lookup_app_l by (simpl; lia). simpl.
      by do 8 (destruct q as [|q]; [done|]); lia.
    + rewrite lookup_app_r by (simpl; lia).
      replace (8 * S p + q - length (bits_of_byte b))%nat with (8 * p + q)%nat
        by (simpl; lia).
      by rewrite IH.
Qed.

Lemma land_shiftr_testbit x k :
  0 <= k -> negb (Z.land (Z.shiftr x k) 1 =? 0) = Z.testbit x k.
Proof.
  intros Hk. change 1 with (Z.ones 1) at 1. rewrite Z.land_ones by lia.
  change (2 ^ 1) with 2. rewrite <- Z.bit0_mod, Z.shiftr_spec by lia.
  rewrite Z.add_0_l. by destruct (Z.testbit x k).
Qed.

(** [read_bit] takes the first of the upcoming bits. *)
Lemma read_bit_upcoming r b rest :
  (r_bit_pos r < 8)%nat ->
  upcoming r = b :: rest ->
  exists r', read_bit r = Done (b, r') /\ upcoming r' = rest /\
             (r_bit_pos r' < 8)%nat /\ r_data r' = r_data r /\
             bit_index r' = S (bit_index r).
Proof.
  intros Hq Hup. unfold upcoming in Hup.
  assert (bits_of (r_data r) !! bit_index r = Some b) as Hlook.
  { rewrite <- (Nat.add_0_r (bit_index r)), <- lookup_drop, Hup. done. }
  assert (rest = drop (S (bit_index r)) (bits_of (r_data r))) as ->.
  { replace (S (bit_index r)) with (bit_index r + 1)%nat by lia.
    by rewrite <- drop_drop, Hup. }
  unfold bit_index in Hlook. rewrite bits_of_lookup in Hlook by done.
  destruct (r_data r !! r_byte_pos r) as [byte|] eqn:Hbyte; [|done].
  injection Hlook as <-.
  pose proof (lookup_lt_Some _ _ _ Hbyte) as Hlt.
  unfold read_bit.
  destruct (Z.ltb_spec (remaining_bits r) 1) as [Hrem|_].
  { unfold remaining_bits in Hrem. lia. }
  rewrite Hbyte.
  replace (7 - Z.of_nat (r_bit_pos r)) with (Z.of_nat (7 - r_bit_pos r)) by lia.
  rewrite land_shiftr_testbit by lia.
  eexists. split; [done|].
  destruct (Nat.eqb_spec (S (r_bit_pos r)) 8) as [H8|H8]; unfold upcoming, bit_index;
    cbn [r_data r_byte_pos r_bit_pos].
  - split; [f_equal; lia|]. split; [lia|]. split; [done|]. lia.
  - split; [f_equal; lia|]. split; [lia|]. split; [done|]. lia.
Qed.

Lemma read_bits_upcoming bs r rest :
  (r_bit_pos r < 8)%nat ->
  upcoming r = bs ++ rest ->
  exists r', read_bits (length bs) r = Done (bs, r') /\ upcoming r' = rest /\
             (r_bit_pos r' < 8)%nat /\ r_data r' = r_data r /\
             bit_index r' = (bit_index r + length bs)%nat.
Proof.
  revert r. induction bs as [|b bs IH]; intros r Hq Hup.
  - exists r. simpl. repeat split; try done; unfold bit_index; simpl; lia.
  - destruct (read_bit_upcoming r b (bs ++ rest) Hq Hup)
      as (r1 & Hread & Hup1 & Hq1 & Hd1 & Hi1).
    destruct (IH r1 Hq1 Hup1) as (r2 & Hreads & Hup2 & Hq2 & Hd2 & Hi2).
    exists r2. cbn [read_bits length]. rewrite Hread. cbn [obind].
    rewrite Hreads. cbn [obind]. repeat split; try done; [congruence | lia].
Qed.

(** ** The writer *)

Lemma lor_shiftl_b2z c b : Z.lor (Z.shiftl c 1) (Z.b2z b) = 2 * c + Z.b2z b.
Proof.
  apply Z.bits_inj'. intros n Hn. rewrite Z.lor_spec.
  destruct (Z.eq_dec n 0) as [-> | Hn0].
  - rewrite Z.shiftl_spec_low by lia. rewrite Z.testbit_0_r. by destruct b.
  - replace n with (Z.succ (n - 1)) by lia.
    rewrite Z.testbit_succ_r, Z.shiftl_spec by lia.
    replace (Z.succ (n - 1) - 1) with (n - 1) by lia.
    replace (Z.b2z b) with (2 * 0 + Z.b2z b) at 1 by lia.
    rewrite Z.testbit_succ_r by lia. rewrite Z.testbit_0_l. apply orb_false_r.
Qed.

Lemma pending_bits_step c b n :
  map (fun i => Z.testbit (2 * c + Z.b2z b) (Z.of_nat i)) (rev (seq 0 (S n)))
  = map (fun i => Z.testbit c (Z.of_nat i)) (rev (seq 0 n)) ++ [b].
Proof.
  change (seq 0 (S n)) with (0%nat :: seq 1 n).
  rewrite <- seq_shift. cbn [rev]. rewrite map_app. f_equal.
  - rewrite <- map_rev, map_map. apply map_ext. intros i.
    rewrite Nat2Z.inj_succ. apply Z.testbit_succ_r. lia.
  - cbn [map]. change (Z.of_nat 0) with 0. by rewrite Z.testbit_0_r.
Qed.

Lemma writer_ok_new : writer_ok new_writer.
Proof. split; [simpl; lia|]. split; [simpl; lia|]. by constructor. Qed.

Lemma add_bit_spec w b :
  writer_ok w ->
  writer_ok (add_bit w b) /\ written_bits (add_bit w b) = written_bits w ++ [b].
Proof.
  destruct w as [buf c f]. unfold writer_ok, written_bits, pending_bits, add_bit.
  cbn [w_buffer w_current w_filled]. intros (Hf & Hc & Hbuf).
  rewrite lor_shiftl_b2z.
  assert (0 <= 2 * c + Z.b2z b < 2 ^ (f + 1)) as Hc'.
  { rewrite Z.pow_add_r by lia. change (2 ^ 1) with 2. destruct b; simpl; lia. }
  pose proof (pending_bits_step c b (Z.to_nat f)) as Hstep.
  replace (S (Z.to_nat f)) with (Z.to_nat (f + 1)) in Hstep by lia.
  destruct (Z.eqb_spec (f + 1) 8) as [H8 | H8]; cbn [w_buffer w_current w_filled].
  - split.
    + split; [lia|]. split; [simpl; lia|]. apply Forall_app. split; [done|].
      constructor; [|done]. rewrite H8 in Hc'. simpl in Hc'. lia.
    + rewrite bits_of_app. cbn [bits_of]. rewrite !app_nil_r, <- app_assoc.
      f_equal. rewrite <- Hstep, H8. reflexivity.
  - split; [| by rewrite Hstep, app_assoc].
    split; [lia|]. by split.
Qed.

Lemma add_bits_spec bits w :
  writer_ok w ->
  writer_ok (add_bits w bits) /\ written_bits (add_bits w bits) = written_bits w ++ bits.
Proof.
  revert w. induction bits as [|b bits IH]; intros w Hok.
  - by rewrite app_nil_r.
  - destruct (add_bit_spec w b Hok) as [Hok1 Heq1].
    destruct (IH _ Hok1) as [Hok2 Heq2]. split; [done|].
    change (add_bits w (b :: bits)) with (add_bits (add_bit w b) bits).
    by rewrite Heq2, Heq1, <- app_assoc.
Qed.

Lemma flush_spec w :
  writer_ok w ->
  writer_ok (flush_to_byte w) /\
  w_filled (flush_to_byte w) = 0 /\
  written_bits (flush_to_byte w) = written_bits w ++ repeat false (padding w).
Proof.
  destruct w as [buf c f]. unfold writer_ok, written_bits, pending_bits, padding, flush_to_byte.
  cbn [w_buffer w_current w_filled]. intros (Hf & Hc & Hbuf).
  destruct (Z.eqb_spec f 0) as [-> | Hf0]; cbn [w_buffer w_current w_filled].
  - split; [done|]. split; [done|]. by rewrite !app_nil_r.
  - assert (f = 1 \/ f = 2 \/ f = 3 \/ f = 4 \/ f = 5 \/ f = 6 \/ f = 7) as Hcases by lia.
    split; [| split; [done|]].
    + split; [lia|]. split; [simpl; lia|]. apply Forall_app. split; [done|].
      constructor; [|done]. rewrite Z.shiftl_mul_pow2 by lia.
      destruct Hcases as [-> | [-> | [-> | [-> | [-> | [-> | ->]]]]]]; simpl in *; lia.
    + rewrite bits_of_app, app_nil_r, <- app_assoc. f_equal.
      cbn [bits_of]. rewrite app_nil_r. unfold bits_of_byte. cbn [map].
      rewrite !Z.shiftl_spec by lia.
      destruct Hcases as [-> | [-> | [-> | [-> | [-> | [-> | ->]]]]]]; reflexivity.
Qed.

Lemma padding_lt w : writer_ok w -> (padding w < 8)%nat.
Proof.
  intros (Hf & _). unfold padding. destruct (Z.eqb_spec (w_filled w) 0); lia.
Qed.

Lemma padding_fill w :
  writer_ok w ->
  (length (written_bits w) + padding w = 8 * length (w_buffer (flush_to_byte w)))%nat.
Proof.
  intros Hok. destruct (flush_spec w Hok) as (_ & Hf0 & Heq).
  apply (f_equal length) in Heq. rewrite length_app, repeat_length in Heq.
  rewrite <- Heq. unfold written_bits, pending_bits. rewrite Hf0.
  rewrite length_app, length_bits_of. simpl. lia.
Qed.

Lemma written_bits_new : written_bits new_writer = [].
Proof. reflexivity. Qed.

Lemma get_data_bits w :
  writer_ok w ->
  bits_of (get_data w) = written_bits w ++ repeat false (padding w).
Proof.
  intros Hok. destruct (flush_spec w Hok) as (_ & Hf0 & Heq).
  rewrite <- Heq. unfold get_data, written_bits, pending_bits. rewrite Hf0.
  simpl. by rewrite app_nil_r.
Qed.

Lemma get_data_length w :
  writer_ok w ->
  (length (written_bits w) + padding w = 8 * length (get_data w))%nat.
Proof. apply padding_fill. Qed.

Lemma align_after_bits d bp q n pad len :
  (q < 8)%nat -> (pad < 8)%nat ->
  (8 * bp + q = n)%nat -> (n + pad = 8 * len)%nat ->
  align_to_byte (mkReader d bp q) = mkReader d len 0.
Proof.
  intros Hq Hpad Hn Hlen. unfold align_to_byte. cbn [r_bit_pos r_data r_byte_pos].
  destruct (Nat.eqb_spec q 0) as [-> | Hq0]; f_equal; lia.
Qed.

Lemma bits_round_trip_aux bits rest :
  let data := get_data (add_bits new_writer bits) in
  exists r,
    read_bits (length bits) (new_reader (data ++ rest)) = Done (bits, r) /\
    align_to_byte r = mkReader (data ++ rest) (length data) 0.
Proof.
  intros data.
  destruct (add_bits_spec bits new_writer writer_ok_new) as [Hok Hbits].
  rewrite written_bits_new in Hbits. simpl in Hbits.
  pose proof (get_data_bits _ Hok) as Hdata.
  pose proof (get_data_length _ Hok) as Hlen.
  pose proof (padding_lt _ Hok) as Hpad.
  rewrite Hbits in Hdata, Hlen. fold data in Hdata, Hlen.
  destruct (read_bits_upcoming bits (new_reader (data ++ rest))
              (repeat false (padding (add_bits new_writer bits)) ++ bits_of rest))
    as (r & Hread & _ & Hq & Hd & Hi).
  { simpl. lia. }
  { unfold upcoming, bit_index. simpl. by rewrite bits_of_app, Hdata, <- app_assoc. }
  exists r. split; [done|]. destruct r as [d bp q]. simpl in Hd. subst d.
  unfold bit_index in Hi. simpl in Hi, Hq.
  eapply align_after_bits; [done | exact Hpad | exact Hi | exact Hlen].
Qed.

Lemma get_data_add_bits_length bits :
  length (get_data (add_bits new_writer bits)) = ((length bits + 7) / 8)%nat.
Proof.
  destruct (add_bits_spec bits new_writer writer_ok_new) as [Hok Hbits].
  rewrite written_bits_new in Hbits. simpl in Hbits.
  pose proof (get_data_length _ Hok) as Hlen.
  pose proof (padding_lt _ Hok) as Hpad.
  rewrite Hbits in Hlen.
  apply (Nat.div_unique _ 8 _ (7 - padding (add_bits new_writer bits))); lia.
Qed.

(** ** Byte-aligned fields *)

Lemma land_255 x : Z.land x 255 = x mod 256.
Proof. change 255 with (Z.ones 8). by rewrite Z.land_ones. Qed.

Lemma from_bytes_to_bytes2 v : 0 <= v < 2 ^ 16 -> from_bytes (to_bytes2 v) = v.
Proof.
  intros Hv. unfold from_bytes, to_bytes2. cbn [fold_left].
  rewrite !land_255, Z.shiftr_div_pow2 by lia. change (2 ^ 8) with 256.
  change (2 ^ 16) with 65536 in Hv.
  rewrite (Z.mod_small (v / 256)) by (split; [apply Z.div_pos; lia | apply Z.div_lt_upper_bound; lia]).
  pose proof (Z.div_mod v 256). lia.
Qed.

Lemma read_uint16_at r pre v post :
  0 <= v < 2 ^ 16 ->
  r_data r = pre ++ to_bytes2 v ++ post ->
  r_byte_pos (align_to_byte r) = length pre ->
  read_uint16 r = Done (v, mkReader (r_data r) (length pre + 2) 0).
Proof.
  intros Hv Hdata Hpos. unfold read_uint16.
  assert (r_data (align_to_byte r) = r_data r) as Hd.
  { unfold align_to_byte. by destruct (r_bit_pos r =? 0)%nat. }
  assert (r_bit_pos (align_to_byte r) = 0%nat) as Hb.
  { unfold align_to_byte. by destruct (Nat.eqb_spec (r_bit_pos r) 0). }
  rewrite Hd, Hpos, Hb, Hdata.
  destruct (Nat.ltb_spec (length (pre ++ to_bytes2 v ++ post)) (length pre + 2)) as [Hlt|_].
  { rewrite !length_app in Hlt. simpl in Hlt. lia. }
  rewrite drop_app_length. change (take 2 (to_bytes2 v ++ post)) with (to_bytes2 v).
  by rewrite from_bytes_to_bytes2.
Qed.

Lemma read_bytes_at r pre d post :
  r_data r = pre ++ d ++ post ->
  r_byte_pos (align_to_byte r) = length pre ->
  read_bytes r (Z.of_nat (length d))
  = Done (d, mkReader (r_data r) (length pre + length d) 0).
Proof.
  intros Hdata Hpos. unfold read_bytes.
  assert (r_data (align_to_byte r) = r_data r) as Hd.
  { unfold align_to_byte. by destruct (r_bit_pos r =? 0)%nat. }
  assert (r_bit_pos (align_to_byte r) = 0%nat) as Hb.
  { unfold align_to_byte. by destruct (Nat.eqb_spec (r_bit_pos r) 0). }
  rewrite Hd, Hpos, Hb, Hdata.
  destruct (Z.ltb_spec (Z.of_nat (length (pre ++ d ++ post)))
              (Z.of_nat (length pre) + Z.of_nat (length d))) as [Hlt|_].
  { rewrite !length_app in Hlt. lia. }
  rewrite drop_app_length, Nat2Z.id, take_app_length. done.
Qed.

(** ** One bit at a time *)

Lemma read_bit_has_bits r :
  (r_bit_pos r < 8)%nat -> has_bits r = true ->
  exists b r', read_bit r = Done (b, r') /\
               remaining_bits r' = remaining_bits r - 1 /\
               (r_bit_pos r' < 8)%nat /\ r_data r' = r_data r.
Proof.
  intros Hq Hhas. unfold has_bits in Hhas. apply Z.ltb_lt in Hhas.
  unfold read_bit. destruct (Z.ltb_spec (remaining_bits r) 1) as [|_]; [lia|].
  unfold remaining_bits in *.
  destruct (lookup_lt_is_Some_2 (r_data r) (r_byte_pos r)) as [b Hb]; [lia|].
  rewrite Hb. eexists _, _. split; [done|].
  destruct (Nat.eqb_spec (S (r_bit_pos r)) 8); cbn [r_data r_byte_pos r_bit_pos];
    repeat split; lia.
Qed.

Lemma read_bit_no_bits r : has_bits r = false -> read_bit r = Raised NotEnoughBits.
Proof.
  unfold has_bits, read_bit. intros Hhas. apply Z.ltb_ge in Hhas.
  destruct (Z.ltb_spec (remaining_bits r) 1); [done | lia].
Qed.

(** ** Splitting and joining *)

Lemma join_space_cons c w ws :
  join_space ((c :: w) :: ws) = c :: join_space (w :: ws).
Proof. by destruct ws. Qed.

Lemma join_split_space s : join_space (split_space s) = s.
Proof.
  induction s as [|c s IH]; [done|]. cbn [split_space].
  destruct (c =? SPACE) eqn:Hc.
  - apply Z.eqb_eq in Hc. subst c.
    destruct (split_space s) as [|w ws] eqn:Hs; [by apply split_space_nonempty in Hs|].
    change (join_space ([] :: w :: ws)) with (SPACE :: join_space (w :: ws)).
    by rewrite IH.
  - destruct (split_space s) as [|w ws] eqn:Hs; [by apply split_space_nonempty in Hs|].
    by rewrite join_space_cons, IH.
Qed.

Lemma split_space_word w : ~ In SPACE w -> split_space w = [w].
Proof.
  induction w as [|c w IH]; intros Hw; [done|]. cbn [split_space].
  destruct (Z.eqb_spec c SPACE) as [-> | _]; [by destruct Hw; left|].
  rewrite IH; [done|]. intros ?. apply Hw. by right.
Qed.

Lemma split_space_app w rest :
  ~ In SPACE w -> split_space (w ++ SPACE :: rest) = w :: split_space rest.
Proof.
  induction w as [|c w IH]; intros Hw.
  - cbn [app split_space]. by rewrite Z.eqb_refl.
  - cbn [app split_space].
    destruct (Z.eqb_spec c SPACE) as [-> | _]; [by destruct Hw; left|].
    rewrite IH; [done|]. intros ?. apply Hw. by right.
Qed.

Lemma split_join_space ws :
  ws <> [] -> (forall w, In w ws -> ~ In SPACE w) ->
  split_space (join_space ws) = ws.
Proof.
  induction ws as [|w ws IH]; intros Hne Hws; [done|].
  destruct ws as [|w' ws].
  - apply split_space_word, Hws. by left.
  - change (join_space (w :: w' :: ws)) with (w ++ SPACE :: join_space (w' :: ws)).
    rewrite split_space_app by (apply Hws; by left).
    rewrite IH; [done | done |]. intros x Hx. apply Hws. by right.
Qed.

(** ** UTF-8 *)

Lemma land_ones_mod x n : 0 <= n -> Z.land x (2 ^ n - 1) = x mod 2 ^ n.
Proof. intros Hn. rewrite <- Z.land_ones by done. f_equal. rewrite Z.ones_equiv. lia. Qed.

Lemma land_disjoint k b n :
  0 <= n -> 0 <= b < 2 ^ n -> Z.land (k * 2 ^ n) b = 0.
Proof.
  intros Hn Hb. apply Z.bits_inj'. intros m Hm. rewrite Z.land_spec, Z.bits_0.
  destruct (Z.lt_ge_cases m n) as [Hlt | Hge].
  - by rewrite Z.mul_pow2_bits_low.
  - destruct (Z.eq_dec b 0) as [-> | Hb0]; [by rewrite Z.bits_0, andb_false_r|].
    rewrite (Z.bits_above_log2 b m), andb_false_r; [done | lia |].
    apply Z.log2_lt_pow2; [lia|].
    apply Z.lt_le_trans with (2 ^ n); [lia | apply Z.pow_le_mono_r; lia].
Qed.

Lemma lor_disjoint k b n :
  0 <= n -> 0 <= b < 2 ^ n -> Z.lor (k * 2 ^ n) b = k * 2 ^ n + b.
Proof.
  intros Hn Hb. pose proof (land_disjoint k b n Hn Hb) as Hland.
  by rewrite <- Z.lxor_lor, <- Z.add_nocarry_lxor.
Qed.

Lemma lor_small a b : 
  0 <= b < a -> a = 128 \/ a = 192 \/ a = 224 \/ a = 240 ->
  (a = 128 -> b < 64) -> (a = 192 -> b < 32) -> (a = 224 -> b < 16) -> (a = 240 -> b < 8) ->
  Z.lor a b = a + b.
Proof.
  intros Hb Ha H1 H2 H3 Hhi.
  destruct Ha as [-> | [-> | [-> | ->]]].
  - apply (lor_disjoint 2 b 6); lia.
  - apply (lor_disjoint 6 b 5); lia.
  - apply (lor_disjoint 14 b 4); lia.
  - apply (lor_disjoint 30 b 3); lia.
Qed.

Lemma land_63 x : Z.land x 63 = x mod 64.
Proof. change 63 with (Z.ones 6). by rewrite Z.land_ones. Qed.
Lemma land_31 x : Z.land x 31 = x mod 32.
Proof. change 31 with (Z.ones 5). by rewrite Z.land_ones. Qed.
Lemma land_15 x : Z.land x 15 = x mod 16.
Proof. change 15 with (Z.ones 4). by rewrite Z.land_ones. Qed.
Lemma land_7 x : Z.land x 7 = x mod 8.
Proof. change 7 with (Z.ones 3). by rewrite Z.land_ones. Qed.

Ltac zdm := Z.div_mod_to_equations; lia.

Ltac zbool :=
  repeat (match goal with
          | |- context [?a <=? ?b] => destruct (Z.leb_spec a b); try lia
          | |- context [?a <? ?b] => destruct (Z.ltb_spec a b); try lia
          | |- context [?a =? ?b] => destruct (Z.eqb_spec a b); try lia
          end; cbn [andb negb]).

Lemma utf8_char_round_trip c cb rest :
  utf8_encode_char c = Done cb ->
  utf8_decode (cb ++ rest) = obind (utf8_decode rest) (fun s => Done (c :: s)).
Proof.
  unfold utf8_encode_char.
  destruct (Z.ltb_spec c 0); [done|].
  destruct (Z.ltb_spec c 128).
  { intros [= <-]. cbn [app utf8_decode]. by zbool. }
  destruct (Z.ltb_spec c 2048).
  { intros [= <-].
    rewrite Z.shiftr_div_pow2, land_63 by lia. change (2 ^ 6) with 64.
    assert (c = (c / 64) * 2 ^ 6 + c mod 64) as Hc by (change (2 ^ 6) with 64; zdm).
    assert (2 <= c / 64 < 32) as Hq by zdm.
    assert (0 <= c mod 64 < 64) as Hr by zdm.
    revert Hc. generalize (c / 64) (c mod 64) Hq Hr. clear. intros q r Hq Hr ->.
    rewrite (lor_small 192 q), (lor_small 128 r) by lia.
    cbn [app utf8_decode]. unfold cont_byte. zbool.
    rewrite land_31, land_63, Z.shiftl_mul_pow2 by lia.
    replace ((192 + q) mod 32) with q by zdm.
    replace ((128 + r) mod 64) with r by zdm.
    rewrite lor_disjoint by (simpl; lia). done. }
  destruct (Z.leb_spec 55296 c); destruct (Z.leb_spec c 57343); cbn [andb]; try done; try lia.
  all: destruct (Z.ltb_spec c 65536).
  all: try (destruct (Z.ltb_spec c 1114112); [|done]).
  all: intros [= <-].
  all: rewrite ?Z.shiftr_div_pow2, ?land_63 by lia.
  all: change (2 ^ 6) with 64; change (2 ^ 12) with 4096; change (2 ^ 18) with 262144.
  1,3: assert (c = (c / 4096) * 2 ^ 12 + (((c / 64) mod 64) * 2 ^ 6 + c mod 64)) as Hc
         by (change (2 ^ 6) with 64; change (2 ^ 12) with 4096; zdm);
       assert (0 <= c / 4096 < 16) as Ha by zdm;
       assert (0 <= (c / 64) mod 64 < 64) as Hb by zdm;
       assert (0 <= c mod 64 < 64) as Hd by zdm;
       assert (c / 4096 = 0 -> 32 <= (c / 64) mod 64) as Hlo by zdm;
       assert (c / 4096 = 13 -> (c / 64) mod 64 < 32) as Hhi by zdm;
       revert Hc; generalize (c / 4096) ((c / 64) mod 64) (c mod 64) Ha Hb Hd Hlo Hhi;
       clear; intros a b d Ha Hb Hd Hlo Hhi ->;
       rewrite (lor_small 224 a), (lor_small 128 b), (lor_small 128 d) by lia;
       cbn [app utf8_decode]; unfold cont_byte; zbool;
       rewrite land_15, !land_63, !Z.shiftl_mul_pow2 by lia;
       replace ((224 + a) mod 16) with a by zdm;
       replace ((128 + b) mod 64) with b by zdm;
       replace ((128 + d) mod 64) with d by zdm;
       rewrite (lor_disjoint b d 6) by (simpl; lia);
       rewrite (lor_disjoint a _ 12) by (simpl; lia); done.
  all: assert (c = (c / 262144) * 2 ^ 18 + (((c / 4096) mod 64) * 2 ^ 12
                 + (((c / 64) mod 64) * 2 ^ 6 + c mod 64))) as Hc
         by (change (2 ^ 6) with 64; change (2 ^ 12) with 4096;
             change (2 ^ 18) with 262144; zdm);
       assert (0 <= c / 262144 < 5) as Hz by zdm;
       assert (0 <= (c / 4096) mod 64 < 64) as Ha by zdm;
       assert (0 <= (c / 64) mod 64 < 64) as Hb by zdm;
       assert (0 <= c mod 64 < 64) as Hd by zdm;
       assert (c / 262144 = 0 -> 16 <= (c / 4096) mod 64) as Hlo by zdm;
       assert (c / 262144 = 4 -> (c / 4096) mod 64 < 16) as Hhi by zdm;
       revert Hc;
       generalize (c / 262144) ((c / 4096) mod 64) ((c / 64) mod 64) (c mod 64)
                  Hz Ha Hb Hd Hlo Hhi;
       clear; intros z a b d Hz Ha Hb Hd Hlo Hhi ->;
       rewrite (lor_small 240 z), (lor_small 128 a), (lor_small 128 b),
               (lor_small 128 d) by lia;
       cbn [app utf8_decode]; unfold cont_byte; zbool;
       rewrite land_7, !land_63, !Z.shiftl_mul_pow2 by lia;
       replace ((240 + z) mod 8) with z by zdm;
       replace ((128 + a) mod 64) with a by zdm;
       replace ((128 + b) mod 64) with b by zdm;
       replace ((128 + d) mod 64) with d by zdm;
       rewrite (lor_disjoint b d 6) by (simpl; lia);
       rewrite (lor_disjoint a _ 12) by (simpl; lia);
       rewrite (lor_disjoint z _ 18) by (simpl; lia); done.
Qed.

Lemma utf8_round_trip s bs : utf8_encode s = Done bs -> utf8_decode bs = Done s.
Proof.
  revert bs. induction s as [|c s IH]; intros bs; cbn [utf8_encode].
  - by intros [= <-].
  - destruct (utf8_encode_char c) as [cb| |] eqn:Hc; [|done..]. cbn [obind].
    destruct (utf8_encode s) as [rest| |]; [|done..]. cbn [obind]. intros [= <-].
    rewrite (utf8_char_round_trip c cb rest Hc). by rewrite (IH rest).
Qed.

(** ** Relations kept by every step *)

Section keeps.
Context (R : AdaptiveHuffman -> AdaptiveHuffman -> Prop).
Hypothesis R_refl : forall h, R h h.
Hypothesis R_trans : forall h1 h2 h3, R h1 h2 -> R h2 h3 -> R h1 h3.

Lemma keeps_ret {A} (a : A) : keeps R (ret a).
Proof. intros h. apply R_refl. Qed.

Lemma keeps_raise {A} e : keeps R (raise (A := A) e).
Proof. intros h. apply R_refl. Qed.

Lemma keeps_lift {A} (f : AdaptiveHuffman -> outcome A) : keeps R (lift f).
Proof. intros h. apply R_refl. Qed.

Lemma keeps_bind {A B} (m : M A) (k : A -> M B) :
  keeps R m -> (forall a, keeps R (k a)) -> keeps R (bind m k).
Proof.
  intros Hm Hk h. unfold bind. pose proof (Hm h) as H1.
  destruct (m h) as [[a| |] h1]; simpl in *; [| done..].
  eapply R_trans; [exact H1 | apply Hk].
Qed.

Lemma keeps_if {A} (b : bool) (m1 m2 : M A) :
  keeps R m1 -> keeps R m2 -> keeps R (if b then m1 else m2).
Proof. by destruct b. Qed.
End keeps.

Lemma same_node_refl n : same_node n n.
Proof. unfold same_node. repeat split; first [done | lia]. Qed.

Lemma same_node_trans n1 n2 n3 : same_node n1 n2 -> same_node n2 n3 -> same_node n1 n3.
Proof.
  unfold same_node. intros (? & ? & ? & ? & ? & ? & ?) (? & ? & ? & ? & ? & ? & ?).
  repeat split; first [congruence | tauto | lia].
Qed.

Lemma same_labels_refl h : same_labels h h.
Proof. constructor; try done; intros j; apply same_node_refl. Qed.

Lemma same_labels_trans h1 h2 h3 :
  same_labels h1 h2 -> same_labels h2 h3 -> same_labels h1 h3.
Proof.
  intros [] []. constructor; try congruence.
  intros j. by eapply same_node_trans.
Qed.

Lemma node_at_modify_out h i f :
  (size h <= i)%nat -> modify_node i f h = set_heap (heap h) h.
Proof.
  intros Hi. unfold modify_node. f_equal.
  apply list_eq. intros j. destruct (decide (j = i)) as [-> | Hne].
  - rewrite list_lookup_alter_eq. by rewrite (lookup_ge_None_2 (heap h) i).
  - by rewrite list_lookup_alter_ne.
Qed.

Lemma same_labels_modify h i f :
  same_node (node_at h i) (f (node_at h i)) ->
  same_labels h (modify_node i f h).
Proof.
  intros Hf. constructor; try done; [apply size_modify|].
  intros j. destruct (decide (j = i)) as [-> | Hne].
  - destruct (decide (i < size h)%nat) as [Hi | Hi].
    + by rewrite node_at_modify_eq.
    + rewrite node_at_modify_out by lia. apply same_node_refl.
  - rewrite node_at_modify_ne by done. apply same_node_refl.
Qed.

Lemma replace_child_labels p old new h :
  same_labels h (snd (replace_child p old new h)) /\
  forall j, Node.parent (node_at (snd (replace_child p old new h)) j)
            = Node.parent (node_at h j).
Proof.
  unfold replace_child.
  case_bool_decide as Hl; [| case_bool_decide as Hr]; cbn [snd].
  - split; [| intros j; by apply (node_at_modify_proj Node.parent)].
    apply same_labels_modify. unfold same_node. cbn.
    repeat split; first [done | lia | idtac].
    unfold Node.is_leaf. cbn. by rewrite Hl.
  - split; [| intros j; by apply (node_at_modify_proj Node.parent)].
    apply same_labels_modify. unfold same_node. cbn.
    repeat split; first [done | lia | idtac].
    unfold Node.is_leaf. cbn. rewrite Hr. by destruct (Node.left _).
  - split; [apply same_labels_refl | done].
Qed.

Lemma same_labels_set_parent h i p :
  Node.parent (node_at h i) <> None ->
  same_labels h (modify_node i (Node.set_parent (Some p)) h).
Proof.
  intros Hp. apply same_labels_modify. unfold same_node. cbn.
  repeat split; first [done | lia].
Qed.

Lemma swap_nodes_labels a b : keeps same_labels (swap_nodes a b).
Proof.
  intros h. unfold swap_nodes.
  destruct (Nat.eqb_spec a b) as [|Hab]; [apply same_labels_refl|].
  destruct (Node.parent (node_at h a)) as [pa|] eqn:Epa; [| apply same_labels_refl].
  destruct (Node.parent (node_at h b)) as [pb|] eqn:Epb; [| apply same_labels_refl].
  unfold bind at 1.
  destruct (replace_child_labels pa a b h) as [Hl1 Hp1].
  destruct (replace_child pa a b h) as [[[]| |] h1]; cbn [snd] in *; [| done..].
  unfold bind at 1.
  destruct (replace_child_labels pb b a h1) as [Hl2 Hp2].
  destruct (replace_child pb b a h1) as [[[]| |] h2]; cbn [snd] in *;
    [| by eapply same_labels_trans..].
  unfold bind, update. cbn [snd].
  eapply same_labels_trans; [exact Hl1|].
  eapply same_labels_trans; [exact Hl2|].
  eapply same_labels_trans.
  - apply same_labels_set_parent. rewrite Hp2, Hp1, Epa. done.
  - apply same_labels_set_parent.
    rewrite node_at_modify_ne by done. rewrite Hp2, Hp1, Epb. done.
Qed.

Lemma increment_step_labels fuel v : keeps same_labels (increment_step fuel v).
Proof.
  unfold increment_step.
  apply keeps_bind; [apply same_labels_trans | by apply keeps_lift; apply same_labels_refl |].
  intros highest.
  apply keeps_bind; [apply same_labels_trans | by apply keeps_lift; apply same_labels_refl |].
  intros do_swap.
  apply keeps_bind; [apply same_labels_trans | |].
  { destruct do_swap; [apply swap_nodes_labels | apply keeps_ret, same_labels_refl]. }
  intros _.
  apply keeps_bind; [apply same_labels_trans | | ].
  { intros h. unfold update. cbn [snd]. apply same_labels_modify.
    unfold same_node. cbn. repeat split; first [done | lia]. }
  intros _. apply keeps_lift, same_labels_refl.
Qed.

Lemma increment_weight_labels fuel node : keeps same_labels (increment_weight fuel node).
Proof.
  revert node. induction fuel as [|f IH]; intros [v|]; cbn [increment_weight];
    try (intros h; apply same_labels_refl).
  apply keeps_bind; [apply same_labels_trans | apply increment_step_labels | apply IH].
Qed.

(** ** The two nodes of a new word *)

Lemma insert_prepare_node_at word h j :
  (nyt h < size h)%nat ->
  node_at (insert_prepare word h) j =
  if decide (j = size h) then
    Node.mk (Some word) 0 (next_key h) None None (Some (nyt h)) false false
  else if decide (j = S (size h)) then
    Node.mk None 0 (next_key h + 1) None None (Some (nyt h)) true false
  else if decide (j = nyt h) then
    Node.mk (Node.symbol (node_at h j)) (Node.weight (node_at h j))
      (Node.key (node_at h j)) (Some (S (size h))) (Some (size h))
      (Node.parent (node_at h j)) false (Node.is_ncw (node_at h j))
  else node_at h j.
Proof.
  intros Hn. unfold insert_prepare.
  set (h0 := mkCodec (heap h ++ _ ++ _) _ _ _ _ _).
  assert (size h0 = S (S (size h))) as Hs.
  { subst h0. cbn [heap]. rewrite !length_app. simpl. lia. }
  assert (forall i, node_at h0 i =
            if decide (i = size h) then Node.new (Some word) 0 (next_key h) false false
            else if decide (i = S (size h)) then Node.new None 0 (next_key h + 1) true false
            else node_at h i) as H0.
  { intros i. unfold node_at at 1. subst h0. cbn [heap].
    destruct (decide (i < size h)%nat) as [Hlt | Hge].
    - rewrite lookup_app_l by done. by rewrite !decide_False by lia.
    - rewrite lookup_app_r by lia.
      case_decide as H1; [subst i; by rewrite Nat.sub_diag|].
      case_decide as H2.
      + subst i. by replace (S (size h) - size h)%nat with 1%nat by lia.
      + rewrite node_at_ge by lia.
        destruct (i - length (heap h))%nat as [|[|k]] eqn:E; [lia.. | done]. }
  match goal with |- node_at (mkCodec (heap ?x) _ _ _ _ _) j = _ =>
    change (node_at x j = 
      if decide (j = size h) then
        Node.mk (Some word) 0 (next_key h) None None (Some (nyt h)) false false
      else if decide (j = S (size h)) then
        Node.mk None 0 (next_key h + 1) None None (Some (nyt h)) true false
      else if decide (j = nyt h) then
        Node.mk (Node.symbol (node_at h j)) (Node.weight (node_at h j))
          (Node.key (node_at h j)) (Some (S (size h))) (Some (size h))
          (Node.parent (node_at h j)) false (Node.is_ncw (node_at h j))
      else node_at h j) end.
  case_decide as H1.
  { subst j. rewrite node_at_modify_eq by (rewrite !size_modify; lia).
    rewrite !node_at_modify_ne by lia. rewrite H0, decide_True by done. done. }
  rewrite node_at_modify_ne by done.
  case_decide as H2.
  { subst j. rewrite node_at_modify_eq by (rewrite !size_modify; lia).
    rewrite !node_at_modify_ne by lia. rewrite H0, decide_False, decide_True by done. done. }
  rewrite node_at_modify_ne by done.
  case_decide as H3.
  { subst j. rewrite !node_at_modify_eq by (rewrite ?size_modify; lia).
    rewrite H0, !decide_False by done. done. }
  rewrite !node_at_modify_ne by done. rewrite H0, !decide_False by done. done.
Qed.

Lemma size_insert_prepare word h : size (insert_prepare word h) = S (S (size h)).
Proof.
  unfold insert_prepare. cbn [heap]. rewrite !size_modify. cbn [heap].
  rewrite !length_app. simpl. lia.
Qed.

(** ** The labels hold from the start *)

Lemma labelled_init : labelled init.
Proof.
  constructor; try done; try (cbn; lia); try by left.
  - intros [|[|[|j]]] Hj; try done. cbn in Hj. lia.
  - by intros [|[|[|j]]].
  - by intros [|[|[|j]]].
  - by intros [|[|[|j]]] w.
  - intros [|[|[|j]]] Hj; try done. cbn in Hj. lia.
  - by intros [|[|[|j]]].
Qed.

Lemma labelled_same_labels h h' : same_labels h h' -> labelled h -> labelled h'.
Proof.
  intros [Hs Hl Hk Hn Hc Hr Hnode] [].
  assert (forall j, Node.key (node_at h' j) = Node.key (node_at h j)) as Hkey
    by (intros j; by destruct (Hnode j) as (? & _)).
  assert (forall j, Node.symbol (node_at h' j) = Node.symbol (node_at h j)) as Hsym
    by (intros j; by destruct (Hnode j) as (_ & ? & _)).
  assert (forall j, Node.is_nyt (node_at h' j) = Node.is_nyt (node_at h j)) as Hnyt
    by (intros j; by destruct (Hnode j) as (_ & _ & ? & _)).
  assert (forall j, Node.is_ncw (node_at h' j) = Node.is_ncw (node_at h j)) as Hncw
    by (intros j; by destruct (Hnode j) as (_ & _ & _ & ? & _)).
  assert (forall j, Node.is_leaf (node_at h' j) = Node.is_leaf (node_at h j)) as Hleaf
    by (intros j; by destruct (Hnode j) as (_ & _ & _ & _ & ? & _)).
  assert (forall j, Node.parent (node_at h' j) = None <-> Node.parent (node_at h j) = None)
    as Hpar by (intros j; by destruct (Hnode j) as (_ & _ & _ & _ & _ & ? & _)).
  assert (forall j, Node.weight (node_at h j) <= Node.weight (node_at h' j)) as Hw
    by (intros j; by destruct (Hnode j) as (_ & _ & _ & _ & _ & _ & ?)).
  constructor; rewrite ?Hs, ?Hl, ?Hk, ?Hn, ?Hc, ?Hr; try done.
  - intros j Hj. rewrite Hkey. auto.
  - intros j. rewrite Hncw. auto.
  - intros j. rewrite Hnyt. auto.
  - intros w i Hi. rewrite Hsym. eauto.
  - intros j w. rewrite Hsym, Hleaf. eauto.
  - by rewrite Hleaf.
  - by rewrite Hleaf.
  - by rewrite Hleaf.
  - by apply Hpar.
  - intros j Hj Hj2. rewrite Hpar. auto.
  - intros j. specialize (lb_weight0 j). specialize (Hw j). lia.
Qed.

Lemma labelled_insert_prepare word h : labelled h -> labelled (insert_prepare word h).
Proof.
  intros [].
  pose proof (insert_prepare_node_at word h) as Hnode.
  pose proof (size_insert_prepare word h) as Hsize.
  assert (forall j, (size h <= j)%nat -> node_at h j = Node.new None 0 0 false false)
    as Hout by (intros; by apply node_at_ge).
  assert (nyt (insert_prepare word h) = S (size h)) as Hnyt by done.
  assert (Node.symbol (node_at h (nyt h)) = None) as Hnosym.
  { destruct (Node.symbol (node_at h (nyt h))) as [w|] eqn:E; [|done].
    by destruct (lb_symbol0 _ _ E) as (_ & ? & _). }
  constructor; rewrite ?Hsize, ?Hnyt; try done; try lia.
  - cbn. rewrite lb_next_key0. lia.
  - intros j Hj. rewrite Hnode by done.
    repeat case_decide; subst; cbn [Node.key]; try lia; rewrite ?lb_key0 by lia;
      rewrite ?decide_True by lia; rewrite ?decide_False by lia; lia.
  - intros j. rewrite Hnode by done.
    repeat case_decide; subst; cbn [Node.is_ncw]; rewrite ?lb_is_ncw0;
      repeat case_bool_decide; try done; lia.
  - intros j. rewrite Hnode by done.
    repeat case_decide; subst; cbn [Node.is_nyt]; rewrite ?lb_is_nyt0;
      repeat case_bool_decide; try done; lia.
  - intros w i. change (leaves (insert_prepare word h)) with (<[word := size h]> (leaves h)).
    destruct (decide (w = word)) as [-> | Hne].
    + rewrite lookup_insert_eq. intros [= <-]. rewrite Hnode by done.
      by rewrite decide_True.
    + rewrite lookup_insert_ne by done. intros Hi.
      pose proof (lb_leaves0 _ _ Hi) as Hsym.
      destruct (lb_symbol0 _ _ Hsym) as (Hlt & Hn & _).
      rewrite Hnode by done. by rewrite !decide_False by lia.
  - intros j w. rewrite Hnode by done.
    repeat case_decide; subst; cbn [Node.symbol Node.is_leaf Node.left Node.right].
    + intros _. split; [lia|]. split; [lia | done].
    + done.
    + by rewrite Hnosym.
    + intros Hsym. destruct (lb_symbol0 _ _ Hsym) as (? & ? & ?).
      split; [lia|]. split; [lia | done].
  - rewrite Hnode by done. by rewrite decide_False, decide_True by lia.
  - rewrite Hnode by done.
    rewrite !decide_False by lia. done.
  - rewrite Hnode by done.
    rewrite !decide_False by lia. done.
  - rewrite Hnode by done.
    rewrite !decide_False by lia. done.
  - intros j Hj Hj2. rewrite Hnode by done.
    repeat case_decide; subst; cbn [Node.parent]; try done; apply lb_parent0; lia.
  - intros j. rewrite Hnode by done.
    repeat case_decide; subst; cbn [Node.weight]; try done; apply lb_weight0.
Qed.

(** ** Every call keeps the labels *)

Lemma kl_bind {A B} (m : M A) (k : A -> M B) :
  keeps keeps_labelled m -> (forall a, keeps keeps_labelled (k a)) ->
  keeps keeps_labelled (bind m k).
Proof. apply keeps_bind. unfold keeps_labelled. auto. Qed.

Lemma kl_lift {A} (f : AdaptiveHuffman -> outcome A) : keeps keeps_labelled (lift f).
Proof. intros h Hl. exact Hl. Qed.

Lemma kl_ret {A} (a : A) : keeps keeps_labelled (ret a).
Proof. intros h Hl. exact Hl. Qed.

Lemma kl_raise {A} e : keeps keeps_labelled (raise (A := A) e).
Proof. intros h Hl. exact Hl. Qed.

Lemma kl_increment_weight fuel node : keeps keeps_labelled (increment_weight fuel node).
Proof. intros h Hl. eapply labelled_same_labels; [apply increment_weight_labels | done]. Qed.

Lemma kl_insert_new_word fuel word : keeps keeps_labelled (insert_new_word fuel word).
Proof.
  intros h Hl. rewrite insert_new_word_eq.
  eapply labelled_same_labels; [apply increment_weight_labels|].
  by apply labelled_insert_prepare.
Qed.

Lemma kl_encode_word fuel word writer : keeps keeps_labelled (encode_word fuel word writer).
Proof.
  unfold encode_word.
  apply kl_bind; [apply kl_lift | intros new_word].
  apply kl_bind; [apply kl_lift | intros target].
  apply kl_bind; [apply kl_lift | intros path]. cbv zeta.
  destruct new_word.
  - apply kl_bind; [apply kl_lift | intros raw].
    destruct (2 ^ 16 <=? _); [apply kl_raise|].
    apply kl_bind; [apply kl_insert_new_word | intros _; apply kl_ret].
  - apply kl_bind; [apply kl_lift | intros leaf].
    apply kl_bind; [apply kl_increment_weight | intros _; apply kl_ret].
Qed.

Lemma kl_encode_words fuel first words writer :
  keeps keeps_labelled (encode_words fuel first words writer).
Proof.
  revert first writer. induction words as [|word rest IH]; intros first writer;
    cbn [encode_words]; [apply kl_ret|].
  apply kl_bind; [destruct first; [apply kl_ret | apply kl_encode_word] | intros w1].
  apply kl_bind; [apply kl_encode_word | intros w2]. apply IH.
Qed.

Lemma kl_encode fuel text : keeps keeps_labelled (encode fuel text).
Proof.
  unfold encode. apply kl_bind; [apply kl_encode_words | intros w; apply kl_ret].
Qed.

Lemma kl_decode_next_word fuel reader :
  keeps keeps_labelled (decode_next_word fuel reader).
Proof.
  unfold decode_next_word.
  apply kl_bind; [apply kl_lift | intros [node r1]].
  apply kl_bind; [apply kl_lift | intros is_ncw].
  apply kl_bind; [apply kl_lift | intros is_nyt].
  destruct is_ncw; [| destruct is_nyt].
  - apply kl_bind; [apply kl_increment_weight | intros _]. cbv zeta.
    apply kl_bind; [apply kl_lift | intros [len r2]].
    apply kl_bind; [apply kl_lift | intros [raw r3]].
    apply kl_bind; [apply kl_lift | intros word].
    apply kl_bind; [apply kl_insert_new_word | intros _; apply kl_ret].
  - apply kl_ret.
  - apply kl_bind; [apply kl_increment_weight | intros _].
    apply kl_bind; [apply kl_lift | intros sym; apply kl_ret].
Qed.

Lemma kl_decode_loop fuel reader words :
  keeps keeps_labelled (decode_loop fuel reader words).
Proof.
  revert reader words. induction fuel as [|f IH]; intros reader words;
    cbn [decode_loop]; (destruct (has_bits reader); [| apply kl_ret]).
  - intros h Hl. exact Hl.
  - apply kl_bind; [apply kl_decode_next_word | intros [word r1]].
    destruct (bool_decide _); apply IH.
Qed.

Lemma kl_decode fuel data : keeps keeps_labelled (decode fuel data).
Proof.
  unfold decode. apply kl_bind; [apply kl_decode_loop | intros w; apply kl_ret].
Qed.

Lemma reachable_labelled h : reachable h -> labelled h.
Proof.
  induction 1 as [| h fuel text _ IH _ | h fuel data _ IH _].
  - apply labelled_init.
  - by apply kl_encode.
  - by apply kl_decode.
Qed.

Lemma follow_app h s p q n :
  follow h s p = Some n -> follow h s (p ++ q) = follow h n q.
Proof.
  revert s. induction p as [|b p IH]; intros s; cbn [follow app].
  - by intros [= ->].
  - destruct (if b then _ else _) as [c|]; [apply IH | done].
Qed.

Lemma path_loop_follow fuel h cur acc p :
  wf h ->
  path_loop fuel h cur acc = Done p ->
  exists q, p = q ++ rev acc /\ follow h (root h) q = Some cur.
Proof.
  intros Hwf. revert cur acc. induction fuel as [|f IH]; intros cur acc; cbn [path_loop].
  - destruct (Nat.eqb_spec cur (root h)) as [-> | _]; [|done].
    intros [= <-]. by exists [].
  - destruct (Nat.eqb_spec cur (root h)) as [-> | _].
    { intros [= <-]. by exists []. }
    destruct (Node.parent (node_at h cur)) as [par|] eqn:Hpar; [|done].
    intros Hloop. destruct (IH _ _ Hloop) as (q & -> & Hq).
    exists (q ++ [bool_decide (Node.right (node_at h par) = Some cur)]). split.
    + by rewrite rev_app_distr, <- app_assoc.
    + rewrite (follow_app _ _ _ _ _ Hq). cbn [follow].
      case_bool_decide as Hr; [by rewrite Hr|].
      destruct (wf_parent _ Hwf _ _ Hpar) as [_ [-> | ?]]; done.
Qed.

Lemma path_to_node_follow fuel h n p :
  wf h -> path_to_node fuel h n = Done p -> follow h (root h) p = Some n.
Proof.
  intros Hwf Hp. destruct (path_loop_follow _ _ _ _ _ Hwf Hp) as (q & -> & Hq).
  by rewrite app_nil_r.
Qed.

Lemma walk_follow h p : forall s n r rest fuel,
  follow h s p = Some n ->
  Node.is_leaf (node_at h n) = true ->
  (r_bit_pos r < 8)%nat ->
  upcoming r = p ++ rest ->
  (length p <= fuel)%nat ->
  exists r', walk fuel h s r = Done (n, r') /\ upcoming r' = rest /\
             (r_bit_pos r' < 8)%nat /\ r_data r' = r_data r /\
             bit_index r' = (bit_index r + length p)%nat.
Proof.
  induction p as [|b p IH]; intros s n r rest fuel Hf Hleaf Hq Hup Hfuel.
  - cbn [follow] in Hf. injection Hf as ->. exists r.
    destruct fuel; cbn [walk]; rewrite Hleaf; cbn [length]; repeat split; try done; lia.
  - cbn [follow] in Hf. destruct fuel as [|fuel]; [cbn in Hfuel; lia|].
    cbn [walk].
    assert (Node.is_leaf (node_at h s) = false) as ->.
    { unfold Node.is_leaf. destruct b.
      - destruct (Node.right (node_at h s)); [by destruct (Node.left _) | done].
      - by destruct (Node.left (node_at h s)). }
    destruct (read_bit_upcoming r b (p ++ rest) Hq Hup) as (r1 & -> & Hup1 & Hq1 & Hd1 & Hi1).
    cbn [obind].
    destruct (if b then _ else _) as [c|]; [|done].
    destruct (IH c n r1 rest fuel Hf Hleaf Hq1 Hup1 ltac:(cbn in Hfuel; lia))
      as (r' & Hw & Hup' & Hq' & Hd' & Hi').
    exists r'. repeat split; try done; [congruence | cbn [length]; lia].
Qed.

(** ** Swapping two children of one node *)

Lemma modify_node_id h i f :
  f (node_at h i) = node_at h i -> modify_node i f h = h.
Proof.
  intros Hf. destruct h as [hp lv nk ny nc rt]. unfold modify_node, set_heap, node_at in *.
  cbn [heap leaves next_key nyt ncw root] in *. f_equal.
  apply list_eq. intros j. destruct (decide (j = i)) as [-> | Hne].
  - rewrite list_lookup_alter_eq. destruct (hp !! i); [|done]. simpl in *. by f_equal.
  - by rewrite list_lookup_alter_ne.
Qed.

Lemma modify_node_twice h i f g :
  modify_node i f (modify_node i g h) = modify_node i (f ∘ g) h.
Proof.
  unfold modify_node, set_heap. cbn [heap leaves next_key nyt ncw root]. f_equal.
  apply list_eq. intros j. destruct (decide (j = i)) as [-> | Hne].
  - rewrite !list_lookup_alter_eq. by destruct (heap h !! i).
  - by rewrite !list_lookup_alter_ne.
Qed.

Lemma set_parent_id n p : Node.parent n = Some p -> Node.set_parent (Some p) n = n.
Proof. destruct n. cbn. by intros ->. Qed.

Lemma swap_siblings_left_aux h a b p :
  a <> b -> (p < size h)%nat ->
  Node.parent (node_at h a) = Some p -> Node.parent (node_at h b) = Some p ->
  Node.left (node_at h p) = Some a -> Node.right (node_at h p) = Some b ->
  swap_nodes a b h = (Done tt, h).
Proof.
  intros Hab Hp Hpa Hpb Hl Hr. unfold swap_nodes.
  destruct (Nat.eqb_spec a b) as [|_]; [done|]. rewrite Hpa, Hpb.
  unfold bind at 1, replace_child at 1. rewrite bool_decide_eq_true_2 by done.
  unfold bind at 1, replace_child at 1.
  rewrite left_set_left, decide_True by done.
  rewrite bool_decide_eq_true_2 by done.
  rewrite modify_node_twice, modify_node_id.
  2: { destruct (node_at h p). cbn in *. by subst. }
  unfold bind, update.
  rewrite (modify_node_id h a) by by apply set_parent_id.
  rewrite (modify_node_id h b) by by apply set_parent_id. done.
Qed.

Lemma swap_siblings_right_aux h a b p :
  a <> b -> (p < size h)%nat ->
  Node.parent (node_at h a) = Some p -> Node.parent (node_at h b) = Some p ->
  Node.left (node_at h p) = Some b -> Node.right (node_at h p) = Some a ->
  swap_nodes a b h =
  (Done tt, modify_node p (Node.set_left (Some a))
              (modify_node p (Node.set_right (Some b)) h)).
Proof.
  intros Hab Hp Hpa Hpb Hl Hr. unfold swap_nodes.
  destruct (Nat.eqb_spec a b) as [|_]; [done|]. rewrite Hpa, Hpb.
  unfold bind at 1, replace_child at 1.
  rewrite bool_decide_eq_false_2 by (rewrite Hl; congruence).
  rewrite bool_decide_eq_true_2 by done.
  unfold bind at 1, replace_child at 1.
  rewrite (node_at_modify_proj Node.left) by done.
  rewrite bool_decide_eq_true_2 by done.
  unfold bind, update.
  set (h2 := modify_node p _ (modify_node p _ h)).
  assert (forall j, Node.parent (node_at h2 j) = Node.parent (node_at h j)) as Hpar.
  { intros j. subst h2. by rewrite !(node_at_modify_proj Node.parent). }
  rewrite (modify_node_id h2 a) by (apply set_parent_id; by rewrite Hpar).
  rewrite (modify_node_id h2 b) by (apply set_parent_id; by rewrite Hpar). done.
Qed.

(** ** Every token consumes input *)

Lemma read_bit_done r b r' :
  (r_bit_pos r < 8)%nat -> read_bit r = Done (b, r') ->
  remaining_bits r' = remaining_bits r - 1 /\ (r_bit_pos r' < 8)%nat.
Proof.
  intros Hq. unfold read_bit.
  destruct (remaining_bits r <? 1); [done|].
  destruct (r_data r !! r_byte_pos r); [|done].
  destruct (Nat.eqb_spec (S (r_bit_pos r)) 8); intros [= _ <-];
    unfold remaining_bits; cbn [r_data r_byte_pos r_bit_pos]; lia.
Qed.

Lemma walk_remaining fuel h n r n' r' :
  (r_bit_pos r < 8)%nat -> walk fuel h n r = Done (n', r') ->
  (r_bit_pos r' < 8)%nat /\
  remaining_bits r' <= remaining_bits r /\
  (Node.is_leaf (node_at h n) = false -> remaining_bits r' < remaining_bits r).
Proof.
  revert n r. induction fuel as [|f IH]; intros n r Hq; cbn [walk].
  - destruct (Node.is_leaf (node_at h n)); [|done]. intros [= <- <-].
    split; [done|]. split; [lia | done].
  - destruct (Node.is_leaf (node_at h n)).
    { intros [= <- <-]. split; [done|]. split; [lia | done]. }
    destruct (read_bit r) as [[b r1]| |] eqn:Hread; [|done..]. cbn [obind].
    destruct (read_bit_done _ _ _ Hq Hread) as [Hrem Hq1].
    destruct (if b then _ else _) as [c|]; [|done]. intros Hw.
    destruct (IH _ _ Hq1 Hw) as (? & ? & _). split; [done|]. split; [lia | intros _; lia].
Qed.

Lemma align_remaining r :
  (r_bit_pos r < 8)%nat ->
  remaining_bits (align_to_byte r) <= remaining_bits r /\
  r_bit_pos (align_to_byte r) = 0%nat.
Proof.
  intros Hq. unfold align_to_byte, remaining_bits.
  destruct (Nat.eqb_spec (r_bit_pos r) 0); cbn [r_data r_byte_pos r_bit_pos]; lia.
Qed.

Lemma read_uint16_remaining r v r' :
  (r_bit_pos r < 8)%nat -> read_uint16 r = Done (v, r') ->
  remaining_bits r' <= remaining_bits r /\ r_bit_pos r' = 0%nat.
Proof.
  intros Hq. unfold read_uint16. destruct (align_remaining r Hq) as [Hrem Hb].
  destruct (_ <? _)%nat; [done|]. intros [= _ <-].
  unfold remaining_bits in *. cbn [r_data r_byte_pos r_bit_pos]. lia.
Qed.

Lemma read_bytes_remaining r len d r' :
  (r_bit_pos r < 8)%nat -> read_bytes r len = Done (d, r') ->
  remaining_bits r' <= remaining_bits r /\ r_bit_pos r' = 0%nat.
Proof.
  intros Hq. unfold read_bytes. destruct (align_remaining r Hq) as [Hrem Hb].
  destruct (_ <? _); [done|]. intros [= _ <-].
  unfold remaining_bits in *. cbn [r_data r_byte_pos r_bit_pos]. lia.
Qed.

Lemma decode_next_word_progress fuel r h w r' h' :
  Node.is_leaf (node_at h (root h)) = false ->
  (r_bit_pos r < 8)%nat ->
  decode_next_word fuel r h = (Done (w, r'), h') ->
  remaining_bits r' < remaining_bits r /\ (r_bit_pos r' < 8)%nat.
Proof.
  intros Hroot Hq. unfold decode_next_word, bind at 1, lift at 1.
  destruct (walk fuel h (root h) r) as [[node r1]| |] eqn:Hwalk; [|done..].
  destruct (walk_remaining _ _ _ _ _ _ Hq Hwalk) as (Hq1 & _ & Hlt).
  specialize (Hlt Hroot).
  unfold bind at 1, lift at 1. unfold bind at 1, lift at 1.
  destruct (Node.is_ncw (node_at h node)); [| destruct (Node.is_nyt (node_at h node))].
  - unfold bind at 1.
    destruct (increment_weight fuel (Some node) h) as [[[]| |] h1]; [|done..].
    unfold bind at 1, lift at 1.
    destruct (align_remaining r1 Hq1) as [Hrem2 Hb2].
    destruct (read_uint16 (align_to_byte r1)) as [[len r2]| |] eqn:Hu; [|done..].
    destruct (read_uint16_remaining (align_to_byte r1) len r2 ltac:(lia) Hu) as [Hrem3 Hb3].
    unfold bind at 1, lift at 1.
    destruct (read_bytes r2 len) as [[raw r3]| |] eqn:Hb; [|done..].
    destruct (read_bytes_remaining r2 len raw r3 ltac:(lia) Hb) as [Hrem4 Hb4].
    unfold bind at 1, lift at 1.
    destruct (utf8_decode raw) as [word| |]; [|done..].
    unfold bind at 1.
    destruct (insert_new_word fuel word h1) as [[[]| |] h2]; [|done..].
    unfold ret. intros [= _ <- _]. lia.
  - unfold ret. intros [= _ <- _]. lia.
  - unfold bind at 1.
    destruct (increment_weight fuel (Some node) h) as [[[]| |] h1]; [|done..].
    unfold bind, lift, ret. intros [= _ <- _]. lia.
Qed.

(** ** The bytes of the output *)

Lemma utf8_encode_char_range c cb :
  utf8_encode_char c = Done cb -> Forall byte_range cb.
Proof.
  unfold utf8_encode_char.
  destruct (Z.ltb_spec c 0); [done|].
  destruct (Z.ltb_spec c 128).
  { intros [= <-]. repeat constructor; lia. }
  destruct (Z.ltb_spec c 2048).
  { intros [= <-]. rewrite Z.shiftr_div_pow2, land_63 by lia. change (2 ^ 6) with 64.
    rewrite (lor_small 192 (c / 64)), (lor_small 128 (c mod 64)) by zdm.
    repeat constructor; zdm. }
  destruct ((55296 <=? c) && (c <=? 57343)); [done|].
  destruct (Z.ltb_spec c 65536).
  { intros [= <-]. rewrite !Z.shiftr_div_pow2, !land_63 by lia.
    change (2 ^ 6) with 64; change (2 ^ 12) with 4096.
    rewrite (lor_small 224 (c / 4096)), (lor_small 128 ((c / 64) mod 64)),
      (lor_small 128 (c mod 64)) by zdm.
    repeat constructor; zdm. }
  destruct (Z.ltb_spec c 1114112); [|done].
  intros [= <-]. rewrite !Z.shiftr_div_pow2, !land_63 by lia.
  change (2 ^ 6) with 64; change (2 ^ 12) with 4096; change (2 ^ 18) with 262144.
  rewrite (lor_small 240 (c / 262144)), (lor_small 128 ((c / 4096) mod 64)),
    (lor_small 128 ((c / 64) mod 64)), (lor_small 128 (c mod 64)) by zdm.
  repeat constructor; zdm.
Qed.

Lemma utf8_encode_range s bs : utf8_encode s = Done bs -> Forall byte_range bs.
Proof.
  revert bs. induction s as [|c s IH]; intros bs; cbn [utf8_encode].
  - intros [= <-]. constructor.
  - destruct (utf8_encode_char c) as [cb| |] eqn:Hc; [|done..]. cbn [obind].
    destruct (utf8_encode s) as [rest| |]; [|done..]. cbn [obind]. intros [= <-].
    apply Forall_app. split; [by eapply utf8_encode_char_range | by apply IH].
Qed.

Lemma to_bytes2_range v : Forall byte_range (to_bytes2 v).
Proof. unfold to_bytes2. rewrite !land_255. repeat constructor; zdm. Qed.

Lemma writer_ok_extend w d :
  writer_ok w -> Forall byte_range d ->
  writer_ok (mkWriter (w_buffer (flush_to_byte w) ++ d)
               (w_current (flush_to_byte w)) (w_filled (flush_to_byte w))).
Proof.
  intros Hok Hd. destruct (flush_spec w Hok) as ((Hf & Hc & Hbuf) & _).
  split; [done|]. split; [done|]. cbn [w_buffer]. apply Forall_app. by split.
Qed.

Lemma new_word_payload_ok w path raw :
  writer_ok w -> Forall byte_range raw -> writer_ok (new_word_payload w path raw).
Proof.
  intros Hok Hraw. unfold new_word_payload, add_bytes, add_uint16.
  apply writer_ok_extend; [| done].
  apply writer_ok_extend; [| apply to_bytes2_range].
  apply flush_spec, add_bits_spec, Hok.
Qed.

Lemma encode_word_writer_ok fuel word w h w' h' :
  writer_ok w -> encode_word fuel word w h = (Done w', h') -> writer_ok w'.
Proof.
  intros Hok. unfold encode_word, bind at 1 2 3, lift at 1 2 3.
  destruct (path_to_node fuel h _) as [path| |]; [|done..].
  destruct (bool_decide (leaves h !! word = None)).
  - unfold bind at 1, lift at 1.
    destruct (utf8_encode word) as [raw| |] eqn:Hraw; [|done..].
    destruct (2 ^ 16 <=? _); [done|].
    unfold bind at 1. destruct (insert_new_word fuel word h) as [[[]| |] h1]; [|done..].
    unfold ret. intros [= <- _].
    apply (new_word_payload_ok w path raw Hok). by eapply utf8_encode_range.
  - unfold bind at 1, lift at 1. unfold bind at 1.
    destruct (increment_weight fuel _ h) as [[[]| |] h1]; [|done..].
    unfold ret. intros [= <- _]. by apply add_bits_spec.
Qed.

Lemma encode_words_writer_ok fuel first words w h w' h' :
  writer_ok w -> encode_words fuel first words w h = (Done w', h') -> writer_ok w'.
Proof.
  revert first w h. induction words as [|word rest IH]; intros first w h Hok;
    cbn [encode_words].
  - unfold ret. by intros [= <- _].
  - unfold bind at 1.
    destruct (if first then ret w else encode_word fuel [SPACE] w) as [o h1] eqn:E1.
    assert (forall w1, o = Done w1 -> writer_ok w1) as Hok1.
    { intros w1 ->. destruct first.
      - unfold ret in E1. by injection E1 as <- _.
      - by eapply encode_word_writer_ok. }
    destruct o as [w1| |]; [|done..]. specialize (Hok1 _ eq_refl).
    unfold bind at 1.
    destruct (encode_word fuel word w1 h1) as [[w2| |] h2] eqn:E2; [|done..].
    apply IH. by eapply encode_word_writer_ok.
Qed.

Lemma encode_output_range fuel text h data :
  fst (encode fuel text h) = Done data -> Forall byte_range data.
Proof.
  unfold encode, bind.
  destruct (encode_words fuel true _ new_writer h) as [[w| |] h1] eqn:E; [|done..].
  unfold ret. cbn [fst]. intros [= <-].
  pose proof (encode_words_writer_ok _ _ _ _ _ _ _ writer_ok_new E) as Hok.
  by destruct (flush_spec w Hok) as ((_ & _ & ?) & _).
Qed.

Lemma encode_fuel n m text h d h' :
  (n <= m)%nat -> encode n text h = (Done d, h') -> encode m text h = (Done d, h').
Proof.
  intros Hle He. destruct (encode_mono n m text Hle h) as [Ho | <-]; [|done].
  by rewrite He in Ho.
Qed.

Lemma decode_fuel n m data h s h' :
  (n <= m)%nat -> decode n data h = (Done s, h') -> decode m data h = (Done s, h').
Proof.
  intros Hle He. destruct (decode_mono n m data Hle h) as [Ho | <-]; [|done].
  by rewrite He in Ho.
Qed.

Lemma decode_loop_S f reader words :
  decode_loop (S f) reader words =
  if has_bits reader then
    bind (decode_next_word f reader) (fun x =>
      let '(word, reader) := x in
      if bool_decide (word = [SPACE]) then decode_loop f reader words
      else decode_loop f reader (words ++ [word]))
  else ret words.
Proof. reflexivity. Qed.

Lemma decode_loop_end f reader words h :
  has_bits reader = false -> decode_loop f reader words h = (Done words, h).
Proof. intros Hb. destruct f; cbn [decode_loop]; by rewrite Hb. Qed.

Lemma no_space_not_separator w : ~ In SPACE w -> w <> [SPACE].
Proof. intros Hw ->. apply Hw. by left. Qed.

(** ** The first word *)

Lemma message_words c w :
  ~ In SPACE (c :: w) ->
  match c :: w with [] => [] | _ => split_space (c :: w) end = [c :: w].
Proof. intros Hw. by apply split_space_word. Qed.

Lemma encode_first_message c w raw :
  ~ In SPACE (c :: w) ->
  utf8_encode (c :: w) = Done raw ->
  Z.of_nat (length raw) < 2 ^ 16 ->
  encode 20 (c :: w) init =
  (Done ([128] ++ to_bytes2 (Z.of_nat (length raw)) ++ raw),
   after_first_word (Some (c :: w)) (<[c :: w := 3%nat]> ∅)).
Proof.
  intros Hw Hraw Hlen. unfold encode. rewrite message_words by done.
  cbn [encode_words]. unfold bind at 1, ret at 1. unfold bind at 1. unfold bind at 1.
  by rewrite (encode_first_word (c :: w) raw new_writer Hraw Hlen).
Qed.

Lemma increment_ncw_init :
  increment_weight 19 (Some 1%nat) init =
  (Done tt, modify_node 2 (Node.set_weight 1) (modify_node 1 (Node.set_weight 1) init)).
Proof. vm_compute. reflexivity. Qed.

Lemma insert_first_decoded w :
  insert_new_word 19 w
    (modify_node 2 (Node.set_weight 1) (modify_node 1 (Node.set_weight 1) init))
  = (Done tt, one_word 1 1 (Some w) (<[w := 3%nat]> ∅)).
Proof.
  rewrite insert_new_word_eq.
  change (insert_prepare w _) with
    (mkCodec [ Node.mk None 0 1 (Some 4%nat) (Some 3%nat) (Some 2%nat) false false;
               Node.mk None 1 2 None None (Some 2%nat) false true;
               Node.mk None 1 3 (Some 0%nat) (Some 1%nat) None false false;
               Node.mk (Some w) 0 3 None None (Some 0%nat) false false;
               Node.mk None 0 4 None None (Some 0%nat) true false ]
       (<[w := 3%nat]> ∅) 5 4%nat 1%nat 2%nat).
  generalize (<[w := 3%nat]> (∅ : gmap (list Z) nat)). intros lv.
  generalize (Some w). intros sym.
  vm_compute. reflexivity.
Qed.

Lemma decode_first_message raw w :
  utf8_decode raw = Done w ->
  Z.of_nat (length raw) < 2 ^ 16 ->
  w <> [SPACE] ->
  decode 20 ([128] ++ to_bytes2 (Z.of_nat (length raw)) ++ raw) init =
  (Done w, one_word 1 1 (Some w) (<[w := 3%nat]> ∅)).
Proof.
  intros Hw Hlen Hsep.
  set (data := [128] ++ to_bytes2 (Z.of_nat (length raw)) ++ raw).
  assert (length data = (3 + length raw)%nat) as Hdata by done.
  unfold decode, bind at 1. change 20%nat with (S 19). rewrite decode_loop_S.
  assert (has_bits (new_reader data) = true) as ->.
  { unfold has_bits, remaining_bits. cbn [new_reader r_data r_byte_pos r_bit_pos].
    apply Z.ltb_lt. lia. }
  destruct (walk_follow init [true] 2 1 (new_reader data)
              (repeat false 7 ++ bits_of (to_bytes2 (Z.of_nat (length raw)) ++ raw)) 19)
    as (r1 & Hwalk & _ & Hq1 & Hd1 & Hi1); [done | done | simpl; lia | done | simpl; lia |].
  assert (r1 = mkReader data 0 1) as ->.
  { destruct r1 as [d bp q]. unfold bit_index in Hi1. simpl in Hd1, Hi1, Hq1.
    subst d. f_equal; lia. }
  unfold bind at 1.
  rewrite (decode_next_word_at_ncw 19 (new_reader data) init 1 (mkReader data 0 1))
    by done.
  unfold decode_new_word_steps. unfold bind at 1. rewrite increment_ncw_init.
  unfold bind at 1, lift at 1.
  rewrite (read_uint16_at _ [128] (Z.of_nat (length raw)) raw) by (done || lia).
  unfold bind at 1, lift at 1.
  rewrite (read_bytes_at _ ([128] ++ to_bytes2 (Z.of_nat (length raw))) raw [])
    by (by rewrite ?app_nil_r).
  unfold bind at 1, lift at 1. rewrite Hw.
  unfold bind at 1. rewrite insert_first_decoded. unfold ret at 1.
  rewrite bool_decide_eq_false_2 by done.
  rewrite decode_loop_end; [done|].
  unfold has_bits, remaining_bits.
  cbn [r_data r_byte_pos r_bit_pos align_to_byte Nat.eqb].
  apply Z.ltb_ge. rewrite Hdata.
  change (length ([128] ++ to_bytes2 (Z.of_nat (length raw)))) with 3%nat. lia.
Qed.

Lemma round_trip_first_word w raw fuel :
  ~ In SPACE w ->
  utf8_encode w = Done raw ->
  Z.of_nat (length raw) < 2 ^ 16 ->
  (20 <= fuel)%nat ->
  round_trip fuel w = Done w.
Proof.
  intros Hsp Hraw Hlen Hfuel. unfold round_trip.
  destruct w as [|c w].
  { replace (encode fuel [] init) with (Done (A := list Z) [], init) by done.
    by destruct fuel. }
  rewrite (encode_fuel 20 fuel _ _ _ _ Hfuel (encode_first_message c w raw Hsp Hraw Hlen)).
  rewrite (decode_fuel 20 fuel _ _ _ _ Hfuel
             (decode_first_message raw (c :: w) (utf8_round_trip _ _ Hraw) Hlen
                (no_space_not_separator _ Hsp))).
  done.
Qed.

(** ** The same word again *)

Lemma after_first_word_one_word sym lv : after_first_word sym lv = one_word 1 0 sym lv.
Proof. reflexivity. Qed.

Lemma increment_known_encoder sym lv :
  increment_weight 20 (Some 3%nat) (one_word 1 0 sym lv) = (Done tt, one_word 2 0 sym lv).
Proof. vm_compute. reflexivity. Qed.

Lemma encode_second_message c w lv :
  ~ In SPACE (c :: w) ->
  lv !! (c :: w) = Some 3%nat ->
  encode 20 (c :: w) (one_word 1 0 (Some (c :: w)) lv) =
  (Done [0], one_word 2 0 (Some (c :: w)) lv).
Proof.
  intros Hw Hlv. unfold encode. rewrite message_words by done.
  cbn [encode_words]. unfold bind at 1, ret at 1. unfold bind at 1. unfold bind at 1.
  rewrite (encode_word_known 20 (c :: w) new_writer _ 3) by done.
  change (path_to_node 20 (one_word 1 0 (Some (c :: w)) lv) 3)
    with (Done (A := list bool) [false; false]).
  unfold bind at 1. by rewrite increment_known_encoder.
Qed.

Lemma decode_known_steps sym lv :
  decode_next_word 19 (mkReader [0] 0 0) (one_word 1 1 sym lv)
    = (Done (default [] sym, mkReader [0] 0 2), one_word 2 1 sym lv) /\
  decode_next_word 18 (mkReader [0] 0 2) (one_word 2 1 sym lv)
    = (Done (default [] sym, mkReader [0] 0 4), one_word 3 1 sym lv) /\
  decode_next_word 17 (mkReader [0] 0 4) (one_word 3 1 sym lv)
    = (Done (default [] sym, mkReader [0] 0 6), one_word 4 1 sym lv) /\
  decode_next_word 16 (mkReader [0] 0 6) (one_word 4 1 sym lv)
    = (Done (default [] sym, mkReader [0] 1 0), one_word 5 1 sym lv).
Proof. repeat split; vm_compute; reflexivity. Qed.

Lemma decode_second_message w lv :
  w <> [SPACE] ->
  decode 20 [0] (one_word 1 1 (Some w) lv) =
  (Done (join_space [w; w; w; w]), one_word 5 1 (Some w) lv).
Proof.
  intros Hsep. destruct (decode_known_steps (Some w) lv) as (H1 & H2 & H3 & H4).
  cbn [default] in *.
  unfold decode, bind at 1. change (new_reader [0]) with (mkReader [0] 0 0).
  change 20%nat with (S 19). rewrite decode_loop_S.
  change (has_bits (mkReader [0] 0 0)) with true. cbv iota.
  unfold bind at 1. rewrite H1. rewrite bool_decide_eq_false_2 by done.
  change 19%nat with (S 18). rewrite decode_loop_S.
  change (has_bits (mkReader [0] 0 2)) with true. cbv iota.
  unfold bind at 1. rewrite H2. rewrite bool_decide_eq_false_2 by done.
  change 18%nat with (S 17). rewrite decode_loop_S.
  change (has_bits (mkReader [0] 0 4)) with true. cbv iota.
  unfold bind at 1. rewrite H3. rewrite bool_decide_eq_false_2 by done.
  change 17%nat with (S 16). rewrite decode_loop_S.
  change (has_bits (mkReader [0] 0 6)) with true. cbv iota.
  unfold bind at 1. rewrite H4. rewrite bool_decide_eq_false_2 by done.
  rewrite decode_loop_end by done. done.
Qed.

(** ** Words that cannot be written *)

Lemma encode_word_unwritable fuel word writer h path :
  leaves h !! word = None ->
  path_to_node fuel h (ncw h) = Done path ->
  utf8_encode word = Raised UnicodeEncodeError \/
    (exists raw, utf8_encode word = Done raw /\ 2 ^ 16 <= Z.of_nat (length raw)) ->
  exists e, encode_word fuel word writer h = (Raised e, h) /\ is_ValueError e = true.
Proof.
  intros Hnew Hpath Hraw. unfold encode_word, bind at 1 2 3, lift at 1 2 3.
  rewrite Hnew. cbn [default]. rewrite Hpath.
  rewrite bool_decide_eq_true_2 by done. unfold bind at 1, lift at 1.
  destruct Hraw as [-> | (raw & -> & Hlen)].
  - by exists UnicodeEncodeError.
  - exists WordTooLong. destruct (Z.leb_spec (2 ^ 16) (Z.of_nat (length raw))); [done | lia].
Qed.

Lemma encode_unwritable_first_word fuel text word rest h path :
  text <> [] ->
  split_space text = word :: rest ->
  leaves h !! word = None ->
  path_to_node fuel h (ncw h) = Done path ->
  utf8_encode word = Raised UnicodeEncodeError \/
    (exists raw, utf8_encode word = Done raw /\ 2 ^ 16 <= Z.of_nat (length raw)) ->
  exists e, encode fuel text h = (Raised e, h) /\ is_ValueError e = true.
Proof.
  intros Htext Hsplit Hnew Hpath Hraw. unfold encode.
  destruct text as [|c text]; [done|]. rewrite Hsplit.
  cbn [encode_words]. unfold bind at 1, ret at 1. unfold bind at 1. unfold bind at 1.
  destruct (encode_word_unwritable fuel word new_writer h path Hnew Hpath Hraw)
    as (e & -> & He).
  by exists e.
Qed.

(** ** Empty input *)

Lemma encode_empty fuel h : encode fuel [] h = (Done [], h).
Proof. reflexivity. Qed.

Lemma decode_empty fuel h : decode fuel [] h = (Done [], h).
Proof. unfold decode, bind. by rewrite decode_loop_end. Qed.

(** ** _is_ancestor *)

Lemma is_ancestor_iff fuel h a d b :
  is_ancestor fuel h a d = Done b -> (b = true <-> ancestor_of h a d).
Proof.
  intros H. destruct b.
  - split; [intros _; by eapply is_ancestor_true | done].
  - split; [done | intros Hanc; by destruct (is_ancestor_false _ _ _ _ H)].
Qed.

(** ** The record of a new word *)

Lemma flush_filled w : w_filled (flush_to_byte w) = 0.
Proof. unfold flush_to_byte. by destruct (Z.eqb_spec (w_filled w) 0). Qed.

Lemma flush_aligned w : w_filled w = 0 -> flush_to_byte w = w.
Proof. intros Hf. unfold flush_to_byte. by rewrite Hf. Qed.

Lemma get_data_extend w d :
  get_data (mkWriter (w_buffer (flush_to_byte w) ++ d)
              (w_current (flush_to_byte w)) (w_filled (flush_to_byte w)))
  = get_data w ++ d.
Proof.
  unfold get_data. rewrite (flush_aligned (mkWriter _ _ _)); [done|].
  cbn [w_filled]. apply flush_filled.
Qed.

Lemma get_data_flush w : get_data (flush_to_byte w) = get_data w.
Proof. unfold get_data. by rewrite (flush_aligned (flush_to_byte w)) by apply flush_filled. Qed.

Lemma get_data_new_word_payload w path raw :
  get_data (new_word_payload w path raw)
  = get_data (add_bits w path) ++ to_bytes2 (Z.of_nat (length raw)) ++ raw.
Proof.
  unfold new_word_payload, add_bytes, add_uint16.
  by rewrite !get_data_extend, get_data_flush, <- app_assoc.
Qed.

Lemma align_aligned r : r_bit_pos r = 0%nat -> align_to_byte r = r.
Proof. intros Hb. unfold align_to_byte. by rewrite Hb. Qed.

Lemma new_word_record_aux path raw rest :
  Z.of_nat (length raw) < 2 ^ 16 ->
  let data := get_data (new_word_payload new_writer path raw) ++ rest in
  exists r1 r2,
    read_bits (length path) (new_reader data) = Done (path, r1) /\
    read_uint16 (align_to_byte r1) = Done (Z.of_nat (length raw), r2) /\
    read_bytes r2 (Z.of_nat (length raw))
    = Done (raw, mkReader data (length data - length rest) 0).
Proof.
  intros Hlen data. subst data. rewrite get_data_new_word_payload.
  set (n := Z.of_nat (length raw)).
  assert (0 <= n < 2 ^ 16) as Hn by (subst n; lia).
  set (D := get_data (add_bits new_writer path)).
  destruct (bits_round_trip_aux path (to_bytes2 n ++ raw ++ rest)) as (r1 & Hread & Halign).
  fold D in Hread, Halign.
  assert ((D ++ to_bytes2 n ++ raw) ++ rest = D ++ to_bytes2 n ++ raw ++ rest) as Hd
    by (by rewrite <- !app_assoc).
  rewrite Hd. exists r1, (mkReader (D ++ to_bytes2 n ++ raw ++ rest) (length D + 2) 0).
  split; [done|]. rewrite Halign. split.
  - by rewrite (read_uint16_at _ D n (raw ++ rest) Hn).
  - rewrite (read_bytes_at _ (D ++ to_bytes2 n) raw rest).
    + cbn [r_data]. do 2 f_equal. rewrite !length_app.
      change (length (to_bytes2 n)) with 2%nat. f_equal. lia.
    + cbn [r_data]. by rewrite <- app_assoc.
    + cbn [r_byte_pos align_to_byte r_bit_pos Nat.eqb]. by rewrite length_app.
Qed.

(** * A stream on which the decoder never returns *)


Lemma bind_out_of_fuel {A B} (m : M A) (k : A -> M B) h :
  fst (m h) = OutOfFuel -> fst (bind m k h) = OutOfFuel.
Proof. unfold bind. by destruct (m h) as [[| |] ?]. Qed.

Lemma has_bits_within d bp q :
  (bp < length d)%nat -> (q < 8)%nat -> has_bits (mkReader d bp q) = true.
Proof.
  intros Hbp Hq. unfold has_bits, remaining_bits. cbn [r_data r_byte_pos r_bit_pos].
  apply Z.ltb_lt. lia.
Qed.

(** A token that is decoded with some fuel is decoded by every run of the
    loop that has fuel left; if the loop never ends from there, it never
    ends. *)
Lemma decode_loop_diverges_after n r h w r' h' :
  has_bits r = true ->
  decode_next_word n r h = (Done (w, r'), h') ->
  (forall f words, fst (decode_loop f r' words h') = OutOfFuel) ->
  forall f words, fst (decode_loop f r words h) = OutOfFuel.
Proof.
  intros Hbits Hn Hrest [|f] words; cbn [decode_loop]; rewrite Hbits; [done|].
  unfold bind.
  destruct (fuel_cases (fun k => decode_next_word k r) n h
              ltac:(intros; by apply decode_next_word_mono)
              ltac:(cbv beta; by rewrite Hn) f) as [Ho | He]; cbv beta in *.
  - destruct (decode_next_word f r h) as [[| |] ?]; simpl in *; congruence.
  - rewrite He, Hn. destruct (bool_decide _); apply Hrest.
Qed.

Lemma decode_loop_diverges_at r h :
  has_bits r = true ->
  (forall f, fst (decode_next_word f r h) = OutOfFuel) ->
  forall f words, fst (decode_loop f r words h) = OutOfFuel.
Proof.
  intros Hbits Hn [|f] words; cbn [decode_loop]; rewrite Hbits; [done|].
  by apply bind_out_of_fuel.
Qed.

(** ** The third new word on a fresh decoder *)

Lemma find_highest_third_insert_cycle lv fuel :
  find_highest_node_in_block fuel (third_insert_cycle lv) 6 = OutOfFuel.
Proof.
  destruct fuel as [|[|[|[|g]]]]; try reflexivity.
  unfold find_highest_node_in_block. simpl. unfold is_ancestor.
  change (Node.parent (node_at (third_insert_cycle lv) 6)) with (Some 4%nat).
  by rewrite (proj1 (is_ancestor_loop_cycle (third_insert_cycle lv) 4 6 7
                       eq_refl eq_refl ltac:(lia) ltac:(lia) g)).
Qed.

(** ** One new-word record *)

Lemma decode_new_word_steps_read fuel node r1 h len r2 raw r3 w :
  read_uint16 (align_to_byte r1) = Done (len, r2) ->
  read_bytes r2 len = Done (raw, r3) ->
  utf8_decode raw = Done w ->
  decode_new_word_steps fuel node r1 h
  = (increment_weight fuel (Some node) ;; insert_new_word fuel w ;; ret (w, r3)) h.
Proof.
  intros Hu Hb Hw. unfold decode_new_word_steps, bind, lift.
  destruct (increment_weight fuel (Some node) h) as [[[]| |] h1]; [| done..].
  by rewrite Hu, Hb, Hw.
Qed.

Lemma decode_next_word_record fuel h pre esc path pad raw post w node :
  follow h (root h) path = Some node ->
  Node.is_leaf (node_at h node) = true ->
  Node.is_ncw (node_at h node) = true ->
  bits_of esc = path ++ repeat false pad -> (pad < 8)%nat ->
  Z.of_nat (length raw) < 2 ^ 16 ->
  utf8_decode raw = Done w ->
  (length path <= fuel)%nat ->
  decode_next_word fuel
    (mkReader (pre ++ esc ++ to_bytes2 (Z.of_nat (length raw)) ++ raw ++ post)
       (length pre) 0) h
  = (increment_weight fuel (Some node) ;;
     insert_new_word fuel w ;;
     ret (w, mkReader (pre ++ esc ++ to_bytes2 (Z.of_nat (length raw)) ++ raw ++ post)
               (length pre + length esc + 2 + length raw) 0)) h.
Proof.
  intros Hf Hleaf Hncw Hesc Hpad Hlen Hw Hfuel.
  set (data := pre ++ esc ++ to_bytes2 (Z.of_nat (length raw)) ++ raw ++ post).
  set (r := mkReader data (length pre) 0).
  assert (upcoming r = path ++ repeat false pad
                         ++ bits_of (to_bytes2 (Z.of_nat (length raw)) ++ raw ++ post))
    as Hup.
  { unfold upcoming, bit_index, r, data. cbn [r_data r_byte_pos r_bit_pos].
    rewrite bits_of_app, Nat.add_0_r, <- length_bits_of, drop_app_length.
    by rewrite bits_of_app, Hesc, <- app_assoc. }
  destruct (walk_follow h path (root h) node r _ fuel Hf Hleaf ltac:(simpl; lia) Hup Hfuel)
    as (r1 & Hwalk & _ & Hq1 & Hd1 & Hi1).
  assert (align_to_byte r1 = mkReader data (length pre + length esc) 0) as Halign.
  { destruct r1 as [d bp q]. cbn [r_data r_bit_pos] in Hd1, Hq1. subst d.
    unfold bit_index in Hi1. cbn [r_byte_pos r_bit_pos r] in Hi1.
    apply (f_equal length) in Hesc.
    rewrite length_bits_of, length_app, repeat_length in Hesc.
    apply (align_after_bits data bp q (8 * bp + q) pad); [done | done | done | lia]. }
  rewrite (decode_next_word_at_ncw fuel r h node r1 Hwalk Hncw).
  apply (decode_new_word_steps_read fuel node r1 h (Z.of_nat (length raw))
           (mkReader data (length pre + length esc + 2) 0) raw).
  - rewrite Halign.
    rewrite (read_uint16_at _ (pre ++ esc) (Z.of_nat (length raw)) (raw ++ post));
      [| lia | by unfold data; rewrite <- app_assoc | by rewrite length_app].
    by rewrite length_app.
  - rewrite (read_bytes_at _ ((pre ++ esc) ++ to_bytes2 (Z.of_nat (length raw))) raw post);
      [| by unfold data; rewrite <- !app_assoc | by rewrite !length_app].
    cbn [r_data]. rewrite !length_app.
    by change (length (to_bytes2 (Z.of_nat (length raw)))) with 2%nat.
  - done.
Qed.

Lemma diverges_below {A} (m : nat -> M A) (k : nat) (h : AdaptiveHuffman) :
  (forall n n', (n <= n')%nat -> mrefines (m n) (m n')) ->
  (forall f, (k <= f)%nat -> fst (m f h) = OutOfFuel) ->
  forall f, fst (m f h) = OutOfFuel.
Proof.
  intros Hmono Hk f.
  destruct (Hmono f (f + k)%nat ltac:(lia) h) as [Ho | He]; [done|].
  rewrite He. apply Hk. lia.
Qed.

(** ** Three new words on a fresh decoder *)

Section three_new_words.
Variable rest : bytes.

Let data : bytes := three_new_words ++ rest.
Let S1 : AdaptiveHuffman := one_word 1 1 (Some [97]) (<[[97] := 3%nat]> ∅).
Let S1' : AdaptiveHuffman := snd (increment_weight 19 (Some 1%nat) S1).
Let S2 : AdaptiveHuffman := snd (insert_new_word 19 [32] S1').
Let S2' : AdaptiveHuffman := snd (increment_weight 19 (Some 1%nat) S2).

Local Lemma first_record :
  decode_next_word 19 (mkReader data 0 0) init = (Done ([97], mkReader data 4 0), S1).
Proof.
  etrans.
  { exact (decode_next_word_record 19 init [] [128] [true] 7 [97]
             ([128; 0; 1; 32; 0; 0; 1; 98] ++ rest) [97] 1
             eq_refl eq_refl eq_refl eq_refl ltac:(lia) ltac:(by vm_compute) eq_refl
             ltac:(simpl; lia)). }
  unfold bind at 1. rewrite increment_ncw_init.
  unfold bind at 1. rewrite insert_first_decoded. done.
Qed.

Local Lemma second_record :
  decode_next_word 19 (mkReader data 4 0) S1 = (Done ([32], mkReader data 8 0), S2).
Proof.
  etrans.
  { exact (decode_next_word_record 19 S1 [128; 0; 1; 97] [128] [true] 7 [32]
             ([0; 0; 1; 98] ++ rest) [32] 1
             eq_refl eq_refl eq_refl eq_refl ltac:(lia) ltac:(by vm_compute) eq_refl
             ltac:(simpl; lia)). }
  unfold bind at 1.
  replace (increment_weight 19 (Some 1%nat) S1) with (Done tt, S1')
    by (vm_compute; reflexivity).
  unfold bind at 1.
  replace (insert_new_word 19 [32] S1') with (Done tt, S2) by (vm_compute; reflexivity).
  done.
Qed.

Local Lemma third_insert fuel :
  fst (insert_new_word fuel [98] S2') = OutOfFuel.
Proof.
  rewrite insert_new_word_eq.
  replace (length (heap S2')) with 7%nat by (vm_compute; reflexivity).
  destruct fuel as [|f]; [done|]. cbn [increment_weight].
  eapply (bind_diverges (fun n => increment_step n 7) _ 20);
    [intros; by apply increment_step_mono | vm_compute; reflexivity |].
  destruct f as [|f]; [done|]. cbn [increment_weight].
  eapply (bind_diverges (fun n => increment_step n 6) _ 20);
    [intros; by apply increment_step_mono | vm_compute; reflexivity |].
  destruct f as [|f]; [done|]. cbn [increment_weight].
  apply (bind_diverges (fun n => increment_step n 4) _ 20 _ (Some 6%nat)
           (third_insert_cycle
              (<[[98] := 7%nat]> (<[[32] := 5%nat]> (<[[97] := 3%nat]> ∅)))));
    [intros; by apply increment_step_mono | vm_compute; reflexivity |].
  destruct f as [|f]; [done|]. cbn [increment_weight].
  unfold bind at 1, increment_step, bind at 1, lift at 1.
  by rewrite find_highest_third_insert_cycle.
Qed.

Local Lemma third_record fuel :
  fst (decode_next_word fuel (mkReader data 8 0) S2) = OutOfFuel.
Proof.
  revert fuel.
  apply (diverges_below (fun n => decode_next_word n (mkReader data 8 0)) 2);
    [intros; by apply decode_next_word_mono|].
  intros f Hf. cbv beta.
  replace (decode_next_word f (mkReader data 8 0) S2) with
    ((increment_weight f (Some 1%nat) ;;
      insert_new_word f [98] ;;
      ret ([98], mkReader data 12 0)) S2).
  2: { symmetry.
       exact (decode_next_word_record f S2 [128; 0; 1; 97; 128; 0; 1; 32] [0]
                [false; false] 6 [98] rest [98] 1
                ltac:(vm_compute; reflexivity) ltac:(vm_compute; reflexivity)
                ltac:(vm_compute; reflexivity) eq_refl ltac:(lia) ltac:(by vm_compute)
                eq_refl Hf). }
  apply (bind_diverges (fun n => increment_weight n (Some 1%nat)) _ 19 _ tt S2');
    [intros; by apply increment_weight_mono | vm_compute; reflexivity |].
  apply bind_out_of_fuel, third_insert.
Qed.

Lemma decode_three_new_words fuel :
  fst (decode fuel data init) = OutOfFuel.
Proof.
  unfold decode. apply bind_out_of_fuel.
  assert (12 <= length data)%nat as Hlen.
  { unfold data. rewrite length_app. simpl. lia. }
  change (new_reader data) with (mkReader data 0 0).
  apply (decode_loop_diverges_after 19 _ _ _ _ _
           (has_bits_within data 0 0 ltac:(lia) ltac:(lia)) first_record).
  apply (decode_loop_diverges_after 19 _ _ _ _ _
           (has_bits_within data 4 0 ltac:(lia) ltac:(lia)) second_record).
  apply (decode_loop_diverges_at _ _
           (has_bits_within data 8 0 ltac:(lia) ltac:(lia)) third_record).
Qed.
End three_new_words.

(** C8.  A stream that is cut short after its third new word does not make
    [decode] fail.  A fresh decoder that reads the three new-word records
    "a", " " and "b" never gets to what follows them: while it inserts the
    third word, the increment walk swaps a node with a node two levels below
    it and [_is_ancestor] follows the parent cycle for ever.  Hence for
    every continuation of the stream, one that ends in the middle of a
    token included, [decode] neither returns nor raises. *)
Theorem decode_never_fails_after_three_new_words rest fuel :
  fst (decode fuel ([128; 0; 1; 97; 128; 0; 1; 32; 0; 0; 1; 98] ++ rest) init)
  = OutOfFuel.
Proof. apply decode_three_new_words. Qed.

(** * Further properties of the code *)

(** ** Bit input and output *)

(** X1.  Bits written with [add_bits] to a new writer are read back by as
    many calls of [read_bit] from the bytes that [get_data] returns, in the
    same order and whatever bytes follow; [align_to_byte] then skips exactly
    the padding that [flush_to_byte] added and leaves the reader at the
    first byte after the written ones. *)
Theorem bits_written_are_read_back bits rest :
  let data := get_data (add_bits new_writer bits) in
  exists r,
    read_bits (length bits) (new_reader (data ++ rest)) = Done (bits, r) /\
    align_to_byte r = mkReader (data ++ rest) (length data) 0.
Proof. apply bits_round_trip_aux. Qed.

(** X2.  [n] bits written to a new writer give [ceil(n / 8)] bytes. *)
Theorem written_bits_fill_whole_bytes bits :
  length (get_data (add_bits new_writer bits)) = ((length bits + 7) / 8)%nat.
Proof. apply get_data_add_bits_length. Qed.

(** X3.  Every byte of a message that [encode] returns lies in
    [0, 256), from whatever state of the instance and for whatever text:
    the values that the writer appends to its [bytearray] are always
    accepted by it. *)
Theorem encode_output_is_bytes fuel text h data :
  fst (encode fuel text h) = Done data ->
  Forall (fun b => 0 <= b < 256) data.
Proof. apply encode_output_range. Qed.

Lemma encode_output_is_bytes_witness :
  fst (encode 20 (py "hi") init) = Done [128; 0; 2; 104; 105] /\
  Forall (fun b => 0 <= b < 256) [128; 0; 2; 104; 105].
Proof.
  split; [by vm_compute|].
  apply (encode_output_is_bytes 20 (py "hi") init). by vm_compute.
Defined.

(** X4.  The record that [_encode_word] writes for a new word (the path,
    padding, the 16-bit length and the raw bytes) is read back field by
    field by the reads of [_decode_next_word]: the path bit by bit, then
    [read_uint16] after [align_to_byte] gives the length and [read_bytes]
    gives the raw bytes and stops at the first byte after the record. *)
Theorem new_word_record_is_read_back path raw rest :
  Z.of_nat (length raw) < 2 ^ 16 ->
  let data := get_data (new_word_payload new_writer path raw) ++ rest in
  exists r1 r2,
    read_bits (length path) (new_reader data) = Done (path, r1) /\
    read_uint16 (align_to_byte r1) = Done (Z.of_nat (length raw), r2) /\
    read_bytes r2 (Z.of_nat (length raw))
    = Done (raw, mkReader data (length data - length rest) 0).
Proof. apply new_word_record_aux. Qed.

Lemma new_word_record_is_read_back_witness :
  Z.of_nat (length [104; 105]) < 2 ^ 16 /\
  exists r1 r2,
    read_bits 2 (new_reader ([64; 0; 2; 104; 105] ++ [7]))
      = Done ([false; true], r1) /\
    read_uint16 (align_to_byte r1) = Done (2, r2) /\
    read_bytes r2 2 = Done ([104; 105], mkReader ([64; 0; 2; 104; 105] ++ [7]) 5 0).
Proof.
  split; [by vm_compute|].
  apply (new_word_record_is_read_back [false; true] [104; 105] [7]). by vm_compute.
Defined.

(** X5.  With a bit left, [read_bit] returns and consumes exactly one bit;
    with none left it raises "Not enough bits left in stream".  It never
    indexes past the data. *)
Theorem read_bit_takes_one_bit r :
  (r_bit_pos r < 8)%nat ->
  if has_bits r then
    exists b r', read_bit r = Done (b, r') /\
                 remaining_bits r' = remaining_bits r - 1 /\
                 (r_bit_pos r' < 8)%nat
  else read_bit r = Raised NotEnoughBits.
Proof.
  intros Hq. destruct (has_bits r) eqn:Hhas.
  - destruct (read_bit_has_bits r Hq Hhas) as (b & r' & ? & ? & ? & _). by exists b, r'.
  - by apply read_bit_no_bits.
Qed.

Lemma read_bit_takes_one_bit_witness :
  lt (r_bit_pos (mkReader [128] 0 7)) 8 /\
  exists b r', read_bit (mkReader [128] 0 7) = Done (b, r') /\
               remaining_bits r' = remaining_bits (mkReader [128] 0 7) - 1 /\
               (r_bit_pos r' < 8)%nat.
Proof.
  split; [simpl; lia|].
  apply (read_bit_takes_one_bit (mkReader [128] 0 7)). simpl. lia.
Defined.

(** ** Text *)

(** X6.  Joining the words of a text with single spaces gives the text
    back: [" ".join(text.split(" ")) == text]. *)
Theorem join_of_split s : join_space (split_space s) = s.
Proof. apply join_split_space. Qed.

(** X7.  Splitting a joined list of words gives the words back, provided
    there is at least one word and no word contains a space. *)
Theorem split_of_join ws :
  ws <> [] -> (forall w, In w ws -> ~ In SPACE w) ->
  split_space (join_space ws) = ws.
Proof. apply split_join_space. Qed.

Lemma split_of_join_witness :
  [py "a"; py ""; py "bc"] <> [] /\
  (forall w, In w [py "a"; py ""; py "bc"] -> ~ In SPACE w) /\
  split_space (join_space [py "a"; py ""; py "bc"]) = [py "a"; py ""; py "bc"].
Proof.
  assert (forall w, In w [py "a"; py ""; py "bc"] -> ~ In SPACE w) as Hws.
  { intros w [<- | [<- | [<- | []]]] Hin; vm_compute in Hin; intuition discriminate. }
  split; [done|]. split; [exact Hws|].
  apply (split_of_join [py "a"; py ""; py "bc"]); [done | exact Hws].
Defined.

(** X8.  The raw bytes of a word decode to the word: if [word.encode()]
    returns [raw] then [raw.decode()] returns [word]. *)
Theorem utf8_decode_of_encode s bs : utf8_encode s = Done bs -> utf8_decode bs = Done s.
Proof. apply utf8_round_trip. Qed.

Lemma utf8_decode_of_encode_witness :
  utf8_encode [104; 233; 8364; 128512] = Done [104; 195; 169; 226; 130; 172; 240; 159; 152; 128] /\
  utf8_decode [104; 195; 169; 226; 130; 172; 240; 159; 152; 128] = Done [104; 233; 8364; 128512].
Proof.
  split; [by vm_compute|].
  apply (utf8_decode_of_encode [104; 233; 8364; 128512]). by vm_compute.
Defined.

(** ** Messages *)

(** X9.  The empty text is encoded as the empty message and the empty
    message is decoded as the empty text, in every state of the instance,
    and neither call changes the instance. *)
Theorem empty_text_and_empty_message fuel h :
  encode fuel [] h = (Done [], h) /\ decode fuel [] h = (Done [], h).
Proof. split; [apply encode_empty | apply decode_empty]. Qed.

(** X10.  A text of one word (no space in it, at most 65535 bytes of UTF-8)
    survives the round trip through a fresh encoder and a fresh decoder. *)
Theorem one_word_round_trip w raw fuel :
  ~ In SPACE w ->
  utf8_encode w = Done raw ->
  Z.of_nat (length raw) < 2 ^ 16 ->
  (20 <= fuel)%nat ->
  round_trip fuel w = Done w.
Proof. apply round_trip_first_word. Qed.

Lemma one_word_round_trip_witness :
  ~ In SPACE (py "hello") /\
  utf8_encode (py "hello") = Done [104; 101; 108; 108; 111] /\
  Z.of_nat (length [104; 101; 108; 108; 111]) < 2 ^ 16 /\
  (20 <= 25)%nat /\
  round_trip 25 (py "hello") = Done (py "hello").
Proof.
  assert (~ In SPACE (py "hello")) as Hsp.
  { intros Hin. vm_compute in Hin. intuition discriminate. }
  split; [exact Hsp|]. split; [by vm_compute|]. split; [by vm_compute|].
  split; [lia|].
  apply (one_word_round_trip (py "hello") [104; 101; 108; 108; 111] 25);
    [exact Hsp | by vm_compute | by vm_compute | lia].
Defined.

(** X11.  The round trip fails on the second message already when the same
    one-word text is sent twice: the encoder's second message is the single
    byte 0 (the two bits of the word's path and six bits of padding), and
    the decoder, which reads tokens as long as bits are left, decodes the
    padding as three more occurrences of the word. *)
Theorem repeated_word_is_decoded_four_times c w raw :
  ~ In SPACE (c :: w) ->
  utf8_encode (c :: w) = Done raw ->
  Z.of_nat (length raw) < 2 ^ 16 ->
  exists data1 e1 d1,
    encode 20 (c :: w) init = (Done data1, e1) /\
    decode 20 data1 init = (Done (c :: w), d1) /\
    fst (encode 20 (c :: w) e1) = Done [0] /\
    fst (decode 20 [0] d1)
    = Done (join_space [c :: w; c :: w; c :: w; c :: w]).
Proof.
  intros Hsp Hraw Hlen.
  eexists _, _, _. split; [by apply encode_first_message|].
  split.
  { apply decode_first_message; [by apply utf8_round_trip | done |].
    by apply no_space_not_separator. }
  split.
  - rewrite after_first_word_one_word, encode_second_message;
      [done | done | by rewrite lookup_insert_eq].
  - rewrite decode_second_message; [done | by apply no_space_not_separator].
Qed.

Lemma repeated_word_is_decoded_four_times_witness :
  ~ In SPACE (py "a") /\
  utf8_encode (py "a") = Done [97] /\
  Z.of_nat (length [97]) < 2 ^ 16 /\
  exists data1 e1 d1,
    encode 20 (py "a") init = (Done data1, e1) /\
    decode 20 data1 init = (Done (py "a"), d1) /\
    fst (encode 20 (py "a") e1) = Done [0] /\
    fst (decode 20 [0] d1) = Done (py "a a a a").
Proof.
  assert (~ In SPACE (py "a")) as Hsp.
  { intros Hin. vm_compute in Hin. intuition discriminate. }
  split; [exact Hsp|]. split; [by vm_compute|]. split; [by vm_compute|].
  apply (repeated_word_is_decoded_four_times 97 [] [97]);
    [exact Hsp | by vm_compute | by vm_compute].
Defined.

(** X12.  If the first word of a text, the part before its first space, is
    new and cannot be written (it has no UTF-8 encoding, or its encoding has
    65536 bytes or more), [encode] raises a [ValueError] and the instance is
    left as it was, whatever words follow. *)
Theorem unwritable_word_leaves_instance_unchanged fuel text word rest h path :
  text <> [] ->
  split_space text = word :: rest ->
  leaves h !! word = None ->
  path_to_node fuel h (ncw h) = Done path ->
  utf8_encode word = Raised UnicodeEncodeError \/
    (exists raw, utf8_encode word = Done raw /\ 2 ^ 16 <= Z.of_nat (length raw)) ->
  exists e, encode fuel text h = (Raised e, h) /\ is_ValueError e = true.
Proof. apply encode_unwritable_first_word. Qed.

Lemma unwritable_word_leaves_instance_unchanged_witness :
  [55296; 32; 97] <> [] /\
  split_space [55296; 32; 97] = [55296] :: [[97]] /\
  leaves init !! [55296] = None /\
  path_to_node 5 init (ncw init) = Done [true] /\
  utf8_encode [55296] = Raised UnicodeEncodeError /\
  exists e, encode 5 [55296; 32; 97] init = (Raised e, init) /\ is_ValueError e = true.
Proof.
  split; [done|]. split; [by vm_compute|]. split; [done|]. split; [by vm_compute|].
  split; [by vm_compute|].
  apply (unwritable_word_leaves_instance_unchanged 5 [55296; 32; 97] [55296] [[97]]
           init [true]); [done | by vm_compute | done | by vm_compute | left; by vm_compute].
Defined.

(** ** The tree *)

(** X13.  [_increment_weight] changes weights and positions only: whatever
    the state it starts in and however it ends, the instance has the same
    nodes with the same keys, symbols and flags, every leaf is still a leaf
    and every internal node internal, a node has a parent iff it had one,
    no weight has decreased, and the word index, the key counter and the
    references to the NYT, NCW and root nodes are the same. *)
Theorem increment_weight_keeps_labels fuel node h :
  same_labels h (snd (increment_weight fuel node h)).
Proof. apply increment_weight_labels. Qed.

(** X14.  In every state that [encode] and [decode] calls can leave behind,
    the key counter equals the number of nodes, and the only two nodes that
    share a key are the root and the leaf of the first word. *)
Theorem only_root_and_first_leaf_share_a_key h :
  reachable h ->
  next_key h = Z.of_nat (size h) /\
  forall i j, (i < j < size h)%nat ->
              Node.key (node_at h i) = Node.key (node_at h j) ->
              i = root h /\ j = 3%nat.
Proof.
  intros Hl%reachable_labelled. split; [apply (lb_next_key _ Hl)|].
  intros i j Hij. rewrite (lb_root _ Hl), !(lb_key _ Hl) by lia.
  repeat case_decide; lia.
Qed.

Lemma only_root_and_first_leaf_share_a_key_witness :
  reachable (snd (decode 20 [128; 0; 1; 97] init)) /\
  next_key (snd (decode 20 [128; 0; 1; 97] init))
  = Z.of_nat (size (snd (decode 20 [128; 0; 1; 97] init))) /\
  forall i j, (i < j)%nat /\ lt j (size (snd (decode 20 [128; 0; 1; 97] init))) ->
              Node.key (node_at (snd (decode 20 [128; 0; 1; 97] init)) i)
              = Node.key (node_at (snd (decode 20 [128; 0; 1; 97] init)) j) ->
              i = root (snd (decode 20 [128; 0; 1; 97] init)) /\ j = 3%nat.
Proof.
  assert (reachable (snd (decode 20 [128; 0; 1; 97] init))) as Hreach.
  { apply reachable_decode; [apply reachable_init | by vm_compute]. }
  split; [exact Hreach|].
  apply (only_root_and_first_leaf_share_a_key _ Hreach).
Defined.

(** X15.  In every state that [encode] and [decode] calls can leave behind,
    exactly one node carries the NCW flag and exactly one the NYT flag,
    namely the nodes that [_ncw] and [_nyt] refer to; they are two different
    leaves, and the NYT leaf has weight 0. *)
Theorem one_ncw_leaf_and_one_nyt_leaf h :
  reachable h ->
  (forall j, Node.is_ncw (node_at h j) = true <-> j = ncw h) /\
  (forall j, Node.is_nyt (node_at h j) = true <-> j = nyt h) /\
  ncw h <> nyt h /\
  Node.is_leaf (node_at h (ncw h)) = true /\
  Node.is_leaf (node_at h (nyt h)) = true /\
  Node.weight (node_at h (nyt h)) = 0.
Proof.
  intros Hreach. pose proof (reachable_labelled _ Hreach) as Hl.
  destruct (reachable_Inv _ Hreach) as [Hwf _].
  split. { intros j. rewrite (lb_is_ncw _ Hl), (lb_ncw _ Hl). by case_bool_decide. }
  split. { intros j. rewrite (lb_is_nyt _ Hl). by case_bool_decide. }
  split. { rewrite (lb_ncw _ Hl). destruct (lb_nyt _ Hl); lia. }
  split. { rewrite (lb_ncw _ Hl). apply (lb_ncw_leaf _ Hl). }
  split; [apply (lb_nyt_leaf _ Hl) | apply (wf_nyt_weight _ Hwf)].
Qed.

Lemma one_ncw_leaf_and_one_nyt_leaf_witness :
  reachable init /\
  (forall j, Node.is_ncw (node_at init j) = true <-> j = ncw init) /\
  (forall j, Node.is_nyt (node_at init j) = true <-> j = nyt init) /\
  ncw init <> nyt init /\
  Node.is_leaf (node_at init (ncw init)) = true /\
  Node.is_leaf (node_at init (nyt init)) = true /\
  Node.weight (node_at init (nyt init)) = 0.
Proof.
  split; [apply reachable_init|].
  apply (one_ncw_leaf_and_one_nyt_leaf init reachable_init).
Defined.

(** X16.  In every state that [encode] and [decode] calls can leave behind,
    the word index maps a word to a leaf that carries this word as its
    symbol and is neither the NYT nor the NCW leaf. *)
Theorem index_points_to_the_leaf_of_the_word h w i :
  reachable h ->
  leaves h !! w = Some i ->
  (i < size h)%nat /\
  Node.symbol (node_at h i) = Some w /\
  Node.is_leaf (node_at h i) = true /\
  Node.is_nyt (node_at h i) = false /\
  Node.is_ncw (node_at h i) = false.
Proof.
  intros Hl%reachable_labelled Hi.
  pose proof (lb_leaves _ Hl _ _ Hi) as Hsym.
  destruct (lb_symbol _ Hl _ _ Hsym) as (Hlt & Hn & Hleaf).
  split; [lia|]. split; [done|]. split; [done|].
  rewrite (lb_is_nyt _ Hl), (lb_is_ncw _ Hl).
  split; apply bool_decide_eq_false_2; [done | lia].
Qed.

Lemma index_points_to_the_leaf_of_the_word_witness :
  reachable (snd (decode 20 [128; 0; 1; 97] init)) /\
  leaves (snd (decode 20 [128; 0; 1; 97] init)) !! py "a" = Some 3%nat /\
  lt 3 (size (snd (decode 20 [128; 0; 1; 97] init))) /\
  Node.symbol (node_at (snd (decode 20 [128; 0; 1; 97] init)) 3) = Some (py "a") /\
  Node.is_leaf (node_at (snd (decode 20 [128; 0; 1; 97] init)) 3) = true /\
  Node.is_nyt (node_at (snd (decode 20 [128; 0; 1; 97] init)) 3) = false /\
  Node.is_ncw (node_at (snd (decode 20 [128; 0; 1; 97] init)) 3) = false.
Proof.
  assert (reachable (snd (decode 20 [128; 0; 1; 97] init))) as Hreach.
  { apply reachable_decode; [apply reachable_init | by vm_compute]. }
  split; [exact Hreach|]. split; [by vm_compute|].
  apply (index_points_to_the_leaf_of_the_word _ (py "a") 3 Hreach). by vm_compute.
Defined.

(** X17.  In every state that [encode] and [decode] calls can leave behind,
    no weight is negative, the root is an internal node without a parent,
    and every other node has a parent. *)
Theorem root_is_the_only_node_without_parent h :
  reachable h ->
  (forall j, 0 <= Node.weight (node_at h j)) /\
  Node.is_leaf (node_at h (root h)) = false /\
  Node.parent (node_at h (root h)) = None /\
  forall j, (j < size h)%nat -> j <> root h -> Node.parent (node_at h j) <> None.
Proof.
  intros Hl%reachable_labelled. rewrite (lb_root _ Hl).
  split; [apply (lb_weight _ Hl)|]. split; [apply (lb_root_internal _ Hl)|].
  split; [apply (lb_root_parent _ Hl) | apply (lb_parent _ Hl)].
Qed.

Lemma root_is_the_only_node_without_parent_witness :
  reachable init /\
  (forall j, 0 <= Node.weight (node_at init j)) /\
  Node.is_leaf (node_at init (root init)) = false /\
  Node.parent (node_at init (root init)) = None /\
  forall j, (j < size init)%nat -> j <> root init ->
            Node.parent (node_at init j) <> None.
Proof.
  split; [apply reachable_init|].
  apply (root_is_the_only_node_without_parent init reachable_init).
Defined.

(** X18.  [_swap_nodes(a, b)] on the two children of one node does nothing
    when [a] is the left child, and exchanges the two children when [a] is
    the right child. *)
Theorem swap_of_siblings h a b p :
  a <> b -> (p < size h)%nat ->
  Node.parent (node_at h a) = Some p -> Node.parent (node_at h b) = Some p ->
  (Node.left (node_at h p) = Some a -> Node.right (node_at h p) = Some b ->
   swap_nodes a b h = (Done tt, h)) /\
  (Node.left (node_at h p) = Some b -> Node.right (node_at h p) = Some a ->
   swap_nodes a b h =
   (Done tt, modify_node p (Node.set_left (Some a))
               (modify_node p (Node.set_right (Some b)) h))).
Proof.
  intros Hab Hp Hpa Hpb. split; intros Hl Hr.
  - by apply (swap_siblings_left_aux h a b p).
  - by apply (swap_siblings_right_aux h a b p).
Qed.

Lemma swap_of_siblings_witness :
  0%nat <> 1%nat /\ (2 < size init)%nat /\
  Node.parent (node_at init 0) = Some 2%nat /\
  Node.parent (node_at init 1) = Some 2%nat /\
  Node.left (node_at init 2) = Some 0%nat /\
  Node.right (node_at init 2) = Some 1%nat /\
  swap_nodes 0 1 init = (Done tt, init).
Proof.
  split; [done|]. split; [simpl; lia|]. split; [done|]. split; [done|].
  split; [done|]. split; [done|].
  apply (proj1 (swap_of_siblings init 0 1 2 ltac:(done) ltac:(simpl; lia)
                  eq_refl eq_refl)); reflexivity.
Defined.

(** X19.  In every state that [encode] and [decode] calls can leave behind,
    the path that [_path_to_node] returns for a leaf is the code word of
    that leaf for the decoder: reading these bits, the walk at the head of
    [_decode_next_word] goes from the root to this leaf, consumes exactly
    these bits and needs one step per bit. *)
Theorem path_leads_the_walk_to_the_leaf h fuel n path r rest :
  reachable h ->
  Node.is_leaf (node_at h n) = true ->
  path_to_node fuel h n = Done path ->
  (r_bit_pos r < 8)%nat ->
  upcoming r = path ++ rest ->
  exists r', walk (length path) h (root h) r = Done (n, r') /\
             upcoming r' = rest /\ r_data r' = r_data r.
Proof.
  intros [Hwf _]%reachable_Inv Hleaf Hpath Hq Hup.
  pose proof (path_to_node_follow _ _ _ _ Hwf Hpath) as Hf.
  destruct (walk_follow h path (root h) n r rest (length path) Hf Hleaf Hq Hup
              ltac:(lia)) as (r' & ? & ? & _ & ? & _).
  by exists r'.
Qed.

Lemma path_leads_the_walk_to_the_leaf_witness :
  reachable (snd (decode 20 [128; 0; 1; 97] init)) /\
  Node.is_leaf (node_at (snd (decode 20 [128; 0; 1; 97] init)) 3) = true /\
  path_to_node 5 (snd (decode 20 [128; 0; 1; 97] init)) 3 = Done [false; false] /\
  lt (r_bit_pos (mkReader [33] 0 0)) 8 /\
  upcoming (mkReader [33] 0 0)
  = [false; false] ++ [true; false; false; false; false; true] /\
  exists r', walk 2 (snd (decode 20 [128; 0; 1; 97] init))
               (root (snd (decode 20 [128; 0; 1; 97] init))) (mkReader [33] 0 0)
             = Done (3%nat, r') /\
             upcoming r' = [true; false; false; false; false; true] /\
             r_data r' = [33].
Proof.
  assert (reachable (snd (decode 20 [128; 0; 1; 97] init))) as Hreach.
  { apply reachable_decode; [apply reachable_init | by vm_compute]. }
  split; [exact Hreach|]. split; [by vm_compute|]. split; [by vm_compute|].
  split; [simpl; lia|]. split; [by vm_compute|].
  apply (path_leads_the_walk_to_the_leaf _ 5 3 [false; false] (mkReader [33] 0 0)
           [true; false; false; false; false; true] Hreach);
    [by vm_compute | by vm_compute | simpl; lia | by vm_compute].
Defined.

(** X20.  When [_is_ancestor(anc, descendant)] returns, its result says
    whether [anc] lies on the chain of parents above [descendant]. *)
Theorem is_ancestor_decides_ancestry fuel h a d b :
  is_ancestor fuel h a d = Done b -> (b = true <-> ancestor_of h a d).
Proof. apply is_ancestor_iff. Qed.

Lemma is_ancestor_decides_ancestry_witness :
  is_ancestor 5 init 2 0 = Done true /\ (true = true <-> ancestor_of init 2 0).
Proof.
  split; [by vm_compute|].
  apply (is_ancestor_decides_ancestry 5 init 2 0 true). by vm_compute.
Defined.

(** X21.  In every state that [encode] and [decode] calls can leave behind,
    a token that [_decode_next_word] returns has consumed at least one bit
    of the input. *)
Theorem every_token_consumes_input h fuel r w r' h' :
  reachable h ->
  (r_bit_pos r < 8)%nat ->
  decode_next_word fuel r h = (Done (w, r'), h') ->
  remaining_bits r' < remaining_bits r.
Proof.
  intros Hl%reachable_labelled Hq Hd.
  apply (decode_next_word_progress fuel r h w r' h'); [| done | done].
  rewrite (lb_root _ Hl). apply (lb_root_internal _ Hl).
Qed.

Lemma every_token_consumes_input_witness :
  reachable init /\
  lt (r_bit_pos (new_reader [128; 0; 1; 97])) 8 /\
  decode_next_word 19 (new_reader [128; 0; 1; 97]) init
  = (Done (py "a", mkReader [128; 0; 1; 97] 4 0),
     one_word 1 1 (Some (py "a")) (<[py "a" := 3%nat]> ∅)) /\
  remaining_bits (mkReader [128; 0; 1; 97] 4 0)
  < remaining_bits (new_reader [128; 0; 1; 97]).
Proof.
  assert (decode_next_word 19 (new_reader [128; 0; 1; 97]) init
          = (Done (py "a", mkReader [128; 0; 1; 97] 4 0),
             one_word 1 1 (Some (py "a")) (<[py "a" := 3%nat]> ∅))) as Hd
    by (by vm_compute).
  split; [apply reachable_init|]. split; [simpl; lia|]. split; [exact Hd|].
  apply (every_token_consumes_input init 19 (new_reader [128; 0; 1; 97]) (py "a")
           (mkReader [128; 0; 1; 97] 4 0)
           (one_word 1 1 (Some (py "a")) (<[py "a" := 3%nat]> ∅)) reachable_init);
    [simpl; lia | exact Hd].
Defined.
